(** * feishu-claudecode: session store, stream folding and task orchestration

    A shallow embedding of the TypeScript sources
      - src/claude/session-manager.ts   (SessionManager)
      - src/claude/stream-processor.ts  (StreamProcessor)
      - src/claude/executor.ts          (SDKMessage, the error handling of
                                         ClaudeExecutor.execute)
      - src/feishu/card-builder.ts      (CardState, ToolCall)
      - src/bridge/message-bridge.ts    (MessageBridge)
    together with a model of the rate limiter, whose source is not part of
    the tree (only its test-suite is).

    Conventions.
      - JavaScript strings are modelled by [string]; lengths and slices are
        counted in characters of that type, and case mapping and white
        space are those of the one-byte characters.
      - An optional field ([x?: T], [T | undefined]) is an [option]; the
        three-valued [parent_tool_use_id] keeps [undefined] and [null] apart.
      - [Date.now()] is an explicit argument [now : Z] (milliseconds); the
        events that reach a suspended task carry the clock value of their
        arrival.
      - A JavaScript object held in a [Map] and mutated through a reference
        is written back into the map: the reference and the entry are the
        same object.
      - The collaborators of the bridge (message sender, agent stream, file
        system, timers) are explicit: the calls made on them are logged and
        their answers are given by a scenario. *)

From stdpp Require Import base option list strings gmap fin_maps numbers pretty.
From Stdlib Require Import ZArith Lia.
From Stdlib Require QArith.
Import Stdlib.Strings.Ascii.

Set Warnings "-register-all".
Local Open Scope string_scope.
Local Open Scope list_scope.
Local Open Scope Z_scope.

(** ** JavaScript values and string primitives *)

Module Js.

(** Truthiness of a string: every string but the empty one. *)
Definition truthy_string (s : string) : bool :=
  match s with EmptyString => false | String _ _ => true end.

(** Truthiness of [string | undefined]. *)
Definition truthy_ostring (o : option string) : bool :=
  match o with Some s => truthy_string s | None => false end.

(** [a || b] on strings. *)
Definition or_string (a : option string) (b : string) : string :=
  match a with
  | Some s => if truthy_string s then s else b
  | None => b
  end.

(** JSON-like values, as delivered in a tool invocation's [input]. *)
Inductive jsval : Type :=
  | JUndefined
  | JNull
  | JBool (b : bool)
  | JNum (z : Z)
  | JStr (s : string)
  | JArr (l : list jsval)
  | JObj (fields : list (string * jsval)).

Definition truthy (v : jsval) : bool :=
  match v with
  | JUndefined | JNull => false
  | JBool b => b
  | JNum z => negb (Z.eqb z 0)
  | JStr s => truthy_string s
  | JArr _ | JObj _ => true
  end.

(** [typeof v === 'object'] (true of [null], arrays and objects). *)
Definition typeof_object (v : jsval) : bool :=
  match v with
  | JNull | JArr _ | JObj _ => true
  | _ => false
  end.

Fixpoint assoc (k : string) (fs : list (string * jsval)) : jsval :=
  match fs with
  | [] => JUndefined
  | (k', v) :: fs' => if String.eqb k k' then v else assoc k fs'
  end.

(** Property read [v.k] on a value that passed the object test; an array
    has none of the named properties read by the source. *)
Definition get (v : jsval) (k : string) : jsval :=
  match v with
  | JObj fs => assoc k fs
  | _ => JUndefined
  end.

(** The cast [v as string], which the source applies to the fields
    [file_path], [command], [query] and [url] before it calls string
    methods on them.  The tool schemas type these fields as strings, and on
    a string the cast is the identity.  A truthy value of another type is
    outside the schemas (the string methods would raise or coerce); it is
    read as the empty string here. *)
Definition as_string (v : jsval) : string :=
  match v with JStr s => s | _ => "" end.

(** [s.split('/')]. *)
Fixpoint split_slash_aux (cur : string) (s : string) : list string :=
  match s with
  | EmptyString => [String.rev cur]
  | String c s' =>
      if Ascii.eqb c "/"%char
      then String.rev cur :: split_slash_aux EmptyString s'
      else split_slash_aux (String c cur) s'
  end.

Definition split_slash (s : string) : list string :=
  split_slash_aux EmptyString s.

(** [parts.join(sep)]. *)
Fixpoint join (sep : string) (parts : list string) : string :=
  match parts with
  | [] => ""
  | [p] => p
  | p :: ps => p +:+ sep +:+ join sep ps
  end.

(** The interpolation [`${v}`] of a template literal: [String(v)]. *)
Fixpoint to_display (v : jsval) : string :=
  match v with
  | JUndefined => "undefined"
  | JNull => "null"
  | JBool b => if b then "true" else "false"
  | JNum z => pretty z
  | JStr s => s
  | JArr l =>
      join ","
        (List.map (λ x, match x with
                        | JUndefined | JNull => ""
                        | _ => to_display x
                        end) l)
  | JObj _ => "[object Object]"
  end.

(** [l.slice(-2)]. *)
Definition last_two {A} (l : list A) : list A :=
  drop (length l - 2)%nat l.

(** [s.slice(0, n)]. *)
Definition slice0 (n : nat) (s : string) : string := String.substring 0 n s.

(** [s.slice(i)] for an index [i >= 0]. *)
Definition slice_from (i : nat) (s : string) : string :=
  String.substring i (String.length s - i)%nat s.

(** [s.lastIndexOf('.')], [None] standing for -1. *)
Fixpoint lastIndexOf_dot_aux (i : nat) (s : string) (acc : option nat) : option nat :=
  match s with
  | EmptyString => acc
  | String c s' =>
      lastIndexOf_dot_aux (S i) s'
        (if Ascii.eqb c "."%char then Some i else acc)
  end.

Definition lastIndexOf_dot (s : string) : option nat :=
  lastIndexOf_dot_aux 0%nat s None.

(** [s.slice(s.lastIndexOf('.'))]: with index -1 the slice is the last
    character. *)
Definition slice_last_dot (s : string) : string :=
  match lastIndexOf_dot s with
  | Some i => slice_from i s
  | None => slice_from (String.length s - 1)%nat s
  end.

Definition lower_ascii (c : ascii) : ascii :=
  let n := nat_of_ascii c in
  if (65 <=? n)%nat && (n <=? 90)%nat then ascii_of_nat (n + 32) else c.

Fixpoint toLowerCase (s : string) : string :=
  match s with
  | EmptyString => EmptyString
  | String c s' => String (lower_ascii c) (toLowerCase s')
  end.

(** [s.startsWith(c)] for a one-character prefix. *)
Definition starts_with_char (c : ascii) (s : string) : bool :=
  match s with
  | String c' _ => Ascii.eqb c c'
  | EmptyString => false
  end.

(** The class [\s], on the one-byte white space characters. *)
Definition is_space (c : ascii) : bool :=
  let n := nat_of_ascii c in
  ((9 <=? n)%nat && (n <=? 13)%nat) || (n =? 32)%nat.

(** [s.split(/\s+/)]. *)
Fixpoint split_ws_aux (cur : string) (in_ws : bool) (s : string) : list string :=
  match s with
  | EmptyString => [String.rev cur]
  | String c s' =>
      if is_space c then
        if in_ws then split_ws_aux cur true s'
        else String.rev cur :: split_ws_aux EmptyString true s'
      else split_ws_aux (String c cur) false s'
  end.

Definition split_ws (s : string) : list string :=
  split_ws_aux EmptyString false s.

Fixpoint trim_start (s : string) : string :=
  match s with
  | String c s' => if is_space c then trim_start s' else s
  | EmptyString => EmptyString
  end.

(** [s.trim()]. *)
Definition trim (s : string) : string :=
  String.rev (trim_start (String.rev (trim_start s))).

(** [s.split(c)] for a one-character separator. *)
Fixpoint split_on_aux (sep : ascii) (cur : string) (s : string) : list string :=
  match s with
  | EmptyString => [String.rev cur]
  | String c s' =>
      if Ascii.eqb c sep
      then String.rev cur :: split_on_aux sep EmptyString s'
      else split_on_aux sep (String c cur) s'
  end.

Definition split_on (sep : ascii) (s : string) : list string :=
  split_on_aux sep EmptyString s.

(** [s.slice(-n)] for [n > 0]: the last [n] characters, the whole string
    when it is shorter. *)
Definition slice_last (n : nat) (s : string) : string :=
  slice_from (String.length s - n)%nat s.

(** [a || b] on arrays: an array is truthy, also when it is empty. *)
Definition or_array {A} (a b : list A) : list A := a.

Definition is_digit (c : ascii) : bool :=
  let n := nat_of_ascii c in (48 <=? n)%nat && (n <=? 57)%nat.

(** The longest prefix of decimal digits, read as a number; [None] when
    the string does not start with a digit. *)
Fixpoint leading_digits (acc : option Z) (s : string) : option Z :=
  match s with
  | String c s' =>
      if is_digit c
      then leading_digits
             (Some (10 * default 0 acc + Z.of_nat (nat_of_ascii c - 48))) s'
      else acc
  | EmptyString => acc
  end.

(** [parseInt(s, 10)], [None] standing for [NaN]: leading white space is
    skipped, a sign is read, then the longest run of digits. *)
Definition parseInt10 (s : string) : option Z :=
  match trim_start s with
  | String c rest =>
      if Ascii.eqb c "-"%char then Z.opp <$> leading_digits None rest
      else if Ascii.eqb c "+"%char then leading_digits None rest
      else leading_digits None (String c rest)
  | EmptyString => None
  end.

End Js.

(** ** SessionManager (src/claude/session-manager.ts) *)

Module SessionManager.

Record UserSession : Type := mkUserSession {
  sessionId : option string;
  workingDirectory : option string;
  lastUsed : Z
}.

(** [const SESSION_TTL_MS = 24 * 60 * 60 * 1000]. *)
Definition SESSION_TTL_MS : Z := 24 * 60 * 60 * 1000.

(** The manager: the [sessions] map and the constructor's default working
    directory.  The logger and the handle of the hourly sweep timer carry
    no data. *)
Record t : Type := mk {
  sessions : gmap string UserSession;
  defaultWorkingDirectory : option string
}.

Definition create (defaultWd : option string) : t :=
  {| sessions := ∅; defaultWorkingDirectory := defaultWd |}.

Definition with_sessions (m : gmap string UserSession) (sm : t) : t :=
  {| sessions := m; defaultWorkingDirectory := defaultWorkingDirectory sm |}.

(** [getSession(userId)].  A missing entry is created with the clock value
    of its creation, which the assignment [session.lastUsed = Date.now()]
    then overwrites at once; both reads are [now]. *)
Definition getSession (now : Z) (userId : string) (sm : t) : t * UserSession :=
  let session :=
    match sessions sm !! userId with
    | Some s => s
    | None =>
        {| sessionId := None;
           workingDirectory := defaultWorkingDirectory sm;
           lastUsed := now |}
    end in
  let session' :=
    {| sessionId := sessionId session;
       workingDirectory := workingDirectory session;
       lastUsed := now |} in
  (with_sessions (<[userId := session']> (sessions sm)) sm, session').

(** [setSessionId(userId, sessionId)]. *)
Definition setSessionId (now : Z) (userId sid : string) (sm : t) : t :=
  let '(sm1, session) := getSession now userId sm in
  let session' :=
    {| sessionId := Some sid;
       workingDirectory := workingDirectory session;
       lastUsed := lastUsed session |} in
  with_sessions (<[userId := session']> (sessions sm1)) sm1.

(** [session.workingDirectory !== directory]. *)
Definition wd_differs (wd : option string) (directory : string) : bool :=
  match wd with
  | Some d => negb (String.eqb d directory)
  | None => true
  end.

(** [setWorkingDirectory(userId, directory)]. *)
Definition setWorkingDirectory (now : Z) (userId directory : string) (sm : t) : t :=
  let '(sm1, session) := getSession now userId sm in
  let sid :=
    if wd_differs (workingDirectory session) directory
       && Js.truthy_ostring (sessionId session)
    then None
    else sessionId session in
  let session' :=
    {| sessionId := sid;
       workingDirectory := Some directory;
       lastUsed := lastUsed session |} in
  with_sessions (<[userId := session']> (sessions sm1)) sm1.

(** [resetSession(userId)]: reads the map directly, not through
    [getSession]. *)
Definition resetSession (userId : string) (sm : t) : t :=
  match sessions sm !! userId with
  | Some session =>
      let session' :=
        {| sessionId := None;
           workingDirectory := workingDirectory session;
           lastUsed := lastUsed session |} in
      with_sessions (<[userId := session']> (sessions sm)) sm
  | None => sm
  end.

(** [hasWorkingDirectory(userId)]. *)
Definition hasWorkingDirectory (now : Z) (userId : string) (sm : t) : t * bool :=
  let '(sm1, session) := getSession now userId sm in
  (sm1, Js.truthy_ostring (workingDirectory session)).

(** The test of [cleanupExpired]: [now - session.lastUsed > SESSION_TTL_MS]. *)
Definition expired (now : Z) (s : UserSession) : bool :=
  SESSION_TTL_MS <? now - lastUsed s.

(** [cleanupExpired()], run by the hourly timer at clock value [now]. *)
Definition cleanupExpired (now : Z) (sm : t) : t :=
  with_sessions (filter (λ kv, expired now kv.2 = false) (sessions sm)) sm.

End SessionManager.

(** ** Card state (src/feishu/card-builder.ts) *)

Module CardBuilder.

(** [type CardStatus = 'thinking' | 'running' | 'complete' | 'error']. *)
Inductive CardStatus : Type := thinking | running | complete | error.

Inductive ToolStatus : Type := tool_running | tool_done.

Definition number : Type := QArith_base.Q.

Record ToolCall : Type := mkToolCall {
  name : string;
  detail : string;
  status : ToolStatus
}.

Record CardState : Type := mkCardState {
  card_status : CardStatus;
  userPrompt : string;
  responseText : string;
  toolCalls : list ToolCall;
  costUsd : option number;
  durationMs : option number;
  errorMessage : option string
}.

Definition is_running (t : ToolCall) : bool :=
  match status t with tool_running => true | tool_done => false end.

End CardBuilder.

(** ** Agent events (type SDKMessage of src/claude/executor.ts) *)

Module Sdk.

(** [parent_tool_use_id?: string | null]. *)
Inductive Parent : Type :=
  | ParentUndefined
  | ParentNull
  | ParentId (id : string).

(** [parent_tool_use_id === null || parent_tool_use_id === undefined]. *)
Definition top_level (p : Parent) : bool :=
  match p with ParentId _ => false | _ => true end.

(** An element of [message.content]. *)
Record ContentBlock : Type := mkBlock {
  block_type : string;
  block_text : option string;
  block_name : option string;
  block_id : option string;
  block_input : Js.jsval
}.

(** [event.delta]. *)
Record Delta : Type := mkDelta {
  delta_type : string;
  delta_text : option string
}.

(** [event.content_block]. *)
Record StartBlock : Type := mkStartBlock {
  start_type : string;
  start_text : option string;
  start_name : option string;
  start_id : option string
}.

Record StreamEvent : Type := mkEvent {
  event_type : string;
  event_delta : option Delta;
  event_content_block : option StartBlock
}.

(** The fields of [SDKMessage] that the bridge reads.  [message] is the
    optional [message] object and, inside it, the optional [content]. *)
Record SDKMessage : Type := mkMessage {
  type : string;
  subtype : option string;
  session_id : option string;
  message : option (option (list ContentBlock));
  duration_ms : option CardBuilder.number;
  total_cost_usd : option CardBuilder.number;
  result : option string;
  errors : option (list string);
  event : option StreamEvent;
  parent_tool_use_id : Parent
}.

(** [message.message?.content]. *)
Definition content (m : SDKMessage) : option (list ContentBlock) :=
  match message m with
  | Some c => c
  | None => None
  end.

End Sdk.

(** ** StreamProcessor (src/claude/stream-processor.ts) *)

Module StreamProcessor.
Import CardBuilder Sdk.

(** [const IMAGE_EXTENSIONS]. *)
Definition IMAGE_EXTENSIONS : list string :=
  [".png"; ".jpg"; ".jpeg"; ".gif"; ".webp"; ".bmp"; ".svg"; ".tiff"].

Definition mem_string (x : string) (l : list string) : bool :=
  existsb (String.eqb x) l.

Definition isImagePath (filePath : string) : bool :=
  mem_string (Js.toLowerCase (Js.slice_last_dot filePath)) IMAGE_EXTENSIONS.

Definition shortenPath (filePath : string) : string :=
  let parts := Js.split_slash filePath in
  if (length parts <=? 3)%nat then filePath
  else ".../" +:+ Js.join "/" (Js.last_two parts).

Definition truncate (text : string) (max : nat) : string :=
  if (String.length text <=? max)%nat then text
  else Js.slice0 max text +:+ "...".

Definition backtick (s : string) : string := "`" +:+ s +:+ "`".

Definition dquote : string := String (ascii_of_nat 34) EmptyString.

Definition formatToolDetail (nm : string) (input : Js.jsval) : string :=
  if negb (Js.truthy input) || negb (Js.typeof_object input) then ""
  else
    let field k := Js.get input k in
    let str k := Js.as_string (field k) in
    let has k := Js.truthy (field k) in
    if String.eqb nm "Read" || String.eqb nm "Write" || String.eqb nm "Edit" then
      if has "file_path" then backtick (shortenPath (str "file_path")) else ""
    else if String.eqb nm "Bash" then
      if has "command" then backtick (truncate (str "command") 60) else ""
    else if String.eqb nm "Glob" || String.eqb nm "Grep" then
      if has "pattern" then backtick (Js.to_display (field "pattern")) else ""
    else if String.eqb nm "WebSearch" then
      if has "query" then dquote +:+ truncate (str "query") 50 +:+ dquote else ""
    else if String.eqb nm "WebFetch" then
      if has "url" then backtick (truncate (str "url") 60) else ""
    else if String.eqb nm "Task" then
      if has "description" then Js.to_display (field "description") else ""
    else "".

(** The private fields of the class. *)
Record t : Type := mk {
  responseText : string;
  toolCalls : list ToolCall;
  currentToolName : option string;
  sessionId : option string;
  costUsd : option number;
  durationMs : option number;
  imagePaths : list string;
  userPrompt : string
}.

(** [new StreamProcessor(userPrompt)]. *)
Definition create (prompt : string) : t :=
  {| responseText := ""; toolCalls := []; currentToolName := None;
     sessionId := None; costUsd := None; durationMs := None;
     imagePaths := []; userPrompt := prompt |}.

Definition set_done (tc : ToolCall) : ToolCall :=
  {| name := name tc; detail := detail tc; status := tool_done |}.

(** [toolCalls.find(t => t.name === nm && t.status === 'running')] followed
    by [tool.status = 'done'] on the entry found. *)
Fixpoint complete_first (nm : string) (l : list ToolCall) : list ToolCall :=
  match l with
  | [] => []
  | tc :: l' =>
      if String.eqb (name tc) nm && is_running tc
      then set_done tc :: l'
      else tc :: complete_first nm l'
  end.

Definition completeCurrentTool (p : t) : t :=
  match currentToolName p with
  | Some nm =>
      if Js.truthy_string nm then
        {| responseText := responseText p;
           toolCalls := complete_first nm (toolCalls p);
           currentToolName := None;
           sessionId := sessionId p; costUsd := costUsd p;
           durationMs := durationMs p; imagePaths := imagePaths p;
           userPrompt := userPrompt p |}
      else p
  | None => p
  end.

(** [Set.prototype.add] on an insertion-ordered set. *)
Definition set_add (x : string) (l : list string) : list string :=
  if mem_string x l then l else l ++ [x].

Definition addToolCall (nm : string) (input : Js.jsval) (p : t) : t :=
  let p1 := completeCurrentTool p in
  let det := formatToolDetail nm input in
  let paths :=
    if String.eqb nm "Write" && Js.truthy input && Js.typeof_object input then
      let filePath := Js.as_string (Js.get input "file_path") in
      if Js.truthy (Js.get input "file_path") && isImagePath filePath
      then set_add filePath (imagePaths p1)
      else imagePaths p1
    else imagePaths p1 in
  {| responseText := responseText p1;
     toolCalls := toolCalls p1 ++ [mkToolCall nm det tool_running];
     currentToolName := Some nm;
     sessionId := sessionId p1; costUsd := costUsd p1;
     durationMs := durationMs p1; imagePaths := paths;
     userPrompt := userPrompt p1 |}.

Definition set_responseText (txt : string) (p : t) : t :=
  {| responseText := txt; toolCalls := toolCalls p;
     currentToolName := currentToolName p; sessionId := sessionId p;
     costUsd := costUsd p; durationMs := durationMs p;
     imagePaths := imagePaths p; userPrompt := userPrompt p |}.

(** The body of the [for (const block of message.message.content)] loop. *)
Definition processBlock (parent : Parent) (p : t) (block : ContentBlock) : t :=
  if String.eqb (block_type block) "text" && Js.truthy_ostring (block_text block) then
    if top_level parent
    then set_responseText (default "" (block_text block)) p
    else p
  else if String.eqb (block_type block) "tool_use"
          && Js.truthy_ostring (block_name block) then
    addToolCall (default "" (block_name block)) (block_input block) p
  else if String.eqb (block_type block) "tool_result" then
    completeCurrentTool p
  else p.

Definition processAssistantMessage (m : SDKMessage) (p : t) : t :=
  match content m with
  | None => p
  | Some blocks => foldl (processBlock (parent_tool_use_id m)) p blocks
  end.

Definition processStreamEvent (m : SDKMessage) (p : t) : t :=
  match event m with
  | None => p
  | Some ev =>
      if negb (top_level (parent_tool_use_id m)) then p
      else if String.eqb (event_type ev) "content_block_start" then
        match event_content_block ev with
        | Some b =>
            if String.eqb (start_type b) "tool_use"
               && Js.truthy_ostring (start_name b)
            then addToolCall (default "" (start_name b)) Js.JUndefined p
            else p
        | None => p
        end
      else if String.eqb (event_type ev) "content_block_delta" then
        match event_delta ev with
        | Some d =>
            if String.eqb (delta_type d) "text_delta"
               && Js.truthy_ostring (delta_text d)
            then set_responseText (responseText p +:+ default "" (delta_text d)) p
            else p
        | None => p
        end
      else p
  end.

(** The template literal [`Ended with: ${message.subtype}`]. *)
Definition ended_with (sub : option string) : string :=
  "Ended with: " +:+ default "undefined" sub.

(** [message.errors?.join('; ') || `Ended with: ${message.subtype}`]. *)
Definition error_text (m : SDKMessage) : string :=
  Js.or_string (Js.join "; " <$> errors m) (ended_with (subtype m)).

(** [message.subtype !== 'success']. *)
Definition isError (m : SDKMessage) : bool :=
  match subtype m with
  | Some s => negb (String.eqb s "success")
  | None => true
  end.

Definition processResultMessage (m : SDKMessage) (p : t) : t * CardState :=
  let p' :=
    {| responseText := responseText p;
       toolCalls := set_done <$> toolCalls p;
       currentToolName := currentToolName p;
       sessionId := sessionId p;
       costUsd := total_cost_usd m;
       durationMs := duration_ms m;
       imagePaths := imagePaths p;
       userPrompt := userPrompt p |} in
  (p',
   {| card_status := if isError m then error else complete;
      CardBuilder.userPrompt := userPrompt p';
      CardBuilder.responseText := Js.or_string (result m) (responseText p');
      CardBuilder.toolCalls := toolCalls p';
      CardBuilder.costUsd := costUsd p';
      CardBuilder.durationMs := durationMs p';
      errorMessage := if isError m then Some (error_text m) else None |}).

(** [if (message.session_id && !this.sessionId) this.sessionId = ...]. *)
Definition captureSession (m : SDKMessage) (p : t) : t :=
  if Js.truthy_ostring (session_id m) && negb (Js.truthy_ostring (sessionId p))
  then {| responseText := responseText p; toolCalls := toolCalls p;
          currentToolName := currentToolName p; sessionId := session_id m;
          costUsd := costUsd p; durationMs := durationMs p;
          imagePaths := imagePaths p; userPrompt := userPrompt p |}
  else p.

(** The status computed at the end of [processMessage]. *)
Definition derive_status (p : t) : CardStatus :=
  if existsb is_running (toolCalls p) then running
  else if Js.truthy_string (responseText p) then running
  else thinking.

Definition snapshot (p : t) : CardState :=
  {| card_status := derive_status p;
     CardBuilder.userPrompt := userPrompt p;
     CardBuilder.responseText := responseText p;
     CardBuilder.toolCalls := toolCalls p;
     CardBuilder.costUsd := costUsd p;
     CardBuilder.durationMs := durationMs p;
     errorMessage := None |}.

(** [processMessage(message)]: the new processor and the returned card
    state.  The returned [toolCalls] array is a copy whose elements are the
    processor's own [ToolCall] objects; the value recorded here is the one
    at the time of the return (see [MessageBridge.aliased] for a card that
    is rendered later). *)
Definition processMessage (m : SDKMessage) (p : t) : t * CardState :=
  let p0 := captureSession m p in
  if String.eqb (type m) "system" then (p0, snapshot p0)
  else if String.eqb (type m) "assistant" then
    let p1 := processAssistantMessage m p0 in (p1, snapshot p1)
  else if String.eqb (type m) "result" then processResultMessage m p0
  else if String.eqb (type m) "stream_event" then
    let p1 := processStreamEvent m p0 in (p1, snapshot p1)
  else (p0, snapshot p0).

(** Folding a whole event sequence: the card states returned, in order. *)
Fixpoint run (p : t) (ms : list SDKMessage) : t * list CardState :=
  match ms with
  | [] => (p, [])
  | m :: ms' =>
      let '(p1, s) := processMessage m p in
      let '(p2, ss) := run p1 ms' in
      (p2, s :: ss)
  end.

(** A message or delta event that carries a parent-tool marker. *)
Definition nested_event (m : SDKMessage) : Prop :=
  (type m = "assistant" ∨ type m = "stream_event")
  ∧ top_level (parent_tool_use_id m) = false.

Definition getSessionId (p : t) : option string := sessionId p.
Definition getImagePaths (p : t) : list string := imagePaths p.

(** *** [extractImagePaths]

    The scan [text.match(/\/[\w./_-]+\.(?:png|jpe?g|gif|webp|bmp|svg|tiff)/gi)]
    written out: leftmost matches, the repetition greedy and backing off one
    character at a time, the alternatives tried in their order, the next
    match sought after the end of the previous one. *)

Definition in_range (lo hi : nat) (c : ascii) : bool :=
  let n := nat_of_ascii c in (lo <=? n)%nat && (n <=? hi)%nat.

(** The class [[\w./_-]]. *)
Definition path_char (c : ascii) : bool :=
  in_range 65 90 c || in_range 97 122 c || in_range 48 57 c
  || Ascii.eqb c "_"%char || Ascii.eqb c "."%char
  || Ascii.eqb c "/"%char || Ascii.eqb c "-"%char.

Fixpoint run_length (s : string) : nat :=
  match s with
  | String c s' => if path_char c then S (run_length s') else 0%nat
  | EmptyString => 0%nat
  end.

Fixpoint drop_str (n : nat) (s : string) : string :=
  match n, s with
  | S n', String _ s' => drop_str n' s'
  | _, _ => s
  end.

(** Case-insensitive prefix test against a lower-case word. *)
Fixpoint prefix_ci (w s : string) : bool :=
  match w, s with
  | EmptyString, _ => true
  | String a w', String c s' =>
      Ascii.eqb a (Js.lower_ascii c) && prefix_ci w' s'
  | String _ _, EmptyString => false
  end.

(** The alternatives of the group, in the order the engine tries them. *)
Definition EXTENSION_ALTERNATIVES : list string :=
  ["png"; "jpeg"; "jpg"; "gif"; "webp"; "bmp"; "svg"; "tiff"].

Definition match_extension (s : string) : option nat :=
  String.length <$> List.find (λ w, prefix_ci w s) EXTENSION_ALTERNATIVES.

(** A match whose repetition takes [k] characters of [rest], the text that
    follows the leading slash: its length, slash excluded. *)
Definition match_with (k : nat) (rest : string) : option nat :=
  match drop_str k rest with
  | String c after =>
      if Ascii.eqb c "."%char
      then (λ e, k + 1 + e)%nat <$> match_extension after
      else None
  | EmptyString => None
  end.

Fixpoint match_down (k : nat) (rest : string) : option nat :=
  match k with
  | O => None
  | S k' =>
      match match_with k rest with
      | Some n => Some n
      | None => match_down k' rest
      end
  end.

Definition match_after_slash (rest : string) : option nat :=
  match_down (run_length rest) rest.

Fixpoint scan (fuel : nat) (s : string) : list string :=
  match fuel with
  | O => []
  | S fuel' =>
      match s with
      | EmptyString => []
      | String c rest =>
          if Ascii.eqb c "/"%char then
            match match_after_slash rest with
            | Some n =>
                String c (Js.slice0 n rest) :: scan fuel' (drop_str n rest)
            | None => scan fuel' rest
            end
          else scan fuel' rest
      end
  end.

(** [extractImagePaths(text)]: the matches, duplicates removed. *)
Definition extractImagePaths (text : string) : list string :=
  foldl (λ acc x, set_add x acc) [] (scan (S (String.length text)) text).


(** *** Vocabulary of the properties of the tool-call list *)

(** The entry [b] is the entry [a] at a later time: same name and detail,
    and still done if it was done. *)
Definition same_entry (a b : ToolCall) : Prop :=
  name a = name b ∧ detail a = detail b
  ∧ (is_running a = false → is_running b = false).

(** The list [new] continues the list [old]: the entries of [old], in
    their order, followed by the entries added since. *)
Definition continues (old new : list ToolCall) : Prop :=
  ∃ kept more, new = kept ++ more ∧ Forall2 same_entry old kept.

(** No tool call of the list is running. *)
Definition all_done (l : list ToolCall) : Prop :=
  Forall (λ tc, is_running tc = false) l.

(** The tracked image paths are distinct and all pass [isImagePath]. *)
Definition image_paths_ok (p : t) : Prop :=
  NoDup (imagePaths p) ∧ Forall (λ x, isImagePath x = true) (imagePaths p).

(** Every running tool call is the last entry of the list and is the
    current tool. *)
Definition open_last (p : t) : Prop :=
  ∀ i tc, toolCalls p !! i = Some tc → is_running tc = true →
    S i = length (toolCalls p)
    ∧ currentToolName p = Some (name tc)
    ∧ Js.truthy_string (name tc) = true.

End StreamProcessor.

(** ** RateLimiter (src/bridge/rate-limiter.ts, absent from the tree) *)

Module RateLimiter.

Section Limiter.
Context {T : Type}.

(** Modelled from the spec: the source of the class [RateLimiter] is
    missing (the tree holds its test-suite and its caller only).  The state
    follows section 4.2: a minimum interval, the end of the window that is
    currently open (none when the limiter is idle) and the single pending
    thunk.  Time is explicit: each operation is given the clock value at
    which it runs and returns the thunks executed, with the time of their
    execution. *)
Record t : Type := mk {
  intervalMs : Z;
  windowEnd : option Z;
  pending : option T
}.

(** Modelled from the spec: [new RateLimiter(interval)] starts idle. *)
Definition create (interval : Z) : t :=
  {| intervalMs := interval; windowEnd := None; pending := None |}.

(** Modelled from the spec: the window timer of the absent class.  "When
    the window elapses, if a pending thunk exists it executes immediately
    and restarts the window; otherwise the limiter goes idle."  [advance]
    lets the clock reach [now]. *)
Definition advance (now : Z) (rl : t) : t * list (Z * T) :=
  match windowEnd rl with
  | Some e =>
      if e <=? now then
        match pending rl with
        | Some f =>
            let e2 := e + intervalMs rl in
            ({| intervalMs := intervalMs rl;
                windowEnd := if e2 <=? now then None else Some e2;
                pending := None |},
             [(e, f)])
        | None =>
            ({| intervalMs := intervalMs rl; windowEnd := None;
                pending := None |}, [])
        end
      else (rl, [])
  | None => (rl, [])
  end.

(** Modelled from the spec: [schedule(thunk)] of the absent class.  "The
    first call in a quiescent period executes its thunk immediately and
    starts the interval window.  Calls arriving while a window is open are
    not executed immediately; instead the latest such call's thunk is
    retained as pending (an earlier pending thunk, if any, is discarded)." *)
Definition schedule (now : Z) (f : T) (rl : t) : t * list (Z * T) :=
  let '(rl1, ran) := advance now rl in
  match windowEnd rl1 with
  | None =>
      ({| intervalMs := intervalMs rl1;
          windowEnd := Some (now + intervalMs rl1);
          pending := pending rl1 |},
       ran ++ [(now, f)])
  | Some _ =>
      ({| intervalMs := intervalMs rl1; windowEnd := windowEnd rl1;
          pending := Some f |}, ran)
  end.

(** Modelled from the spec: [flush()] of the absent class "immediately
    executes any pending thunk (bypassing the window)"; nothing happens when
    nothing is pending. *)
Definition flush (now : Z) (rl : t) : t * list (Z * T) :=
  let '(rl1, ran) := advance now rl in
  match pending rl1 with
  | Some f =>
      ({| intervalMs := intervalMs rl1; windowEnd := windowEnd rl1;
          pending := None |}, ran ++ [(now, f)])
  | None => (rl1, ran)
  end.

(** Modelled from the spec: [cancel()] of the absent class "discards a
    pending thunk without executing it". *)
Definition cancel (now : Z) (rl : t) : t * list (Z * T) :=
  let '(rl1, ran) := advance now rl in
  ({| intervalMs := intervalMs rl1; windowEnd := windowEnd rl1;
      pending := None |}, ran).

(** Modelled from the spec: [cancelAndWait()] of the absent class
    "discards pending work but waits out the remainder of the current
    window before resolving"; the third component is the clock value at
    which the returned promise resolves. *)
Definition cancelAndWait (now : Z) (rl : t) : t * list (Z * T) * Z :=
  let '(rl1, ran) := advance now rl in
  ({| intervalMs := intervalMs rl1; windowEnd := windowEnd rl1;
      pending := None |}, ran, default now (windowEnd rl1)).

(** The calls a client can make, each at a clock value. *)
Inductive op : Type :=
  | Schedule (now : Z) (f : T)
  | Flush (now : Z)
  | Cancel (now : Z)
  | Advance (now : Z).

Definition step (o : op) (rl : t) : t * list (Z * T) :=
  match o with
  | Schedule now f => schedule now f rl
  | Flush now => flush now rl
  | Cancel now => cancel now rl
  | Advance now => advance now rl
  end.

(** A sequence of calls: the final limiter and every execution, in order. *)
Fixpoint run (ops : list op) (rl : t) : t * list (Z * T) :=
  match ops with
  | [] => (rl, [])
  | o :: ops' =>
      let '(rl1, ran1) := step o rl in
      let '(rl2, ran2) := run ops' rl1 in
      (rl2, ran1 ++ ran2)
  end.

Definition scheduled_by (o : op) : list T :=
  match o with Schedule _ f => [f] | _ => [] end.

End Limiter.

Arguments t : clear implicits.
Arguments op : clear implicits.

End RateLimiter.

(** ** MessageBridge (src/bridge/message-bridge.ts) *)

Module MessageBridge.
Import CardBuilder.

(** [const TASK_TIMEOUT_MS = 10 * 60 * 1000; // 10 minutes]. *)
Definition TASK_TIMEOUT_MS : Z := 10 * 60 * 1000.

(** [interface RunningTask]; an [AbortController] is named by a number. *)
Record RunningTask : Type := mkTask {
  abortController : nat;
  startTime : Z
}.

(** A pending [setTimeout] whose callback aborts a controller. *)
Record Timer : Type := mkTimer {
  deadline : Z;
  target : nat
}.

(** What the card builders are applied to; the JSON text is not modelled. *)
Inductive Card : Type :=
  | StateCard (s : CardState)
  | HelpCard
  | StatusCard (userId : string) (wd sid : option string) (isRunning : bool)
  | TextCard (title content color : string).

(** Calls made on the [MessageSender], and the opening of an agent stream
    by [ClaudeExecutor.execute] with its options. *)
Inductive Outgoing : Type :=
  | SendCard (chatId : string) (c : Card)
  | UpdateCard (messageId : string) (c : Card)
  | SendImageFile (chatId path : string)
  | Execute (prompt cwd : string) (sessionId : option string) (controller : nat).

(** [IncomingMessage], with the fields the bridge reads. *)
Record IncomingMessage : Type := mkIncoming {
  userId : string;
  chatId : string;
  text : string;
  imageKey : option string;
  messageId : string
}.

(** The bridge and the part of the world it acts on: its session manager
    and running-task map, the pending timers, the abort signals raised, the
    files of the scratch directory and the calls made on the sender. *)
Record t : Type := mk {
  sessionManager : SessionManager.t;
  runningTasks : gmap string RunningTask;
  timers : gmap nat Timer;
  aborted : gset nat;
  files : gset string;
  outbox : list Outgoing;
  fresh : nat
}.

Definition create (defaultWd : option string) : t :=
  {| sessionManager := SessionManager.create defaultWd;
     runningTasks := ∅; timers := ∅; aborted := ∅; files := ∅;
     outbox := []; fresh := 0%nat |}.

Definition set_sessionManager (sm : SessionManager.t) (b : t) : t :=
  {| sessionManager := sm; runningTasks := runningTasks b;
     timers := timers b; aborted := aborted b; files := files b;
     outbox := outbox b; fresh := fresh b |}.

Definition set_runningTasks (r : gmap string RunningTask) (b : t) : t :=
  {| sessionManager := sessionManager b; runningTasks := r;
     timers := timers b; aborted := aborted b; files := files b;
     outbox := outbox b; fresh := fresh b |}.

Definition set_timers (tm : gmap nat Timer) (b : t) : t :=
  {| sessionManager := sessionManager b; runningTasks := runningTasks b;
     timers := tm; aborted := aborted b; files := files b;
     outbox := outbox b; fresh := fresh b |}.

Definition set_aborted (a : gset nat) (b : t) : t :=
  {| sessionManager := sessionManager b; runningTasks := runningTasks b;
     timers := timers b; aborted := a; files := files b;
     outbox := outbox b; fresh := fresh b |}.

Definition set_files (f : gset string) (b : t) : t :=
  {| sessionManager := sessionManager b; runningTasks := runningTasks b;
     timers := timers b; aborted := aborted b; files := f;
     outbox := outbox b; fresh := fresh b |}.

Definition set_fresh (n : nat) (b : t) : t :=
  {| sessionManager := sessionManager b; runningTasks := runningTasks b;
     timers := timers b; aborted := aborted b; files := files b;
     outbox := outbox b; fresh := n |}.

(** A call on the sender. *)
Definition send (o : Outgoing) (b : t) : t :=
  {| sessionManager := sessionManager b; runningTasks := runningTasks b;
     timers := timers b; aborted := aborted b; files := files b;
     outbox := outbox b ++ [o]; fresh := fresh b |}.

Definition sendAll (os : list Outgoing) (b : t) : t := foldl (λ b o, send o b) b os.

(** [controller.abort()]. *)
Definition abort (c : nat) (b : t) : t := set_aborted ({[c]} ∪ aborted b) b.

(** [controller.signal.aborted]. *)
Definition is_aborted (c : nat) (b : t) : bool := bool_decide (c ∈ aborted b).

(** The timers whose delay has run out at clock value [now]. *)
Definition due (now : Z) (tm : Timer) : bool := deadline tm <=? now.

(** The event loop reaching clock value [now]: every pending timer that is
    due runs its callback ([abortController.abort()]) and is gone. *)
Definition fire_due (now : Z) (b : t) : t :=
  let fired := filter (λ kv, due now kv.2 = true) (timers b) in
  let rest := filter (λ kv, due now kv.2 = false) (timers b) in
  set_aborted (list_to_set (target <$> (snd <$> map_to_list fired)) ∪ aborted b)
    (set_timers rest b).

(** [clearTimeout(id)]. *)
Definition clearTimeout (id : nat) (b : t) : t := set_timers (delete id (timers b)) b.

(** What the host answers to [fs.statSync(path)]. *)
Inductive StatResult : Type := IsDirectory | NotDirectory | Missing.

(** The host functions used by the command handler and by the staging of
    an image: [os.homedir()], [path.resolve], [fs.statSync], [os.tmpdir()]. *)
Record Host : Type := mkHost {
  homedir : string;
  path_resolve : string → string;
  statSync : string → StatResult;
  tmpdir : string
}.

(** [arg.startsWith('~') ? arg.replace('~', os.homedir()) : arg]. *)
Definition expand_home (h : Host) (arg : string) : string :=
  match arg with
  | String c rest => if Ascii.eqb c "~"%char then homedir h +:+ rest else arg
  | EmptyString => arg
  end.

(** [handleCommand(msg)], at clock value [now]. *)
Definition handleCommand (now : Z) (h : Host) (msg : IncomingMessage) (b : t) : t :=
  let parts := Js.split_ws (text msg) in
  let cmd := default "" (head parts) in
  let arg := Js.trim (Js.join " " (tail parts)) in
  let lc := Js.toLowerCase cmd in
  if String.eqb lc "/help" then send (SendCard (chatId msg) HelpCard) b
  else if String.eqb lc "/cd" then
    if negb (Js.truthy_string arg) then
      send (SendCard (chatId msg)
              (TextCard "⚠️ Usage" "`/cd /path/to/project`" "orange")) b
    else
      let resolvedPath := path_resolve h (expand_home h arg) in
      match statSync h resolvedPath with
      | NotDirectory =>
          send (SendCard (chatId msg)
                  (TextCard "❌ Error"
                     ("Not a directory: `" +:+ resolvedPath +:+ "`") "red")) b
      | Missing =>
          send (SendCard (chatId msg)
                  (TextCard "❌ Error"
                     ("Directory not found: `" +:+ resolvedPath +:+ "`") "red")) b
      | IsDirectory =>
          let sm := SessionManager.setWorkingDirectory now (userId msg)
                      resolvedPath (sessionManager b) in
          send (SendCard (chatId msg)
                  (TextCard "✅ Working Directory Set"
                     ("`" +:+ resolvedPath +:+ "`") "green"))
            (set_sessionManager sm b)
      end
  else if String.eqb lc "/reset" then
    let sm := SessionManager.resetSession (userId msg) (sessionManager b) in
    send (SendCard (chatId msg)
            (TextCard "✅ Session Reset"
               "Conversation cleared. Working directory preserved." "green"))
      (set_sessionManager sm b)
  else if String.eqb lc "/stop" then
    match runningTasks b !! userId msg with
    | Some task =>
        let b1 := abort (abortController task) b in
        let b2 := set_runningTasks (delete (userId msg) (runningTasks b1)) b1 in
        send (SendCard (chatId msg)
                (TextCard "🛑 Stopped" "Current task has been aborted." "orange")) b2
    | None =>
        send (SendCard (chatId msg)
                (TextCard "ℹ️ No Running Task" "There is no task to stop." "blue")) b
    end
  else if String.eqb lc "/status" then
    let '(sm, session) :=
      SessionManager.getSession now (userId msg) (sessionManager b) in
    let isRunning := bool_decide (is_Some (runningTasks b !! userId msg)) in
    send (SendCard (chatId msg)
            (StatusCard (userId msg) (SessionManager.workingDirectory session)
               (SessionManager.sessionId session) isRunning))
      (set_sessionManager sm b)
  else
    send (SendCard (chatId msg)
            (TextCard "❓ Unknown Command"
               ("Unknown command: `" +:+ cmd +:+ "`" +:+ String "010"%char
                  "Use `/help` for available commands.") "orange")) b.

(** The command word of a message as [handleCommand] compares it, and its
    argument. *)
Definition command (msg : IncomingMessage) : string :=
  Js.toLowerCase (default "" (head (Js.split_ws (text msg)))).

Definition argument (msg : IncomingMessage) : string :=
  Js.trim (Js.join " " (tail (Js.split_ws (text msg)))).

(** What no command changes, and what it may change only for its own
    user: [b'] is [b] with one more card sent to the chat of the message;
    at most the running task of the user is gone and at most the session
    of the user is touched. *)
Definition command_frame (msg : IncomingMessage) (b b' : t) : Prop :=
  (∃ c, outbox b' = outbox b ++ [SendCard (chatId msg) c])
  ∧ timers b' = timers b
  ∧ files b' = files b
  ∧ fresh b' = fresh b
  ∧ aborted b ⊆ aborted b'
  ∧ (∀ u, runningTasks b' !! u = runningTasks b !! u
          ∨ (u = userId msg ∧ runningTasks b' !! u = None))
  ∧ (∀ u, u ≠ userId msg →
          SessionManager.sessions (sessionManager b') !! u
          = SessionManager.sessions (sessionManager b) !! u).

(** *** [executeQuery] *)

(** What [sender.downloadImage] does: it writes the file and answers
    [true], or answers [false], having left a file behind or not. *)
Inductive DownloadResult : Type :=
  | Downloaded
  | DownloadFailed (left_file : bool).

(** What happens while the drive loop waits for the agent: the stream
    yields an event, or a command of some user is handled in between. *)
Inductive Step : Type :=
  | Yield (at_ : Z) (m : Sdk.SDKMessage)
  | Command (at_ : Z) (msg : IncomingMessage).

(** How the stream of the agent SDK finishes: it ends, or it raises an
    error with a [name] and a [message]. *)
Inductive Ending : Type :=
  | Ends (at_ : Z)
  | Throws (at_ : Z) (name : string) (message : option string).

(** The answers of the environment during one task. *)
Record Scenario : Type := mkScenario {
  download : DownloadResult;
  initial_send : option string;
  steps : list Step;
  ending : Ending;
  deliverable : string → bool
}.

Definition nl : string := String "010"%char EmptyString.

(** [path.join(path.join(os.tmpdir(), 'feishu-claudecode'), `${imageKey}.png`)]
    on segments that need no normalisation. *)
Definition stagedPath (h : Host) (key : string) : string :=
  tmpdir h +:+ "/feishu-claudecode/" +:+ key +:+ ".png".

(** The synchronous head of [executeQuery]: look the session up, register
    the running task with a new controller, start the timeout timer.
    Returns the controller, the timer handle and the session. *)
Definition registerTask (now : Z) (msg : IncomingMessage) (b : t)
  : t * nat * nat * SessionManager.UserSession :=
  let '(sm, session) :=
    SessionManager.getSession now (userId msg) (sessionManager b) in
  let controller := fresh b in
  let timeoutId := S (fresh b) in
  let b1 := set_fresh (S (S (fresh b))) (set_sessionManager sm b) in
  let b2 := set_runningTasks
              (<[userId msg := mkTask controller now]> (runningTasks b1)) b1 in
  let b3 := set_timers
              (<[timeoutId := mkTimer (now + TASK_TIMEOUT_MS) controller]>
                 (timers b2)) b2 in
  (b3, controller, timeoutId, session).

(** The handling of [imageKey]: the prompt sent to the agent, the staged
    path if any, and the files after the download. *)
Definition stageImage (h : Host) (sc : Scenario) (msg : IncomingMessage) (b : t)
  : t * string * option string :=
  match imageKey msg with
  | Some key =>
      if Js.truthy_string key then
        let imagePath := stagedPath h key in
        match download sc with
        | Downloaded =>
            (set_files ({[imagePath]} ∪ files b) b,
             text msg +:+ nl +:+ nl +:+ "[Image saved at: " +:+ imagePath +:+ "]"
               +:+ nl
               +:+ "Please use the Read tool to read and analyze this image file.",
             Some imagePath)
        | DownloadFailed left_file =>
            ((if left_file then set_files ({[imagePath]} ∪ files b) b else b),
             text msg +:+ nl +:+ nl
               +:+ "(Note: Failed to download the image from Feishu)",
             Some imagePath)
        end
      else (b, text msg, None)
  | None => (b, text msg, None)
  end.

(** [imageKey ? '🖼️ ' + text : text]. *)
Definition displayPrompt (msg : IncomingMessage) : string :=
  if Js.truthy_ostring (imageKey msg) then "🖼️ " +:+ text msg else text msg.

Definition initialState (msg : IncomingMessage) : CardState :=
  {| card_status := thinking; userPrompt := displayPrompt msg;
     responseText := ""; toolCalls := []; costUsd := None;
     durationMs := None; errorMessage := None |}.

(** The state of the drive loop: the bridge, the processor, [lastState],
    the rate limiter (its thunks are the card states to render) and the
    clock value of the last event. *)
Record Loop : Type := mkLoop {
  bridge : t;
  processor : StreamProcessor.t;
  lastState : CardState;
  limiter : RateLimiter.t CardState;
  clock : Z
}.

(** A card state as seen when it is rendered after the processor has moved
    on to [p].  Its [toolCalls] array holds the processor's own [ToolCall]
    objects, the first entries of the processor's array, which only grows;
    their [status] is the current one. *)
Definition aliased (p : StreamProcessor.t) (s : CardState) : CardState :=
  {| card_status := card_status s; userPrompt := userPrompt s;
     responseText := responseText s;
     toolCalls := take (length (toolCalls s)) (StreamProcessor.toolCalls p);
     costUsd := costUsd s; durationMs := durationMs s;
     errorMessage := errorMessage s |}.

(** The thunks the limiter has run are [sender.updateCard] calls; the card
    is built when the thunk runs, the processor being [p]. *)
Definition render (messageId : string) (p : StreamProcessor.t)
    (ran : list (Z * CardState)) (b : t) : t :=
  sendAll ((λ r, UpdateCard messageId (StateCard (aliased p r.2))) <$> ran) b.

(** Time passing up to [now] while the loop is suspended: pending timers
    that are due fire, and so does the window timer of the limiter. *)
Definition tick (now : Z) (messageId : string) (st : Loop) : Loop :=
  let b1 := fire_due now (bridge st) in
  let '(rl, ran) := RateLimiter.advance now (limiter st) in
  {| bridge := render messageId (processor st) ran b1; processor := processor st;
     lastState := lastState st; limiter := rl; clock := now |}.

(** [session.sessionId], read through the reference obtained at admission:
    the object is the entry of the map, which no step of a task removes. *)
Definition current_sessionId (user : string) (b : t) : option string :=
  match SessionManager.sessions (sessionManager b) !! user with
  | Some s => SessionManager.sessionId s
  | None => None
  end.

(** [newSessionId !== session.sessionId], for a string [newSessionId]. *)
Definition sid_differs (new : string) (cur : option string) : bool :=
  match cur with
  | Some c => negb (String.eqb new c)
  | None => true
  end.

Definition is_final (s : CardStatus) : bool :=
  match s with complete | error => true | _ => false end.

(** One iteration of the [for await] body, for an event [m] yielded at
    [now], when the signal is not aborted. *)
Definition consume (user messageId : string) (now : Z) (m : Sdk.SDKMessage)
    (st : Loop) : Loop :=
  let '(p, state) := StreamProcessor.processMessage m (processor st) in
  let b := bridge st in
  let b1 :=
    match StreamProcessor.getSessionId p with
    | Some new =>
        if Js.truthy_string new && sid_differs new (current_sessionId user b)
        then set_sessionManager
               (SessionManager.setSessionId now user new (sessionManager b)) b
        else b
    | None => b
    end in
  if is_final (card_status state) then
    {| bridge := b1; processor := p; lastState := state;
       limiter := limiter st; clock := now |}
  else
    let '(rl, ran) := RateLimiter.schedule now state (limiter st) in
    {| bridge := render messageId p ran b1; processor := p; lastState := state;
       limiter := rl; clock := now |}.

(** The part of [consume] that updates the session: the bridge after the
    session identifier of the processor [p] has been looked at. *)
Definition store_sid (user : string) (now : Z) (p : StreamProcessor.t) (b : t) : t :=
  match StreamProcessor.getSessionId p with
  | Some new =>
      if Js.truthy_string new && sid_differs new (current_sessionId user b)
      then set_sessionManager
             (SessionManager.setSessionId now user new (sessionManager b)) b
      else b
  | None => b
  end.

(** The [for await] loop.  The boolean tells whether the loop was left by
    [break], the abort signal being set when an event arrived. *)
Fixpoint drive (h : Host) (user messageId : string) (controller : nat)
    (ss : list Step) (st : Loop) : Loop * bool :=
  match ss with
  | [] => (st, false)
  | Yield now m :: rest =>
      let st1 := tick now messageId st in
      if is_aborted controller (bridge st1) then (st1, true)
      else drive h user messageId controller rest (consume user messageId now m st1)
  | Command now msg :: rest =>
      let st1 := tick now messageId st in
      let st2 :=
        {| bridge := handleCommand now h msg (bridge st1);
           processor := processor st1; lastState := lastState st1;
           limiter := limiter st1; clock := now |} in
      drive h user messageId controller rest st2
  end.

(** How the loop is left. *)
Inductive Outcome : Type :=
  | Finished
  | Raised (message : option string).

(** The end of the stream as the loop sees it.  [ClaudeExecutor.execute]
    swallows an error named [AbortError], and any error once the signal is
    aborted; it rethrows the others. *)
Definition finish (messageId : string) (controller : nat) (e : Ending)
    (st : Loop) : Loop * Outcome :=
  match e with
  | Ends now => (tick now messageId st, Finished)
  | Throws now name message =>
      let st1 := tick now messageId st in
      if String.eqb name "AbortError" || is_aborted controller (bridge st1)
      then (st1, Finished)
      else (st1, Raised message)
  end.

(** [sendOutputImages(chatId, processor, state)]. *)
Definition sendOutputImages (sc : Scenario) (chat : string)
    (p : StreamProcessor.t) (state : CardState) (b : t) : t :=
  let fromTools := StreamProcessor.getImagePaths p in
  let all :=
    if Js.truthy_string (responseText state)
    then foldl (λ acc x, StreamProcessor.set_add x acc) fromTools
           (StreamProcessor.extractImagePaths (responseText state))
    else fromTools in
  sendAll (SendImageFile chat <$> filter (λ x, deliverable sc x = true) all) b.

(** [await rateLimiter.flush()] followed by the final [updateCard]. *)
Definition finalRender (messageId : string) (state : CardState) (st : Loop) : t :=
  let '(_, ran) := RateLimiter.flush (clock st) (limiter st) in
  send (UpdateCard messageId (StateCard state))
    (render messageId (processor st) ran (bridge st)).

(** The [finally] block. *)
Definition cleanup (user : string) (timeoutId : nat) (imagePath : option string)
    (b : t) : t :=
  let b1 := clearTimeout timeoutId b in
  let b2 := set_runningTasks (delete user (runningTasks b1)) b1 in
  match imagePath with
  | Some path =>
      if Js.truthy_string path then set_files (files b2 ∖ {[path]}) b2 else b2
  | None => b2
  end.

(** [executeQuery(msg)], started at clock value [now].  The awaits that
    precede the stream (image download, first card) are taken to return at
    [now]. *)
Definition executeQuery (now : Z) (h : Host) (sc : Scenario)
    (msg : IncomingMessage) (b : t) : t :=
  let '(b1, controller, timeoutId, session) := registerTask now msg b in
  let cwd := default "" (SessionManager.workingDirectory session) in
  let '(b2, prompt, imagePath) := stageImage h sc msg b1 in
  let b3 := send (SendCard (chatId msg) (StateCard (initialState msg))) b2 in
  match initial_send sc with
  | Some mid =>
      if Js.truthy_string mid then
        let st0 :=
          {| bridge :=
               send (Execute prompt cwd (SessionManager.sessionId session)
                       controller) b3;
             processor := StreamProcessor.create (displayPrompt msg);
             lastState := initialState msg;
             limiter := RateLimiter.create 1500;
             clock := now |} in
        let '(st1, broke) := drive h (userId msg) mid controller (steps sc) st0 in
        let '(st2, outcome) :=
          if broke then (st1, Finished)
          else finish mid controller (ending sc) st1 in
        let b4 :=
          match outcome with
          | Finished =>
              sendOutputImages sc (chatId msg) (processor st2) (lastState st2)
                (finalRender mid (lastState st2) st2)
          | Raised message =>
              let errorState :=
                {| card_status := error;
                   userPrompt := displayPrompt msg;
                   responseText := responseText (lastState st2);
                   toolCalls := toolCalls (lastState st2);
                   costUsd := None; durationMs := None;
                   errorMessage := Some (Js.or_string message "Unknown error") |} in
              finalRender mid errorState st2
          end in
        cleanup (userId msg) timeoutId imagePath b4
      else clearTimeout timeoutId
             (set_runningTasks (delete (userId msg) (runningTasks b3)) b3)
  | None =>
      clearTimeout timeoutId
        (set_runningTasks (delete (userId msg) (runningTasks b3)) b3)
  end.

(** [handleMessage(msg)], received at clock value [now]. *)
Definition handleMessage (now : Z) (h : Host) (sc : Scenario)
    (msg : IncomingMessage) (b : t) : t :=
  if Js.starts_with_char "/"%char (text msg) then handleCommand now h msg b
  else
    let '(sm, hasWd) :=
      SessionManager.hasWorkingDirectory now (userId msg) (sessionManager b) in
    let b1 := set_sessionManager sm b in
    if negb hasWd then
      send (SendCard (chatId msg)
              (TextCard "⚠️ Working Directory Not Set"
                 ("Please set a working directory first:" +:+ nl
                    +:+ "`/cd /path/to/your/project`") "orange")) b1
    else if bool_decide (is_Some (runningTasks b1 !! userId msg)) then
      send (SendCard (chatId msg)
              (TextCard "⏳ Task In Progress"
                 "You have a running task. Use `/stop` to abort it, or wait for it to finish."
                 "orange")) b1
    else executeQuery now h sc msg b1.


(** [destroy()]: every running task is aborted and the map is cleared; the
    timeout timers are not touched.  ([sessionManager.destroy()] stops the
    hourly sweep, which the environment runs here.) *)
Definition destroy (b : t) : t :=
  set_runningTasks ∅
    (set_aborted
       (list_to_set (abortController <$> (snd <$> map_to_list (runningTasks b)))
          ∪ aborted b) b).

(** The calls a task makes between the opening of its stream and its final
    card: updates of its own card, and the cards that answer commands. *)
Definition in_progress (messageId : string) (o : Outgoing) : Prop :=
  match o with
  | UpdateCard m _ => m = messageId
  | SendCard _ _ => True
  | _ => False
  end.

(** The bridge [b'] holds for user [u] what [b] holds: the same running
    task or none, and the same session or none. *)
Definition same_for (u : string) (b b' : t) : Prop :=
  runningTasks b' !! u = runningTasks b !! u
  ∧ SessionManager.sessions (sessionManager b') !! u
    = SessionManager.sessions (sessionManager b) !! u.

End MessageBridge.

(** ** AsyncQueue (src/utils/async-queue.ts) *)

Module AsyncQueue.

Section Queue.
Context {T : Type}.

(** The fields of the class; [resolve] tells whether a consumer is
    suspended on the promise of the iterator. *)
Record t : Type := mk {
  queue : list T;
  resolve : bool;
  finished : bool
}.

Definition create : t := {| queue := []; resolve := false; finished := false |}.

(** [enqueue(item)]. *)
Definition enqueue (item : T) (q : t) : t :=
  if finished q then q
  else {| queue := queue q ++ [item]; resolve := false; finished := finished q |}.

(** [finish()]. *)
Definition finish (q : t) : t :=
  {| queue := queue q; resolve := false; finished := true |}.

(** What a request for the next element of the iterator meets. *)
Inductive Step : Type :=
  | Item (x : T)
  | Done
  | Wait.

(** The body of the iterator up to its next suspension: it yields the head
    of the buffer, or returns when the queue is finished, or suspends on a
    new promise. *)
Definition next (q : t) : Step * t :=
  match queue q with
  | x :: rest =>
      (Item x, {| queue := rest; resolve := resolve q; finished := finished q |})
  | [] =>
      if finished q then (Done, q)
      else (Wait, {| queue := []; resolve := true; finished := false |})
  end.

(** What producers and the consumer do, in the order in which it happens. *)
Inductive action : Type :=
  | Enqueue (x : T)
  | Finish
  | Next.

(** The queue after a sequence of actions, with the elements the consumer
    has received, in order. *)
Fixpoint run (acts : list action) (q : t) : t * list T :=
  match acts with
  | [] => (q, [])
  | Enqueue x :: acts' => run acts' (enqueue x q)
  | Finish :: acts' => run acts' (finish q)
  | Next :: acts' =>
      match next q with
      | (Item x, q1) => let '(q2, got) := run acts' q1 in (q2, x :: got)
      | (_, q1) => run acts' q1
      end
  end.

(** The elements offered before the first [Finish]. *)
Fixpoint accepted (acts : list action) : list T :=
  match acts with
  | [] => []
  | Enqueue x :: acts' => x :: accepted acts'
  | Finish :: _ => []
  | Next :: acts' => accepted acts'
  end.

(** The elements offered from a state on: none once the queue is
    finished. *)
Definition offered (acts : list action) (q : t) : list T :=
  if finished q then [] else accepted acts.

(** [n] requests in a row: the steps met. *)
Fixpoint pull (n : nat) (q : t) : list Step * t :=
  match n with
  | O => ([], q)
  | S n' =>
      let '(s, q1) := next q in
      let '(ss, q2) := pull n' q1 in (s :: ss, q2)
  end.

End Queue.

Arguments t : clear implicits.
Arguments Step : clear implicits.
Arguments action : clear implicits.

End AsyncQueue.

(** ** Configuration (src/config.ts) *)

Module Config.

Record Config : Type := mkConfig {
  feishu_appId : string;
  feishu_appSecret : string;
  auth_authorizedUserIds : list string;
  auth_authorizedChatIds : list string;
  claude_defaultWorkingDirectory : option string;
  claude_allowedTools : list string;
  claude_maxTurns : option Z;
  claude_maxBudgetUsd : CardBuilder.number;
  claude_model : option string;
  log_level : string
}.

(** [process.env]. *)
Abbreviation Env := (gmap string string).

(** [required(name)]: the value, or the message of the error thrown. *)
Definition required (name : string) (env : Env) : string + string :=
  match env !! name with
  | Some value =>
      if Js.truthy_string value then inr value
      else inl ("Missing required environment variable: " +:+ name)
  | None => inl ("Missing required environment variable: " +:+ name)
  end.

(** [commaSplit(value)]. *)
Definition commaSplit (value : option string) : list string :=
  match value with
  | Some v =>
      if negb (Js.truthy_string v) || String.eqb (Js.trim v) "" then []
      else List.filter Js.truthy_string (Js.trim <$> Js.split_on ","%char v)
  | None => []
  end.

(** An entry as one writes it in a comma-separated list: not empty,
    without comma, without white space at its ends. *)
Definition entry (e : string) : Prop :=
  e ≠ ""
  ∧ (","%char ∉ String.list_ascii_of_string e)
  ∧ (∀ c, head (String.list_ascii_of_string e) = Some c → Js.is_space c = false)
  ∧ (∀ c, list.last (String.list_ascii_of_string e) = Some c → Js.is_space c = false).

(** A string of white space only, the empty string included. *)
Definition blank (s : string) : Prop :=
  Forall (λ c, Js.is_space c = true) (String.list_ascii_of_string s).

(** [process.env[name] || undefined]. *)
Definition env_or_undefined (name : string) (env : Env) : option string :=
  match env !! name with
  | Some v => if Js.truthy_string v then Some v else None
  | None => None
  end.

Section Load.

(** [parseFloat], whose result is a floating-point number. *)
Variable parseFloat : string → CardBuilder.number.

(** [loadConfig()]: the configuration, or the message of the error thrown
    by [required]. *)
Definition loadConfig (env : Env) : string + Config :=
  match required "FEISHU_APP_ID" env with
  | inl e => inl e
  | inr appId =>
      match required "FEISHU_APP_SECRET" env with
      | inl e => inl e
      | inr appSecret =>
          inr {| feishu_appId := appId;
                 feishu_appSecret := appSecret;
                 auth_authorizedUserIds := commaSplit (env !! "AUTHORIZED_USER_IDS");
                 auth_authorizedChatIds := commaSplit (env !! "AUTHORIZED_CHAT_IDS");
                 claude_defaultWorkingDirectory :=
                   env_or_undefined "CLAUDE_DEFAULT_WORKING_DIRECTORY" env;
                 claude_allowedTools :=
                   Js.or_array (commaSplit (env !! "CLAUDE_ALLOWED_TOOLS"))
                     ["Read"; "Edit"; "Write"; "Glob"; "Grep"; "Bash"];
                 claude_maxTurns :=
                   Js.parseInt10 (Js.or_string (env !! "CLAUDE_MAX_TURNS") "50");
                 claude_maxBudgetUsd :=
                   parseFloat (Js.or_string (env !! "CLAUDE_MAX_BUDGET_USD") "1.0");
                 claude_model := env_or_undefined "CLAUDE_MODEL" env;
                 log_level := Js.or_string (env !! "LOG_LEVEL") "info" |}
      end
  end.

End Load.

End Config.

(** ** Bot configuration file (src/api/bots-config.ts) *)

Module BotsConfig.

(** An entry of [feishuBots] or [telegramBots]: its [name] and the rest of
    the object. *)
Record BotEntry : Type := mkBot {
  name : string;
  settings : Js.jsval
}.

(** [BotsJsonNewFormat]. *)
Record BotsJson : Type := mkBots {
  feishuBots : option (list BotEntry);
  telegramBots : option (list BotEntry)
}.

(** What [JSON.parse] finds in the file: the old array format or the new
    object format. *)
Inductive Parsed : Type :=
  | OldArray (bots : list BotEntry)
  | NewFormat (config : BotsJson).

Inductive Platform : Type := feishu | telegram.

(** [readBotsConfig(configPath)], on the parsed content of the file. *)
Definition readBotsConfig (file : Parsed) : BotsJson :=
  match file with
  | OldArray bots => {| feishuBots := Some bots; telegramBots := None |}
  | NewFormat config => config
  end.

(** [writeBotsConfig(configPath, config)]: the content of the file after
    the temporary file has been renamed over it. *)
Definition writeBotsConfig (config : BotsJson) : Parsed := NewFormat config.

(** [config.feishuBots || []]. *)
Definition bots (l : option (list BotEntry)) : list BotEntry := default [] l.

(** The names of the bots of both platforms, feishu first. *)
Definition allNames (config : BotsJson) : list string :=
  (name <$> bots (feishuBots config)) ++ (name <$> bots (telegramBots config)).

(** [addBot(configPath, platform, entry)]: the new content of the file, or
    the message of the error thrown. *)
Definition addBot (platform : Platform) (entry : BotEntry) (file : Parsed)
  : string + Parsed :=
  let config := readBotsConfig file in
  if existsb (String.eqb (name entry)) (allNames config) then
    inl ("Bot with name " +:+ String (ascii_of_nat 34) (name entry)
           +:+ String (ascii_of_nat 34) " already exists")
  else
    match platform with
    | feishu =>
        inr (writeBotsConfig
               {| feishuBots := Some (bots (feishuBots config) ++ [entry]);
                  telegramBots := telegramBots config |})
    | telegram =>
        inr (writeBotsConfig
               {| feishuBots := feishuBots config;
                  telegramBots := Some (bots (telegramBots config) ++ [entry]) |})
    end.

(** [l.findIndex(b => b.name === nm)], [None] standing for -1. *)
Fixpoint findIndex (nm : string) (l : list BotEntry) : option nat :=
  match l with
  | [] => None
  | b :: l' => if String.eqb (name b) nm then Some 0%nat else S <$> findIndex nm l'
  end.

(** What [removeBot] does: it throws, or it returns a boolean, the file
    being rewritten when the boolean is [true]. *)
Inductive Removal : Type :=
  | Thrown (message : string)
  | Removed (file : Parsed)
  | NotFound.

(** [removeBot(configPath, name)]. *)
Definition removeBot (nm : string) (file : Parsed) : Removal :=
  let config := readBotsConfig file in
  let totalBots :=
    (length (bots (feishuBots config)) + length (bots (telegramBots config)))%nat in
  let inTelegram :=
    match telegramBots config with
    | Some l =>
        match findIndex nm l with
        | Some idx =>
            if (totalBots <=? 1)%nat then Thrown "Cannot remove the last bot"
            else Removed (writeBotsConfig
                            {| feishuBots := feishuBots config;
                               telegramBots := Some (delete idx l) |})
        | None => NotFound
        end
    | None => NotFound
    end in
  match feishuBots config with
  | Some l =>
      match findIndex nm l with
      | Some idx =>
          if (totalBots <=? 1)%nat then Thrown "Cannot remove the last bot"
          else Removed (writeBotsConfig
                          {| feishuBots := Some (delete idx l);
                             telegramBots := telegramBots config |})
      | None => inTelegram
      end
  | None => inTelegram
  end.

(** [l.find(b => b.name === nm)]. *)
Definition findByName (nm : string) (l : option (list BotEntry)) : option BotEntry :=
  match l with
  | Some l => List.find (λ b, String.eqb (name b) nm) l
  | None => None
  end.

(** [getBotEntry(configPath, name)]. *)
Definition getBotEntry (nm : string) (file : Parsed) : option (Platform * BotEntry) :=
  let config := readBotsConfig file in
  match findByName nm (feishuBots config) with
  | Some b => Some (feishu, b)
  | None =>
      match findByName nm (telegramBots config) with
      | Some b => Some (telegram, b)
      | None => None
      end
  end.

(** The number of bots of both platforms in a file, and their names. *)
Definition total (file : Parsed) : nat :=
  (length (bots (feishuBots (readBotsConfig file)))
   + length (bots (telegramBots (readBotsConfig file))))%nat.

Definition names (file : Parsed) : list string := allNames (readBotsConfig file).

(** What is true of a file [file'] written by a successful
    [removeBot nm] on [file]. *)
Definition removed_from (nm : string) (file file' : Parsed) : Prop :=
  is_Some (getBotEntry nm file)
  ∧ total file' = (total file - 1)%nat
  ∧ (1 ≤ total file')%nat
  ∧ (∀ nm', nm' ≠ nm → getBotEntry nm' file' = getBotEntry nm' file)
  ∧ (NoDup (names file) → getBotEntry nm file' = None).

End BotsConfig.

(** ** Card content (src/feishu/card-builder.ts, [truncateContent]) *)

Module CardContent.

(** [const MAX_CONTENT_LENGTH = 28000]. *)
Definition MAX_CONTENT_LENGTH : N := 28000.

(** [Math.floor(MAX_CONTENT_LENGTH / 2) - 50]. *)
Definition half : N := (MAX_CONTENT_LENGTH / 2 - 50)%N.

Definition TRUNCATED_MARK : string :=
  String "010"%char (String "010"%char
    ("... (content truncated) ..." +:+ String "010"%char (String "010"%char EmptyString))).

(** [truncateContent(text)]. *)
Definition truncateContent (text : string) : string :=
  if (N.of_nat (String.length text) <=? MAX_CONTENT_LENGTH)%N then text
  else Js.slice0 (N.to_nat half) text +:+ TRUNCATED_MARK
         +:+ Js.slice_last (N.to_nat half) text.

End CardContent.

(** ** Concrete events and messages used in the examples *)

Module Examples.
Import Sdk.

(** The helper [msg] of tests/stream-processor.test.ts:
    [{ type: 'system', session_id: 'sess-1', ...overrides }]. *)
Definition base : SDKMessage :=
  {| type := "system"; subtype := None; session_id := Some "sess-1";
     message := None; duration_ms := None; total_cost_usd := None;
     result := None; errors := None; event := None;
     parent_tool_use_id := ParentUndefined |}.

(** An [assistant] event with the given parent marker and content. *)
Definition assistant (parent : Parent) (blocks : list ContentBlock) : SDKMessage :=
  {| type := "assistant"; subtype := None; session_id := Some "sess-1";
     message := Some (Some blocks); duration_ms := None;
     total_cost_usd := None; result := None; errors := None; event := None;
     parent_tool_use_id := parent |}.

Definition text_block (txt : string) : ContentBlock :=
  mkBlock "text" (Some txt) None None Js.JUndefined.

Definition tool_use (id nm : string) (input : Js.jsval) : ContentBlock :=
  mkBlock "tool_use" None (Some nm) (Some id) input.

Definition tool_result : ContentBlock :=
  mkBlock "tool_result" None None None Js.JUndefined.

(** A [stream_event] carrying a text delta. *)
Definition text_delta (parent : Parent) (txt : string) : SDKMessage :=
  {| type := "stream_event"; subtype := None; session_id := Some "sess-1";
     message := None; duration_ms := None; total_cost_usd := None;
     result := None; errors := None;
     event := Some (mkEvent "content_block_delta"
                      (Some (mkDelta "text_delta" (Some txt))) None);
     parent_tool_use_id := parent |}.

(** A [stream_event] that starts a content block. *)
Definition block_start (parent : Parent) (ty : string) (nm : option string) : SDKMessage :=
  {| type := "stream_event"; subtype := None; session_id := Some "sess-1";
     message := None; duration_ms := None; total_cost_usd := None;
     result := None; errors := None;
     event := Some (mkEvent "content_block_start" None
                      (Some (mkStartBlock ty None nm None)));
     parent_tool_use_id := parent |}.

(** A [result] event. *)
Definition result_event (sub : option string) (res : option string)
    (errs : option (list string)) : SDKMessage :=
  {| type := "result"; subtype := sub; session_id := Some "sess-1";
     message := None; duration_ms := None; total_cost_usd := None;
     result := res; errors := errs; event := None;
     parent_tool_use_id := ParentUndefined |}.

(** The input of the test "detects AskUserQuestion and sets
    waiting_for_input" of tests/stream-processor.test.ts. *)
Definition ask_input : Js.jsval :=
  Js.JObj
    [("questions",
      Js.JArr
        [Js.JObj
           [("question", Js.JStr "Which option?");
            ("header", Js.JStr "Choice");
            ("options",
             Js.JArr
               [Js.JObj [("label", Js.JStr "A"); ("description", Js.JStr "Option A")];
                Js.JObj [("label", Js.JStr "B"); ("description", Js.JStr "Option B")]]);
            ("multiSelect", Js.JBool false)]])].

Definition ask_event : SDKMessage :=
  assistant ParentNull [tool_use "tool-q1" "AskUserQuestion" ask_input].

(** A host whose paths are already resolved and all name directories. *)
Definition host : MessageBridge.Host :=
  MessageBridge.mkHost "/home/bot" (λ path, path)
    (λ _, MessageBridge.IsDirectory) "/tmp".

(** A text message of user [u] in chat [c]. *)
Definition incoming (txt : string) (image : option string) : MessageBridge.IncomingMessage :=
  MessageBridge.mkIncoming "u" "c" txt image "om_in".

(** An environment in which the first card cannot be sent. *)
Definition send_fails : MessageBridge.Scenario :=
  MessageBridge.mkScenario MessageBridge.Downloaded None []
    (MessageBridge.Ends 0) (λ _, false).

(** An agent that streams two deltas, the second one ten minutes after
    admission, and then ends. *)
Definition slow_agent : MessageBridge.Scenario :=
  MessageBridge.mkScenario MessageBridge.Downloaded (Some "om_card")
    [MessageBridge.Yield 1000 (text_delta ParentNull "Hi");
     MessageBridge.Yield 600000 (text_delta ParentNull " there")]
    (MessageBridge.Ends 600001) (λ _, false).

(** A bridge whose default working directory is [/w]. *)
Definition bridge0 : MessageBridge.t := MessageBridge.create (Some "/w").

(** An agent whose stream raises an error after one delta. *)
Definition failing_agent : MessageBridge.Scenario :=
  MessageBridge.mkScenario MessageBridge.Downloaded (Some "om_card")
    [MessageBridge.Yield 1000 (text_delta ParentNull "Hi")]
    (MessageBridge.Throws 2000 "Error" (Some "boom")) (λ _, false).

(** The loop of a task of user [u] admitted at clock value 0, before the
    first event. *)
Definition loop0 : MessageBridge.Loop :=
  MessageBridge.mkLoop
    (MessageBridge.registerTask 0 (incoming "hi" None) bridge0).1.1.1
    (StreamProcessor.create "hi")
    (MessageBridge.initialState (incoming "hi" None))
    (RateLimiter.create 1500) 0.

End Examples.

(** * Properties *)

(** ** The cases of the repository's test-suites, replayed on the model *)

Module TestSuite.
Import CardBuilder Sdk StreamProcessor.

(** tests/stream-processor.test.ts: starts in thinking status. *)
Example starts_in_thinking_status :
  (processMessage Examples.base (create "hello")).2
    = mkCardState thinking "hello" "" [] None None None.
Proof. reflexivity. Qed.

(** captures session_id from first message. *)
Example captures_session_id :
  getSessionId
    (processMessage
       {| type := "system"; subtype := None; session_id := Some "abc-123";
          message := None; duration_ms := None; total_cost_usd := None;
          result := None; errors := None; event := None;
          parent_tool_use_id := ParentUndefined |} (create "hi")).1
    = Some "abc-123".
Proof. reflexivity. Qed.

(** accumulates text from stream_event deltas. *)
Example accumulates_text_from_deltas :
  let s := list.last (run (create "hi")
                        [Examples.block_start ParentNull "text" None;
                         Examples.text_delta ParentNull "Hello world"]).2 in
  CardBuilder.responseText <$> s = Some "Hello world"
  ∧ card_status <$> s = Some running.
Proof. split; reflexivity. Qed.

(** tracks tool calls from stream events. *)
Example tracks_tool_calls_from_stream_events :
  (processMessage (Examples.block_start ParentNull "tool_use" (Some "Read"))
     (create "hi")).2
    = mkCardState running "hi" "" [mkToolCall "Read" "" tool_running]
        None None None.
Proof. reflexivity. Qed.

(** ignores subagent stream events. *)
Example ignores_subagent_stream_events :
  CardBuilder.responseText
    (processMessage (Examples.text_delta (ParentId "tool-123") "subagent text")
       (create "hi")).2 = "".
Proof. reflexivity. Qed.

(** processes result message as complete. *)
Example processes_result_as_complete :
  (processMessage
     {| type := "result"; subtype := Some "success"; session_id := Some "sess-1";
        message := None; duration_ms := Some (QArith_base.Qmake 1200 1);
        total_cost_usd := Some (QArith_base.Qmake 5 100);
        result := Some "Done!"; errors := None; event := None;
        parent_tool_use_id := ParentUndefined |} (create "hi")).2
    = mkCardState complete "hi" "Done!" []
        (Some (QArith_base.Qmake 5 100)) (Some (QArith_base.Qmake 1200 1)) None.
Proof. reflexivity. Qed.

(** processes error result message. *)
Example processes_error_result :
  let s := (processMessage
              (Examples.result_event (Some "error") (Some "")
                 (Some ["Something failed"; "Another error"])) (create "hi")).2 in
  card_status s = error
  ∧ errorMessage s = Some "Something failed; Another error".
Proof. split; reflexivity. Qed.

(** tracks Write tool image paths; does not track non-image Write paths. *)
Example tracks_write_image_paths :
  getImagePaths
    (processMessage
       (Examples.assistant ParentNull
          [mkBlock "tool_use" None (Some "Write") None
             (Js.JObj [("file_path", Js.JStr "/tmp/output.png")])])
       (create "hi")).1 = ["/tmp/output.png"]
  ∧ getImagePaths
      (processMessage
         (Examples.assistant ParentNull
            [mkBlock "tool_use" None (Some "Write") None
               (Js.JObj [("file_path", Js.JStr "/tmp/output.txt")])])
         (create "hi")).1 = [].
Proof. split; reflexivity. Qed.

(** marks all tools as done on result. *)
Example marks_all_tools_done_on_result :
  CardBuilder.toolCalls <$>
    list.last (run (create "hi")
                 [Examples.block_start ParentNull "tool_use" (Some "Bash");
                  Examples.result_event (Some "success") (Some "ok") None]).2
    = Some [mkToolCall "Bash" "" tool_done].
Proof. reflexivity. Qed.

(** extractImagePaths: extracts, returns empty, deduplicates. *)
Example extracts_image_paths :
  extractImagePaths "Created file at /tmp/img/chart.png and /home/user/photo.jpg"
    = ["/tmp/img/chart.png"; "/home/user/photo.jpg"]
  ∧ extractImagePaths "no images here" = []
  ∧ extractImagePaths "/tmp/a.png and /tmp/a.png again" = ["/tmp/a.png"].
Proof. repeat split; reflexivity. Qed.

(** The part of the rate limiter's test-suite that runs on a fake clock:
    first call immediate; second call delayed to the end of the interval;
    cancel discards the pending call; a call after the interval runs. *)
Example limiter_first_call_immediate :
  (RateLimiter.schedule 0 "fn" (RateLimiter.create 1000)).2 = [(0, "fn")].
Proof. reflexivity. Qed.

Example limiter_delays_second_call :
  (RateLimiter.run [RateLimiter.Schedule 0 "fn1"; RateLimiter.Schedule 0 "fn2"]
     (RateLimiter.create 1000)).2 = [(0, "fn1")]
  ∧ (RateLimiter.run
       [RateLimiter.Schedule 0 "fn1"; RateLimiter.Schedule 0 "fn2";
        RateLimiter.Advance 1000] (RateLimiter.create 1000)).2
    = [(0, "fn1"); (1000, "fn2")].
Proof. split; reflexivity. Qed.

Example limiter_flush_runs_pending :
  (RateLimiter.run
     [RateLimiter.Schedule 0 "fn1"; RateLimiter.Schedule 0 "fn2";
      RateLimiter.Flush 1] (RateLimiter.create 5000)).2
    = [(0, "fn1"); (1, "fn2")].
Proof. reflexivity. Qed.

Example limiter_cancel_discards_pending :
  (RateLimiter.run
     [RateLimiter.Schedule 0 "fn1"; RateLimiter.Schedule 0 "fn2";
      RateLimiter.Cancel 0; RateLimiter.Advance 2000] (RateLimiter.create 1000)).2
    = [(0, "fn1")].
Proof. reflexivity. Qed.

Example limiter_call_after_interval :
  (RateLimiter.run
     [RateLimiter.Schedule 0 "fn1"; RateLimiter.Advance 1000;
      RateLimiter.Schedule 1000 "fn2"] (RateLimiter.create 1000)).2
    = [(0, "fn1"); (1000, "fn2")].
Proof. reflexivity. Qed.

End TestSuite.

(** ** SessionManager *)

Module SessionManagerFacts.
Import SessionManager.

Lemma getSession_lookup now k sm :
  sessions (getSession now k sm).1 !! k = Some (getSession now k sm).2.
Proof. unfold getSession; simpl. by rewrite lookup_insert_eq. Qed.

Lemma getSession_other now k k' sm :
  k ≠ k' → sessions (getSession now k sm).1 !! k' = sessions sm !! k'.
Proof. intros Hne. unfold getSession; simpl. by rewrite lookup_insert_ne. Qed.

Lemma getSession_absent now k sm :
  sessions sm !! k = None →
  (getSession now k sm).2 = mkUserSession None (defaultWorkingDirectory sm) now.
Proof. intros H. unfold getSession; simpl. by rewrite H. Qed.

Lemma getSession_present now k sm s :
  sessions sm !! k = Some s →
  (getSession now k sm).2 = mkUserSession (sessionId s) (workingDirectory s) now.
Proof. intros H. unfold getSession; simpl. by rewrite H. Qed.

Lemma setWorkingDirectory_lookup now k p sm :
  sessions (setWorkingDirectory now k p sm) !! k =
    Some (mkUserSession
            (if wd_differs (workingDirectory (getSession now k sm).2) p
                && Js.truthy_ostring (sessionId (getSession now k sm).2)
             then None else sessionId (getSession now k sm).2)
            (Some p) now).
Proof.
  unfold setWorkingDirectory.
  destruct (getSession now k sm) as [sm1 session] eqn:E; simpl.
  rewrite lookup_insert_eq. f_equal. f_equal.
  unfold getSession in E. by inversion E.
Qed.

Lemma setWorkingDirectory_other now k k' p sm :
  k ≠ k' → sessions (setWorkingDirectory now k p sm) !! k' = sessions sm !! k'.
Proof.
  intros Hne. unfold setWorkingDirectory.
  pose proof (getSession_other now k k' sm Hne) as Ho.
  destruct (getSession now k sm) as [sm1 session]; simpl in *.
  by rewrite lookup_insert_ne.
Qed.

Lemma setSessionId_lookup now k sid sm :
  sessions (setSessionId now k sid sm) !! k =
    Some (mkUserSession (Some sid) (workingDirectory (getSession now k sm).2) now).
Proof.
  unfold setSessionId.
  destruct (getSession now k sm) as [sm1 session] eqn:E; simpl.
  rewrite lookup_insert_eq. f_equal. f_equal.
  unfold getSession in E. by inversion E.
Qed.

Lemma setSessionId_other now k k' sid sm :
  k ≠ k' → sessions (setSessionId now k sid sm) !! k' = sessions sm !! k'.
Proof.
  intros Hne. unfold setSessionId.
  pose proof (getSession_other now k k' sm Hne) as Ho.
  destruct (getSession now k sm) as [sm1 session]; simpl in *.
  by rewrite lookup_insert_ne.
Qed.

Lemma wd_differs_false wd p : wd_differs wd p = false ↔ wd = Some p.
Proof.
  destruct wd as [d|]; simpl; [|split; discriminate].
  rewrite negb_false_iff, String.eqb_eq. split; congruence.
Qed.

Lemma wd_differs_true wd p : wd_differs wd p = true ↔ wd ≠ Some p.
Proof.
  rewrite <- wd_differs_false. destruct (wd_differs wd p); split; congruence.
Qed.

(** An entry stamped at [stamp] survives every sweep run no later than
    [SESSION_TTL_MS] after the stamp. *)
Lemma cleanupExpired_keeps t k s sm :
  sessions sm !! k = Some s →
  t - lastUsed s ≤ SESSION_TTL_MS →
  sessions (cleanupExpired t sm) !! k = Some s.
Proof.
  intros Hk Hle. unfold cleanupExpired; simpl.
  apply map_lookup_filter_Some. split; [done|]. simpl.
  unfold expired. apply Z.ltb_ge. lia.
Qed.

Lemma cleanupExpired_evicts t k s sm :
  sessions sm !! k = Some s →
  SESSION_TTL_MS < t - lastUsed s →
  sessions (cleanupExpired t sm) !! k = None.
Proof.
  intros Hk Hlt. unfold cleanupExpired; simpl.
  apply map_lookup_filter_None. right. intros s' Hs'. simpl.
  rewrite Hk in Hs'. inversion Hs'; subst s'.
  unfold expired. intros Hf. apply Z.ltb_ge in Hf. lia.
Qed.

(** C8. [setWorkingDirectory k p]: a session handle that exists is cleared
    when [p] differs from the stored working directory and is kept when [p]
    equals it; the stored working directory becomes [p] in every case; the
    context of every other key, and the default directory, are untouched. *)
Theorem setWorkingDirectory_spec (now : Z) (k p : string) (sm : t) :
  let sm' := setWorkingDirectory now k p sm in
  (∀ s, sessions sm !! k = Some s →
        Js.truthy_ostring (sessionId s) = true →
        workingDirectory s ≠ Some p →
        sessionId <$> sessions sm' !! k = Some None)
  ∧ (∀ s, sessions sm !! k = Some s →
          workingDirectory s = Some p →
          sessionId <$> sessions sm' !! k = Some (sessionId s))
  ∧ workingDirectory <$> sessions sm' !! k = Some (Some p)
  ∧ (∀ k', k' ≠ k → sessions sm' !! k' = sessions sm !! k')
  ∧ defaultWorkingDirectory sm' = defaultWorkingDirectory sm.
Proof.
  intros sm'. subst sm'. split; [|split; [|split; [|split]]].
  - intros s Hs Htr Hne.
    rewrite setWorkingDirectory_lookup, (getSession_present _ _ _ _ Hs); simpl.
    apply wd_differs_true in Hne. by rewrite Hne, Htr.
  - intros s Hs Heq.
    rewrite setWorkingDirectory_lookup, (getSession_present _ _ _ _ Hs); simpl.
    apply wd_differs_false in Heq. by rewrite Heq.
  - by rewrite setWorkingDirectory_lookup.
  - intros k' Hne. by apply setWorkingDirectory_other.
  - unfold setWorkingDirectory.
    destruct (getSession now k sm) as [sm1 session] eqn:E; simpl.
    unfold getSession in E. by inversion E.
Qed.

(** A store in which key [u] has directory [/a] and handle [sess-1]. *)
Lemma setWorkingDirectory_spec_witness :
  let sm := setSessionId 5 "u" "sess-1"
              (setWorkingDirectory 1 "u" "/a" (create None)) in
  sessionId <$> sessions (setWorkingDirectory 9 "u" "/b" sm) !! "u" = Some None
  ∧ sessionId <$> sessions (setWorkingDirectory 9 "u" "/a" sm) !! "u"
    = Some (Some "sess-1")
  ∧ sessions (setWorkingDirectory 9 "u" "/b" sm) !! "v" = sessions sm !! "v".
Proof.
  intros sm.
  pose proof (setWorkingDirectory_spec 9 "u" "/b" sm) as (Hclear & _ & _ & Hframe & _).
  pose proof (setWorkingDirectory_spec 9 "u" "/a" sm) as (_ & Hkeep & _).
  split; [|split].
  - apply (Hclear (mkUserSession (Some "sess-1") (Some "/a") 5)).
    + vm_compute. reflexivity.
    + reflexivity.
    + discriminate.
  - apply (Hkeep (mkUserSession (Some "sess-1") (Some "/a") 5)).
    + vm_compute. reflexivity.
    + reflexivity.
  - apply Hframe. discriminate.
Defined.

Lemma hasWorkingDirectory_state now k sm :
  (hasWorkingDirectory now k sm).1 = (getSession now k sm).1.
Proof. reflexivity. Qed.

Lemma resetSession_lookup k sm :
  sessions (resetSession k sm) !! k =
    (λ s, mkUserSession None (workingDirectory s) (lastUsed s)) <$> sessions sm !! k.
Proof.
  unfold resetSession. destruct (sessions sm !! k) as [s|] eqn:E; simpl.
  - by rewrite lookup_insert_eq.
  - by rewrite E.
Qed.

(** [resetSession] on a key that has no entry creates none, and a key whose
    only later access is [resetSession] is swept as if it had not been
    accessed. *)
Lemma resetSession_counterexample :
  sessions (resetSession "u" (create None)) !! "u" = None
  ∧ lastUsed <$> sessions (resetSession "u" (getSession 0 "u" (create None)).1) !! "u"
    = Some 0
  ∧ sessions (cleanupExpired (SESSION_TTL_MS + 1)
                (resetSession "u" (getSession 0 "u" (create None)).1)) !! "u" = None.
Proof.
  split; [|split].
  - reflexivity.
  - rewrite resetSession_lookup, getSession_lookup. reflexivity.
  - eapply cleanupExpired_evicts.
    + rewrite resetSession_lookup, getSession_lookup. reflexivity.
    + simpl. lia.
Qed.

(** C10, amended.  The operations that go through [getSession] --
    [getSession], [hasWorkingDirectory], [setSessionId] and
    [setWorkingDirectory] -- create the entry of an absent key (no handle,
    the default directory, stamp [now], before their own update) and stamp
    the entry of a present key with [now]; the entry then survives every
    sweep run within [SESSION_TTL_MS] of [now].  [resetSession] creates
    nothing and leaves the stamp as it was. *)
Theorem keyed_access_refreshes (now : Z) (k : string) (sm : t) :
  (sessions sm !! k = None →
     sessions (getSession now k sm).1 !! k
       = Some (mkUserSession None (defaultWorkingDirectory sm) now)
     ∧ sessions (hasWorkingDirectory now k sm).1 !! k
       = Some (mkUserSession None (defaultWorkingDirectory sm) now)
     ∧ (∀ sid, sessions (setSessionId now k sid sm) !! k
               = Some (mkUserSession (Some sid) (defaultWorkingDirectory sm) now))
     ∧ (∀ p, sessions (setWorkingDirectory now k p sm) !! k
             = Some (mkUserSession None (Some p) now))
     ∧ sessions (resetSession k sm) !! k = None)
  ∧ (∀ s, sessions sm !! k = Some s →
     sessions (getSession now k sm).1 !! k
       = Some (mkUserSession (sessionId s) (workingDirectory s) now)
     ∧ sessions (hasWorkingDirectory now k sm).1 !! k
       = Some (mkUserSession (sessionId s) (workingDirectory s) now)
     ∧ (∀ sid, lastUsed <$> sessions (setSessionId now k sid sm) !! k = Some now)
     ∧ (∀ p, lastUsed <$> sessions (setWorkingDirectory now k p sm) !! k = Some now)
     ∧ lastUsed <$> sessions (resetSession k sm) !! k = Some (lastUsed s))
  ∧ (∀ t, t - now ≤ SESSION_TTL_MS →
     is_Some (sessions (cleanupExpired t (getSession now k sm).1) !! k)
     ∧ is_Some (sessions (cleanupExpired t (hasWorkingDirectory now k sm).1) !! k)
     ∧ (∀ sid, is_Some (sessions (cleanupExpired t (setSessionId now k sid sm)) !! k))
     ∧ (∀ p, is_Some (sessions (cleanupExpired t (setWorkingDirectory now k p sm)) !! k))).
Proof.
  split; [|split].
  - intros Habs. rewrite hasWorkingDirectory_state, getSession_lookup.
    rewrite (getSession_absent _ _ _ Habs). split; [done|]. split; [done|].
    split; [|split].
    + intros sid. by rewrite setSessionId_lookup, (getSession_absent _ _ _ Habs).
    + intros p. rewrite setWorkingDirectory_lookup, (getSession_absent _ _ _ Habs).
      simpl. by rewrite andb_false_r.
    + by rewrite resetSession_lookup, Habs.
  - intros s Hs. rewrite hasWorkingDirectory_state, getSession_lookup.
    rewrite (getSession_present _ _ _ _ Hs). split; [done|]. split; [done|].
    split; [|split].
    + intros sid. by rewrite setSessionId_lookup.
    + intros p. by rewrite setWorkingDirectory_lookup.
    + by rewrite resetSession_lookup, Hs.
  - intros t Ht. rewrite hasWorkingDirectory_state.
    assert (Hget : is_Some (sessions (cleanupExpired t (getSession now k sm).1) !! k)).
    { eexists. eapply cleanupExpired_keeps; [apply getSession_lookup|].
      unfold getSession; simpl. lia. }
    split; [done|]. split; [done|]. split.
    + intros sid. eexists.
      eapply cleanupExpired_keeps; [apply setSessionId_lookup|]. simpl. lia.
    + intros p. eexists.
      eapply cleanupExpired_keeps; [apply setWorkingDirectory_lookup|]. simpl. lia.
Qed.

(** A new key and a key that has an entry, accessed at clock value 50. *)
Lemma keyed_access_refreshes_witness :
  sessions (hasWorkingDirectory 50 "u" (create (Some "/w"))).1 !! "u"
    = Some (mkUserSession None (Some "/w") 50)
  ∧ sessions (getSession 50 "u" (setSessionId 1 "u" "sess-1" (create None))).1 !! "u"
    = Some (mkUserSession (Some "sess-1") None 50)
  ∧ is_Some (sessions
               (cleanupExpired (50 + SESSION_TTL_MS)
                  (getSession 50 "u" (create None)).1) !! "u").
Proof.
  assert (Habsent : sessions (create (Some "/w")) !! "u" = None)
    by (vm_compute; reflexivity).
  assert (Hpresent : sessions (setSessionId 1 "u" "sess-1" (create None)) !! "u"
                     = Some (mkUserSession (Some "sess-1") None 1))
    by (vm_compute; reflexivity).
  assert (Hin : 50 + SESSION_TTL_MS - 50 ≤ SESSION_TTL_MS) by lia.
  destruct (keyed_access_refreshes 50 "u" (create (Some "/w"))) as (Hnew & _ & _).
  destruct (keyed_access_refreshes 50 "u"
              (setSessionId 1 "u" "sess-1" (create None))) as (_ & Hold & _).
  destruct (keyed_access_refreshes 50 "u" (create None)) as (_ & _ & Hkeep).
  destruct (Hnew Habsent) as (_ & Hhas & _).
  destruct (Hold _ Hpresent) as (Hget & _).
  destruct (Hkeep _ Hin) as (Hsome & _).
  split; [exact Hhas|]. split; [exact Hget|exact Hsome].
Defined.

End SessionManagerFacts.

(** ** StreamProcessor *)

Module StreamProcessorFacts.
Import CardBuilder Sdk StreamProcessor.

Lemma completeCurrentTool_text p :
  responseText (completeCurrentTool p) = responseText p.
Proof.
  unfold completeCurrentTool.
  destruct (currentToolName p) as [nm|]; [|done].
  by destruct (Js.truthy_string nm).
Qed.

Lemma addToolCall_text nm input p :
  responseText (addToolCall nm input p) = responseText p.
Proof. unfold addToolCall; simpl. apply completeCurrentTool_text. Qed.

Lemma captureSession_text m p : responseText (captureSession m p) = responseText p.
Proof. unfold captureSession. by destruct (_ && _). Qed.

(** A block of a nested message never changes the response text. *)
Lemma processBlock_nested_text parent p b :
  top_level parent = false →
  responseText (processBlock parent p b) = responseText p.
Proof.
  intros Hn. unfold processBlock. rewrite Hn.
  repeat case_match; auto using addToolCall_text, completeCurrentTool_text.
Qed.

Lemma processAssistantMessage_nested_text m p :
  top_level (parent_tool_use_id m) = false →
  responseText (processAssistantMessage m p) = responseText p.
Proof.
  intros Hn. unfold processAssistantMessage.
  destruct (content m) as [blocks|]; [|done].
  revert p. induction blocks as [|b blocks IH]; intros p; simpl; [done|].
  rewrite IH. by apply processBlock_nested_text.
Qed.

Lemma processStreamEvent_nested m p :
  top_level (parent_tool_use_id m) = false → processStreamEvent m p = p.
Proof.
  intros Hn. unfold processStreamEvent. rewrite Hn; simpl.
  by destruct (event m).
Qed.

(** The card state returned for an event that is not a [result]. *)
Lemma processMessage_snapshot m p :
  type m ≠ "result" → (processMessage m p).2 = snapshot (processMessage m p).1.
Proof.
  intros Hne. unfold processMessage.
  destruct (String.eqb (type m) "system"); [done|].
  destruct (String.eqb (type m) "assistant"); [done|].
  destruct (String.eqb (type m) "result") eqn:E.
  { apply String.eqb_eq in E. contradiction. }
  by destruct (String.eqb (type m) "stream_event").
Qed.

Lemma processMessage_nested_text m p :
  type m = "assistant" ∨ type m = "stream_event" →
  top_level (parent_tool_use_id m) = false →
  responseText (processMessage m p).1 = responseText p
  ∧ CardBuilder.responseText (processMessage m p).2 = responseText p.
Proof.
  intros Hty Hn.
  assert (Hfst : responseText (processMessage m p).1 = responseText p).
  { unfold processMessage. destruct Hty as [-> | ->]; simpl.
    - by rewrite processAssistantMessage_nested_text, captureSession_text.
    - by rewrite processStreamEvent_nested, captureSession_text. }
  split; [done|].
  rewrite processMessage_snapshot; [done|].
  destruct Hty as [-> | ->]; discriminate.
Qed.

Lemma run_nested_text ms : ∀ p,
  Forall nested_event ms →
  responseText (run p ms).1 = responseText p
  ∧ Forall (λ s, CardBuilder.responseText s = responseText p) (run p ms).2.
Proof.
  induction ms as [|m ms IH]; intros p Hall; simpl; [by split|].
  inversion Hall as [|? ? [Hty Hn] Hrest]; subst.
  destruct (processMessage_nested_text m p Hty Hn) as [H1 H2].
  destruct (processMessage m p) as [p1 s] eqn:E; simpl in *.
  specialize (IH p1 Hrest).
  destruct (run p1 ms) as [p2 ss]; simpl in *.
  destruct IH as [IH1 IH2]. rewrite H1 in IH1, IH2.
  split; [done|]. by constructor.
Qed.

(** A top-level message whose content is one text block. *)
Lemma processMessage_full_text m p b txt :
  type m = "assistant" →
  top_level (parent_tool_use_id m) = true →
  content m = Some [b] →
  block_type b = "text" →
  block_text b = Some txt →
  Js.truthy_string txt = true →
  responseText (processMessage m p).1 = txt
  ∧ CardBuilder.responseText (processMessage m p).2 = txt.
Proof.
  intros Hty Htop Hc Hbt Hbx Htr.
  assert (Hfst : responseText (processMessage m p).1 = txt).
  { unfold processMessage. rewrite Hty; simpl.
    unfold processAssistantMessage. rewrite Hc; simpl.
    unfold processBlock. rewrite Hbt, Hbx, Htop; simpl. by rewrite Htr. }
  split; [done|].
  rewrite processMessage_snapshot; [done|]. rewrite Hty. discriminate.
Qed.

(** C6. A top-level message event with full text [Hello] sets the response
    text to [Hello], whatever had been accumulated; every later delta or
    message event that carries a parent-tool marker leaves it at [Hello],
    in the processor and in every card state returned. *)
Theorem full_text_replaces_and_nested_is_ignored
    (p : t) (m : SDKMessage) (b : ContentBlock) (later : list SDKMessage) :
  type m = "assistant" →
  top_level (parent_tool_use_id m) = true →
  content m = Some [b] →
  block_type b = "text" →
  block_text b = Some "Hello" →
  Forall nested_event later →
  responseText (processMessage m p).1 = "Hello"
  ∧ CardBuilder.responseText (processMessage m p).2 = "Hello"
  ∧ responseText (run (processMessage m p).1 later).1 = "Hello"
  ∧ Forall (λ s, CardBuilder.responseText s = "Hello")
      (run (processMessage m p).1 later).2.
Proof.
  intros Hty Htop Hc Hbt Hbx Hlater.
  destruct (processMessage_full_text m p b "Hello" Hty Htop Hc Hbt Hbx eq_refl)
    as [H1 H2].
  destruct (run_nested_text later (processMessage m p).1 Hlater) as [H3 H4].
  rewrite H1 in H3, H4. done.
Qed.

(** Text streamed before the message is replaced; a nested delta and a
    nested message after it are ignored. *)
Lemma full_text_replaces_witness :
  let p := (processMessage (Examples.text_delta ParentNull "partial")
              (create "hi")).1 in
  let m := Examples.assistant ParentNull [Examples.text_block "Hello"] in
  let later :=
    [Examples.text_delta (ParentId "tool-123") "ignored";
     Examples.assistant (ParentId "tool-123") [Examples.text_block "sub-agent"]] in
  responseText p = "partial"
  ∧ responseText (processMessage m p).1 = "Hello"
  ∧ responseText (run (processMessage m p).1 later).1 = "Hello".
Proof.
  intros p m later.
  assert (Hlater : Forall nested_event later).
  { constructor; [split; [right|]; reflexivity|].
    constructor; [split; [left|]; reflexivity|]. constructor. }
  pose proof (full_text_replaces_and_nested_is_ignored p m
                (Examples.text_block "Hello") later
                eq_refl eq_refl eq_refl eq_refl eq_refl Hlater) as (H1 & _ & H3 & _).
  split; [reflexivity|]. split; [exact H1 | exact H3].
Defined.

(** *** Result events *)

Lemma processMessage_result m p :
  type m = "result" →
  processMessage m p = processResultMessage m (captureSession m p).
Proof. intros Hty. unfold processMessage. by rewrite Hty. Qed.

Lemma isError_true m : isError m = true ↔ subtype m ≠ Some "success".
Proof.
  unfold isError. destruct (subtype m) as [s|]; [|split; [discriminate|done]].
  rewrite negb_true_iff. split.
  - intros Hf Heq. inversion Heq; subst. discriminate.
  - intros Hne. apply not_true_is_false. intros Ht.
    apply String.eqb_eq in Ht. congruence.
Qed.

Lemma isError_false m : isError m = false ↔ subtype m = Some "success".
Proof.
  pose proof (isError_true m) as H.
  destruct (isError m).
  - split; [discriminate|]. intros Heq. by apply H in Heq.
  - split; [|done]. intros _.
    destruct (decide (subtype m = Some "success")) as [|Hne]; [done|].
    apply H in Hne. discriminate.
Qed.

Lemma truthy_append_l a b :
  Js.truthy_string a = true → Js.truthy_string (a +:+ b) = true.
Proof. by destruct a. Qed.

Lemma truthy_append_r a b :
  Js.truthy_string b = true → Js.truthy_string (a +:+ b) = true.
Proof. destruct a; simpl; [done|]. by intros _. Qed.

(** The joined text is empty only if every string joined is. *)
Lemma join_truthy sep es :
  Exists (λ e, Js.truthy_string e = true) es →
  Js.truthy_string (Js.join sep es) = true.
Proof.
  induction es as [|e es IH]; intros Hex; [by inversion Hex|].
  destruct es as [|e' es'].
  - inversion Hex as [? ? He|? ? Hrest]; subst; [done|by inversion Hrest].
  - change (Js.join sep (e :: e' :: es'))
      with (e +:+ sep +:+ Js.join sep (e' :: es')).
    inversion Hex as [? ? He|? ? Hrest]; subst.
    + by apply truthy_append_l.
    + apply truthy_append_r, truthy_append_r. by apply IH.
Qed.

(** C7. A result event whose subtype is not [success] gives status [error]
    and the reported error strings joined with a semicolon and a space as
    error message; when that text is empty (no [errors] field, no strings,
    or nothing in them) the message is [Ended with: ] followed by the
    subtype.  Subtype [success] gives status [complete] and no error
    message. *)
Theorem result_event_status_and_error (m : SDKMessage) (p : t) :
  type m = "result" →
  let s := (processMessage m p).2 in
  (subtype m ≠ Some "success" →
     card_status s = error
     ∧ (∀ es, errors m = Some es →
              Exists (λ e, Js.truthy_string e = true) es →
              errorMessage s = Some (Js.join "; " es))
     ∧ (errors m = None ∨ errors m = Some [] →
        errorMessage s = Some ("Ended with: " +:+ default "undefined" (subtype m)))
     ∧ errorMessage s =
         Some (let joined := default "" (Js.join "; " <$> errors m) in
               if Js.truthy_string joined then joined
               else "Ended with: " +:+ default "undefined" (subtype m)))
  ∧ (subtype m = Some "success" →
     card_status s = complete ∧ errorMessage s = None).
Proof.
  intros Hty s. subst s. rewrite (processMessage_result _ _ Hty).
  unfold processResultMessage; simpl. split.
  - intros Hne. apply isError_true in Hne. rewrite Hne.
    split; [done|]. unfold error_text, ended_with, Js.or_string.
    split; [|split].
    + intros es Hes Hex. rewrite Hes; simpl.
      by rewrite (join_truthy "; " es Hex).
    + intros [-> | ->]; reflexivity.
    + destruct (errors m) as [es|]; simpl; [|done].
      by destruct (Js.truthy_string (Js.join "; " es)).
  - intros Hs. apply isError_false in Hs. by rewrite Hs.
Qed.

(** Errors [A] and [B] reported with a failing subtype give [A; B]; the
    same event with subtype [success] gives no message. *)
Lemma result_event_witness :
  errorMessage
    (processMessage
       (Examples.result_event (Some "error_during_execution") None
          (Some ["A"; "B"]))
       (create "hi")).2 = Some "A; B"
  ∧ card_status
      (processMessage
         (Examples.result_event (Some "error_during_execution") None
            (Some ["A"; "B"]))
         (create "hi")).2 = error
  ∧ errorMessage
      (processMessage (Examples.result_event (Some "success") (Some "ok") None)
         (create "hi")).2 = None.
Proof.
  pose proof (result_event_status_and_error
                (Examples.result_event (Some "error_during_execution") None
                   (Some ["A"; "B"]))
                (create "hi") eq_refl) as [Hfail _].
  pose proof (result_event_status_and_error
                (Examples.result_event (Some "success") (Some "ok") None)
                (create "hi") eq_refl) as [_ Hok].
  destruct Hfail as (Hst & Hjoin & _); [discriminate|].
  destruct Hok as [_ Hnone]; [reflexivity|].
  split; [|split].
  - apply (Hjoin ["A"; "B"]); [reflexivity|]. constructor. reflexivity.
  - exact Hst.
  - exact Hnone.
Defined.

(** *** Status derivation *)

Lemma processBlock_text_truthy parent p b :
  Js.truthy_string (responseText p) = true →
  Js.truthy_string (responseText (processBlock parent p b)) = true.
Proof.
  intros Htr. unfold processBlock.
  destruct (String.eqb (block_type b) "text" && Js.truthy_ostring (block_text b))
    eqn:E1.
  - destruct (top_level parent); [|done]. simpl.
    apply andb_true_iff in E1 as [_ E1].
    by destruct (block_text b).
  - repeat case_match;
      rewrite ?addToolCall_text, ?completeCurrentTool_text; done.
Qed.

Lemma processAssistantMessage_text_truthy m p :
  Js.truthy_string (responseText p) = true →
  Js.truthy_string (responseText (processAssistantMessage m p)) = true.
Proof.
  unfold processAssistantMessage. destruct (content m) as [blocks|]; [|done].
  revert p. induction blocks as [|b blocks IH]; intros p Htr; simpl; [done|].
  apply IH. by apply processBlock_text_truthy.
Qed.

Lemma processStreamEvent_text_truthy m p :
  Js.truthy_string (responseText p) = true →
  Js.truthy_string (responseText (processStreamEvent m p)) = true.
Proof.
  intros Htr. unfold processStreamEvent.
  repeat case_match; rewrite ?addToolCall_text; try done.
  simpl. by apply truthy_append_l.
Qed.

(** Response text, once accumulated, never becomes empty again. *)
Lemma processMessage_text_truthy m p :
  Js.truthy_string (responseText p) = true →
  Js.truthy_string (responseText (processMessage m p).1) = true.
Proof.
  intros Htr. rewrite <- (captureSession_text m p) in Htr.
  unfold processMessage. repeat case_match; simpl; try done.
  - by apply processAssistantMessage_text_truthy.
  - by apply processStreamEvent_text_truthy.
Qed.

Lemma derive_status_text p :
  Js.truthy_string (responseText p) = true → derive_status p = running.
Proof. intros Htr. unfold derive_status. rewrite Htr. by case_match. Qed.

Lemma truthy_string_false s : Js.truthy_string s = false ↔ s = "".
Proof. destruct s; split; done. Qed.

Lemma derive_status_thinking p :
  derive_status p = thinking ↔
  existsb is_running (toolCalls p) = false ∧ responseText p = "".
Proof.
  unfold derive_status. rewrite <- truthy_string_false.
  destruct (existsb is_running (toolCalls p));
    destruct (Js.truthy_string (responseText p)); split;
    try done; by intros [? ?].
Qed.

Lemma derive_status_cases p :
  derive_status p = running ∨ derive_status p = thinking.
Proof. unfold derive_status. repeat case_match; auto. Qed.

(** The [i]-th card state of a run is the one returned for the [i]-th
    event by the processor that folded the events before it. *)
Lemma run_lookup ms : ∀ p i m s,
  ms !! i = Some m → (run p ms).2 !! i = Some s →
  s = (processMessage m (run p (take i ms)).1).2.
Proof.
  induction ms as [|m0 ms IH]; intros p i m s Hm Hs; [done|].
  simpl in Hs. destruct (processMessage m0 p) as [p1 s0] eqn:E0.
  destruct (run p1 ms) as [p2 ss] eqn:E1.
  destruct i as [|i]; simpl in *.
  - inversion Hm; subst. rewrite E0. by inversion Hs.
  - rewrite E0. specialize (IH p1 i m s Hm). rewrite E1 in IH.
    specialize (IH Hs). by destruct (run p1 (take i ms)).
Qed.

Lemma run_text_truthy ms : ∀ p,
  Js.truthy_string (responseText p) = true →
  Js.truthy_string (responseText (run p ms).1) = true.
Proof.
  induction ms as [|m ms IH]; intros p Htr; simpl; [done|].
  pose proof (processMessage_text_truthy m p Htr) as H1.
  destruct (processMessage m p) as [p1 s]. simpl in H1.
  specialize (IH p1 H1). by destruct (run p1 ms).
Qed.

(** A tool call that was opened and then closed leaves a card state whose
    tool list is not empty and whose status is [thinking]. *)
Lemma closed_tool_reverts_to_thinking :
  let ms :=
    [Examples.assistant ParentNull
       [Examples.tool_use "t1" "Read" (Js.JObj [("file_path", Js.JStr "/a/b/c/d.ts")])];
     Examples.assistant ParentNull [Examples.tool_result]] in
  card_status <$> (run (create "hi") ms).2 = [running; thinking]
  ∧ CardBuilder.toolCalls <$> (run (create "hi") ms).2 !! 1%nat
    = Some [mkToolCall "Read" "`.../c/d.ts`" tool_done].
Proof. split; vm_compute; reflexivity. Qed.

(** C3, amended.  For every event sequence and every event of it that is
    not a [result]: if response text had accumulated when the fold started,
    the card state returned has status [running]; the status is [thinking]
    exactly when no tool call of the card is running and its response text
    is empty, and it is [running] otherwise. *)
Theorem status_of_non_terminal_snapshots
    (p : t) (ms : list SDKMessage) (i : nat) (m : SDKMessage) (s : CardState) :
  ms !! i = Some m →
  (run p ms).2 !! i = Some s →
  type m ≠ "result" →
  (Js.truthy_string (responseText p) = true → card_status s = running)
  ∧ (card_status s = thinking ↔
     existsb is_running (CardBuilder.toolCalls s) = false
     ∧ CardBuilder.responseText s = "")
  ∧ (card_status s = running ∨ card_status s = thinking).
Proof.
  intros Hm Hs Hty.
  pose proof (run_lookup ms p i m s Hm Hs) as ->.
  rewrite (processMessage_snapshot _ _ Hty); simpl.
  split; [|split].
  - intros Htr. apply derive_status_text, processMessage_text_truthy.
    by apply run_text_truthy.
  - apply derive_status_thinking.
  - apply derive_status_cases.
Qed.

(** After a streamed delta, a tool call that opens and closes leaves the
    status at [running]. *)
Lemma status_of_non_terminal_snapshots_witness :
  let p := (processMessage (Examples.text_delta ParentNull "Hi") (create "q")).1 in
  let ms :=
    [Examples.assistant ParentNull [Examples.tool_use "t1" "Read" Js.JUndefined];
     Examples.assistant ParentNull [Examples.tool_result]] in
  card_status (snapshot (run p ms).1) = running.
Proof.
  intros p ms.
  apply (status_of_non_terminal_snapshots p ms 1%nat
           (Examples.assistant ParentNull [Examples.tool_result])
           (snapshot (run p ms).1)).
  - reflexivity.
  - vm_compute. reflexivity.
  - discriminate.
  - reflexivity.
Defined.

(** *** The interactive-question tool *)

Lemma formatToolDetail_ask input : formatToolDetail "AskUserQuestion" input = "".
Proof. unfold formatToolDetail. by case_match. Qed.

Lemma existsb_app_running l tc :
  is_running tc = true → existsb is_running (l ++ [tc]) = true.
Proof. intros H. rewrite existsb_app. simpl. rewrite H. by rewrite orb_true_r. Qed.

(** C1 on the code.  The event of the test-suite, given to a new
    processor, returns status [running], a tool-call entry named
    [AskUserQuestion] and nothing else; and from every processor state an
    event whose content is one [AskUserQuestion] tool-use block opens an
    [AskUserQuestion] entry in the tool-call list and returns status
    [running]. *)
Theorem ask_user_question_opens_tool_entry :
  (processMessage Examples.ask_event (create "hi")).2
    = {| card_status := running; CardBuilder.userPrompt := "hi";
         CardBuilder.responseText := "";
         CardBuilder.toolCalls := [mkToolCall "AskUserQuestion" "" tool_running];
         CardBuilder.costUsd := None; CardBuilder.durationMs := None;
         errorMessage := None |}
  ∧ ∀ (p : t) (parent : Parent) (id : string) (input : Js.jsval),
      let s := (processMessage
                  (Examples.assistant parent
                     [Examples.tool_use id "AskUserQuestion" input]) p).2 in
      card_status s = running
      ∧ ∃ earlier, CardBuilder.toolCalls s
                   = earlier ++ [mkToolCall "AskUserQuestion" "" tool_running].
Proof.
  split; [vm_compute; reflexivity|].
  intros p parent id input s. subst s.
  unfold processMessage; simpl. unfold snapshot, derive_status; simpl.
  rewrite formatToolDetail_ask.
  rewrite existsb_app_running; [|done].
  split; [done|]. by eexists.
Qed.

End StreamProcessorFacts.

(** ** RateLimiter *)

Module RateLimiterFacts.
Import RateLimiter.

Section Facts.
Context {T : Type}.
Implicit Types (rl : RateLimiter.t T) (f : T) (o : RateLimiter.op T).

(** What [advance] runs was pending, and it leaves nothing new pending. *)
Lemma advance_sound now rl :
  (∀ x, x ∈ (advance now rl).2 → pending rl = Some x.2)
  ∧ (∀ f, pending (advance now rl).1 = Some f → pending rl = Some f).
Proof.
  unfold advance.
  destruct (windowEnd rl) as [e|]; [|by split; [intros x Hx; inversion Hx|]].
  destruct (e <=? now); [|by split; [intros x Hx; inversion Hx|]].
  destruct (pending rl) as [g|]; simpl; split; try done.
  - intros x Hx. apply list_elem_of_singleton in Hx. by subst.
  - intros x Hx. inversion Hx.
Qed.

(** Every thunk run by a call was pending before it or is the thunk the
    call schedules; the same holds of the thunk left pending. *)
Lemma step_sound o rl :
  (∀ x, x ∈ (step o rl).2 → pending rl = Some x.2 ∨ x.2 ∈ scheduled_by o)
  ∧ (∀ f, pending (step o rl).1 = Some f →
          pending rl = Some f ∨ f ∈ scheduled_by o).
Proof.
  destruct (advance_sound (match o with
                           | Schedule n _ | Flush n | Cancel n | Advance n => n
                           end) rl) as [Hran Hpend].
  destruct o as [now f|now|now|now]; simpl in *.
  - unfold schedule. destruct (advance now rl) as [rl1 ran]; simpl in *.
    destruct (windowEnd rl1); simpl; split.
    + intros x Hx. left. by apply Hran.
    + intros g Hg. inversion Hg; subst. right. by apply list_elem_of_singleton.
    + intros x Hx. apply elem_of_app in Hx as [Hx|Hx]; [left; by apply Hran|].
      apply list_elem_of_singleton in Hx. subst. right.
      by apply list_elem_of_singleton.
    + intros g Hg. left. by apply Hpend.
  - unfold flush. destruct (advance now rl) as [rl1 ran]; simpl in *.
    destruct (pending rl1) as [g|] eqn:Eg; simpl; split.
    + intros x Hx. left. apply elem_of_app in Hx as [Hx|Hx]; [by apply Hran|].
      apply list_elem_of_singleton in Hx. subst. by apply Hpend.
    + done.
    + intros x Hx. left. by apply Hran.
    + intros g Hg. left. apply Hpend. congruence.
  - unfold cancel. destruct (advance now rl) as [rl1 ran]; simpl in *.
    split; [|done]. intros x Hx. left. by apply Hran.
  - split.
    + intros x Hx. left. by apply Hran.
    + intros g Hg. left. by apply Hpend.
Qed.

(** Nothing runs that was not pending at the start or scheduled since. *)
Lemma run_sound ops : ∀ rl x,
  x ∈ (run ops rl).2 →
  pending rl = Some x.2 ∨ x.2 ∈ concat (scheduled_by <$> ops).
Proof.
  induction ops as [|o ops IH]; intros rl x Hx; simpl in *; [by inversion Hx|].
  destruct (step_sound o rl) as [Hran Hpend].
  destruct (step o rl) as [rl1 ran1]; simpl in *.
  specialize (IH rl1 x).
  destruct (run ops rl1) as [rl2 ran2]; simpl in *.
  apply elem_of_app in Hx as [Hx|Hx].
  - destruct (Hran x Hx) as [?|Hin]; [by left|].
    right. apply elem_of_app. by left.
  - destruct (IH Hx) as [Hp|Hin].
    + destruct (Hpend _ Hp) as [?|Hin]; [by left|].
      right. apply elem_of_app. by left.
    + right. apply elem_of_app. by right.
Qed.

Lemma run_app ops1 ops2 rl :
  run (ops1 ++ ops2) rl =
    (let r1 := run ops1 rl in
     let r2 := run ops2 r1.1 in (r2.1, r1.2 ++ r2.2)).
Proof.
  revert rl. induction ops1 as [|o ops1 IH]; intros rl; simpl.
  - by destruct (run ops2 rl).
  - destruct (step o rl) as [rl1 ran1]. rewrite IH; simpl.
    destruct (run ops1 rl1) as [rl2 ran2]; simpl.
    destruct (run ops2 rl2) as [rl3 ran3]; simpl.
    by rewrite app_assoc.
Qed.

(** C9. Thunks [f1], [f2], [f3] scheduled in this order within one window
    of a limiter of interval [w]: [f1] runs at its schedule time and nothing
    else runs before the window elapses; once the clock has passed the end
    of the window, [f3] has run once, at the end of the window, and nothing
    is pending; whatever the client does afterwards, the thunks that run are
    thunks scheduled afterwards, so [f2] is never run. *)
Theorem burst_runs_first_then_latest
    (w t0 t1 t2 t : Z) (f1 f2 f3 : T) (more : list (RateLimiter.op T)) :
  t0 ≤ t1 → t1 ≤ t2 → t2 < t0 + w → t0 + w ≤ t →
  let burst := [Schedule t0 f1; Schedule t1 f2; Schedule t2 f3] in
  (run burst (create w)).2 = [(t0, f1)]
  ∧ pending (run burst (create w)).1 = Some f3
  ∧ (run (burst ++ [Advance t]) (create w)).2 = [(t0, f1); (t0 + w, f3)]
  ∧ pending (run (burst ++ [Advance t]) (create w)).1 = None
  ∧ ∃ later,
      (run (burst ++ Advance t :: more) (create w)).2
        = [(t0, f1); (t0 + w, f3)] ++ later
      ∧ ∀ x, x ∈ later → x.2 ∈ concat (scheduled_by <$> more).
Proof.
  intros H01 H12 H2w Hwt burst.
  assert (E1 : (t0 + w <=? t1) = false) by (apply Z.leb_gt; lia).
  assert (E2 : (t0 + w <=? t2) = false) by (apply Z.leb_gt; lia).
  assert (E3 : (t0 + w <=? t) = true) by (apply Z.leb_le; lia).
  assert (Hburst : run burst (create w)
                   = ({| intervalMs := w; windowEnd := Some (t0 + w);
                         pending := Some f3 |}, [(t0, f1)])).
  { subst burst. simpl. unfold schedule, advance; simpl.
    rewrite E1; simpl. by rewrite E2. }
  assert (Hadv : run (burst ++ [Advance t]) (create w)
                 = ({| intervalMs := w;
                       windowEnd := if t0 + w + w <=? t then None
                                    else Some (t0 + w + w);
                       pending := None |}, [(t0, f1); (t0 + w, f3)])).
  { rewrite run_app, Hburst. simpl. unfold advance; simpl. by rewrite E3. }
  assert (Hmore : run (burst ++ Advance t :: more) (create w)
                  = run ((burst ++ [Advance t]) ++ more) (create w)).
  { by rewrite <- app_assoc. }
  split; [by rewrite Hburst|]. split; [by rewrite Hburst|].
  split; [by rewrite Hadv|]. split; [by rewrite Hadv|].
  rewrite Hmore, (run_app (burst ++ [Advance t]) more), Hadv. simpl.
  eexists. split; [reflexivity|].
  intros x Hx. apply run_sound in Hx as [Hp|Hin]; [discriminate|done].
Qed.

End Facts.

(** The example of the specification: interval 1000, calls at 0, 10 and
    20, the clock then reaching 1000. *)
Lemma burst_witness :
  (run [Schedule 0 "f1"; Schedule 10 "f2"; Schedule 20 "f3"; Advance 1000]
     (create 1000)).2 = [(0, "f1"); (1000, "f3")].
Proof.
  pose proof (burst_runs_first_then_latest 1000 0 10 20 1000 "f1" "f2" "f3" [])
    as H.
  destruct H as (_ & _ & H & _); [lia..|]. exact H.
Defined.

End RateLimiterFacts.

(** ** MessageBridge *)

Module MessageBridgeFacts.
Import CardBuilder MessageBridge.

(** *** Sending touches only the outbox *)

Lemma sendAll_frame os : ∀ b,
  runningTasks (sendAll os b) = runningTasks b
  ∧ timers (sendAll os b) = timers b
  ∧ aborted (sendAll os b) = aborted b
  ∧ files (sendAll os b) = files b
  ∧ sessionManager (sendAll os b) = sessionManager b.
Proof.
  induction os as [|o os IH]; intros b; [done|].
  unfold sendAll in *. simpl. destruct (IH (send o b)) as (?&?&?&?&?). done.
Qed.

Lemma render_timers mid p ran b : timers (render mid p ran b) = timers b.
Proof. unfold render. apply sendAll_frame. Qed.

Lemma render_aborted mid p ran b : aborted (render mid p ran b) = aborted b.
Proof. unfold render. apply sendAll_frame. Qed.

(** *** Timers *)

Lemma fire_due_timers now b id tm :
  timers (fire_due now b) !! id = Some tm ↔
  timers b !! id = Some tm ∧ due now tm = false.
Proof. unfold fire_due; simpl. by rewrite map_lookup_filter_Some. Qed.

Lemma fire_due_aborted now b c :
  c ∈ aborted (fire_due now b) ↔
  c ∈ aborted b
  ∨ ∃ id tm, timers b !! id = Some tm ∧ due now tm = true ∧ target tm = c.
Proof.
  unfold fire_due; simpl. rewrite elem_of_union, elem_of_list_to_set.
  rewrite list_elem_of_fmap. split.
  - intros [(tm & -> & Hin)|?]; [|by left]. right.
    apply list_elem_of_fmap in Hin as ([id tm'] & -> & Hin).
    apply elem_of_map_to_list, map_lookup_filter_Some in Hin as [Hl Hd].
    by exists id, tm'.
  - intros [?|(id & tm & Hl & Hd & <-)]; [by right|]. left.
    exists tm. split; [done|]. apply list_elem_of_fmap. exists (id, tm).
    split; [done|]. apply elem_of_map_to_list, map_lookup_filter_Some. done.
Qed.

Lemma tick_bridge now mid st :
  timers (bridge (tick now mid st)) = timers (fire_due now (bridge st))
  ∧ aborted (bridge (tick now mid st)) = aborted (fire_due now (bridge st)).
Proof.
  unfold tick. destruct (RateLimiter.advance now (limiter st)) as [rl ran]; simpl.
  by rewrite render_timers, render_aborted.
Qed.

(** *** Admission *)

(** C4. A message that is not a command is answered by one informational
    card and registers no task when the key has no working directory or
    already has a running task: the running-task map, the pending timers,
    the abort signals and the staged files are as before, and no agent
    stream is opened. *)
Theorem handleMessage_rejects
    (now : Z) (h : Host) (sc : Scenario) (msg : IncomingMessage) (b : t) :
  Js.starts_with_char "/"%char (text msg) = false →
  (SessionManager.hasWorkingDirectory now (userId msg) (sessionManager b)).2 = false
  ∨ is_Some (runningTasks b !! userId msg) →
  let b' := handleMessage now h sc msg b in
  runningTasks b' = runningTasks b
  ∧ timers b' = timers b
  ∧ aborted b' = aborted b
  ∧ files b' = files b
  ∧ ∃ title content,
      outbox b' = outbox b ++ [SendCard (chatId msg) (TextCard title content "orange")].
Proof.
  intros Hcmd Hrej b'. subst b'. unfold handleMessage. rewrite Hcmd.
  destruct (SessionManager.hasWorkingDirectory now (userId msg) (sessionManager b))
    as [sm hasWd] eqn:E; simpl in *.
  destruct hasWd; simpl.
  - destruct Hrej as [?|Hbusy]; [done|].
    rewrite bool_decide_eq_true_2; [|done]. simpl.
    repeat split; eauto.
  - repeat split; eauto.
Qed.

(** A key without working directory, and a key that has a running task. *)
Lemma handleMessage_rejects_witness :
  runningTasks
    (handleMessage 7 Examples.host Examples.slow_agent
       (Examples.incoming "hello" None) (create None)) = ∅
  ∧ runningTasks
      (handleMessage 7 Examples.host Examples.slow_agent
         (Examples.incoming "hello" None)
         (registerTask 3 (Examples.incoming "first" None) Examples.bridge0).1.1.1)
    = runningTasks (registerTask 3 (Examples.incoming "first" None) Examples.bridge0).1.1.1.
Proof.
  split.
  - apply (handleMessage_rejects 7 Examples.host Examples.slow_agent
             (Examples.incoming "hello" None) (create None)).
    + reflexivity.
    + left. reflexivity.
  - apply (handleMessage_rejects 7 Examples.host Examples.slow_agent
             (Examples.incoming "hello" None)
             (registerTask 3 (Examples.incoming "first" None) Examples.bridge0).1.1.1).
    + reflexivity.
    + right. eexists. vm_compute. reflexivity.
Defined.

(** *** The timeout timer *)

Lemma registerTask_eq now msg b :
  registerTask now msg b =
    (set_timers
       (<[S (fresh b) := mkTimer (now + TASK_TIMEOUT_MS) (fresh b)]> (timers b))
       (set_runningTasks
          (<[userId msg := mkTask (fresh b) now]> (runningTasks b))
          (set_fresh (S (S (fresh b)))
             (set_sessionManager
                (SessionManager.getSession now (userId msg) (sessionManager b)).1 b))),
     fresh b, S (fresh b),
     (SessionManager.getSession now (userId msg) (sessionManager b)).2).
Proof. reflexivity. Qed.

(** A timer that is due when the clock reaches [at_] aborts its target. *)
Lemma fire_due_fires at_ b id tm :
  timers b !! id = Some tm → deadline tm ≤ at_ →
  is_aborted (target tm) (fire_due at_ b) = true
  ∧ timers (fire_due at_ b) !! id = None.
Proof.
  intros Hl Hd. assert (Hdue : due at_ tm = true) by (by apply Z.leb_le).
  split.
  - apply bool_decide_eq_true_2, fire_due_aborted. right. by exists id, tm.
  - destruct (timers (fire_due at_ b) !! id) as [tm'|] eqn:E; [|done].
    apply fire_due_timers in E as [Hl' Hd']. congruence.
Qed.

(** A timer that is not due stays pending, and a controller that no other
    timer targets is not aborted by the passing of time. *)
Lemma fire_due_waits at_ b id tm :
  timers b !! id = Some tm → at_ < deadline tm →
  timers (fire_due at_ b) !! id = Some tm
  ∧ (is_aborted (target tm) b = false →
     (∀ id' tm', timers b !! id' = Some tm' → target tm' = target tm → id' = id) →
     is_aborted (target tm) (fire_due at_ b) = false).
Proof.
  intros Hl Hd. assert (Hdue : due at_ tm = false) by (by apply Z.leb_gt).
  split; [by apply fire_due_timers|].
  intros Hna Honly. apply bool_decide_eq_false_2. intros Hin.
  apply fire_due_aborted in Hin as [Hin|(id' & tm' & Hl' & Hd' & Ht)].
  - apply bool_decide_eq_false_1 in Hna. done.
  - assert (id' = id) as -> by eauto. congruence.
Qed.

(** The timer of a task is ten minutes, not one hour: started at clock
    value 0 it aborts the task when the clock reaches 600000, and the agent
    event that arrives then is not consumed. *)
Lemma timeout_is_not_one_hour :
  timers (registerTask 0 (Examples.incoming "hi" None) Examples.bridge0).1.1.1 !! 1%nat
    = Some (mkTimer 600000 0)
  ∧ 600000 < 60 * 60 * 1000
  ∧ is_aborted 0
      (fire_due 600000 (registerTask 0 (Examples.incoming "hi" None) Examples.bridge0).1.1.1)
    = true
  ∧ list.last (outbox (executeQuery 0 Examples.host Examples.slow_agent
                    (Examples.incoming "hi" None) Examples.bridge0))
    = Some (UpdateCard "om_card"
              (StateCard (mkCardState running "hi" "Hi" [] None None None))).
Proof.
  split; [vm_compute; reflexivity|]. split; [lia|].
  split; vm_compute; reflexivity.
Qed.

(** C2, amended.  Admission registers the running task and starts a timer
    of [TASK_TIMEOUT_MS], which is ten minutes, on the task's controller.
    As long as the timer is pending: when the clock reaches the deadline the
    controller is aborted and the next agent event is not consumed; before
    the deadline the timer stays pending and does not abort the controller.
    The cleanup at the end of the task clears the timer. *)
Theorem timeout_timer_is_ten_minutes (now : Z) (msg : IncomingMessage) (b : t) :
  let '(b1, controller, timeoutId, _) := registerTask now msg b in
  let limit := mkTimer (now + 10 * 60 * 1000) controller in
  runningTasks b1 !! userId msg = Some (mkTask controller now)
  ∧ timers b1 !! timeoutId = Some limit
  ∧ (∀ (at_ : Z) (b' : t),
       timers b' !! timeoutId = Some limit → now + 10 * 60 * 1000 ≤ at_ →
       is_aborted controller (fire_due at_ b') = true
       ∧ timers (fire_due at_ b') !! timeoutId = None)
  ∧ (∀ (at_ : Z) (h : Host) (user mid : string) m rest (st : Loop),
       timers (bridge st) !! timeoutId = Some limit →
       now + 10 * 60 * 1000 ≤ at_ →
       drive h user mid controller (Yield at_ m :: rest) st
         = (tick at_ mid st, true))
  ∧ (∀ (at_ : Z) (b' : t),
       timers b' !! timeoutId = Some limit → at_ < now + 10 * 60 * 1000 →
       timers (fire_due at_ b') !! timeoutId = Some limit
       ∧ (is_aborted controller b' = false →
          (∀ id tm, timers b' !! id = Some tm → target tm = controller →
                    id = timeoutId) →
          is_aborted controller (fire_due at_ b') = false))
  ∧ (∀ (user : string) (imagePath : option string) (b' : t),
       timers (cleanup user timeoutId imagePath b') !! timeoutId = None).
Proof.
  rewrite registerTask_eq. cbv zeta.
  change (now + TASK_TIMEOUT_MS) with (now + 10 * 60 * 1000).
  split; [apply lookup_insert_eq|]. split; [apply lookup_insert_eq|].
  split; [|split; [|split]].
  - intros at_ b' Hl Hd. by apply (fire_due_fires at_ b' _ _ Hl).
  - intros at_ h user mid m rest st Hl Hd.
    destruct (tick_bridge at_ mid st) as [_ Hab].
    destruct (fire_due_fires at_ (bridge st) _ _ Hl Hd) as [Hfire _].
    assert (Hbreak : is_aborted (fresh b) (bridge (tick at_ mid st)) = true).
    { unfold is_aborted in *. by rewrite Hab. }
    cbn [drive]. by rewrite Hbreak.
  - intros at_ b' Hl Hd. by apply (fire_due_waits at_ b' _ _ Hl).
  - intros user imagePath b'. unfold cleanup.
    assert (Hc : timers (set_runningTasks
                           (delete user (runningTasks (clearTimeout (S (fresh b)) b')))
                           (clearTimeout (S (fresh b)) b')) !! S (fresh b) = None).
    { simpl. apply lookup_delete_eq. }
    destruct imagePath as [path|]; [|done].
    by destruct (Js.truthy_string path).
Qed.

(** A task admitted at clock value 0: its timer is pending until 600000
    and aborts the controller then. *)
Lemma timeout_timer_witness :
  timers (registerTask 0 (Examples.incoming "hi" None) Examples.bridge0).1.1.1 !! 1%nat
    = Some (mkTimer 600000 0)
  ∧ timers (fire_due 599999
              (registerTask 0 (Examples.incoming "hi" None) Examples.bridge0).1.1.1) !! 1%nat
    = Some (mkTimer 600000 0)
  ∧ is_aborted 0
      (fire_due 600000 (registerTask 0 (Examples.incoming "hi" None) Examples.bridge0).1.1.1)
    = true.
Proof.
  pose proof (timeout_timer_is_ten_minutes 0 (Examples.incoming "hi" None)
                Examples.bridge0) as H.
  rewrite registerTask_eq in H. cbv zeta in H.
  destruct H as (_ & Hset & Hfire & _ & Hwait & _).
  split; [exact Hset|]. split.
  - apply (Hwait 599999); [exact Hset|lia].
  - apply (Hfire 600000); [exact Hset|lia].
Defined.

(** *** Termination *)

Lemma cleanup_runningTasks user tid ip b :
  runningTasks (cleanup user tid ip b) !! user = None.
Proof.
  unfold cleanup.
  assert (runningTasks (set_runningTasks
                          (delete user (runningTasks (clearTimeout tid b)))
                          (clearTimeout tid b)) !! user = None) as Hc.
  { simpl. apply lookup_delete_eq. }
  destruct ip as [path|]; [|done]. by destruct (Js.truthy_string path).
Qed.

Lemma cleanup_timers user tid ip b :
  timers (cleanup user tid ip b) !! tid = None.
Proof.
  unfold cleanup.
  assert (timers (set_runningTasks
                    (delete user (runningTasks (clearTimeout tid b)))
                    (clearTimeout tid b)) !! tid = None) as Hc.
  { simpl. apply lookup_delete_eq. }
  destruct ip as [path|]; [|done]. by destruct (Js.truthy_string path).
Qed.

Lemma cleanup_files user tid path b :
  Js.truthy_string path = true → path ∉ files (cleanup user tid (Some path) b).
Proof.
  intros Htr. unfold cleanup. rewrite Htr. simpl.
  rewrite elem_of_difference, elem_of_singleton. by intros [_ ?].
Qed.

Lemma stagedPath_truthy h key : Js.truthy_string (stagedPath h key) = true.
Proof. unfold stagedPath. by destruct (tmpdir h). Qed.

Lemma stageImage_path h sc msg b key :
  imageKey msg = Some key → Js.truthy_string key = true →
  (stageImage h sc msg b).2 = Some (stagedPath h key).
Proof.
  intros Hk Htr. unfold stageImage. rewrite Hk, Htr.
  by destruct (download sc) as [|[]].
Qed.

Lemma stageImage_downloaded h sc msg b key :
  imageKey msg = Some key → Js.truthy_string key = true →
  download sc = Downloaded →
  stagedPath h key ∈ files (stageImage h sc msg b).1.1
  ∧ runningTasks (stageImage h sc msg b).1.1 = runningTasks b
  ∧ timers (stageImage h sc msg b).1.1 = timers b.
Proof.
  intros Hk Htr Hd. unfold stageImage. rewrite Hk, Htr, Hd. simpl.
  split; [set_solver|done].
Qed.

(** Once the first card has been sent, every way out of [executeQuery]
    goes through the [finally] block: the running task is removed, the
    timer is cleared and the staged image is deleted. *)
Lemma executeQuery_cleans_up now h sc msg b mid :
  initial_send sc = Some mid → Js.truthy_string mid = true →
  let b' := executeQuery now h sc msg b in
  runningTasks b' !! userId msg = None
  ∧ timers b' !! S (fresh b) = None
  ∧ ∀ key, imageKey msg = Some key → Js.truthy_string key = true →
           stagedPath h key ∉ files b'.
Proof.
  intros Hs Htr b'. subst b'. unfold executeQuery. rewrite registerTask_eq.
  match goal with |- context [stageImage h sc msg ?x] => set (b1 := x) end.
  pose proof (stageImage_path h sc msg b1) as Hpath.
  destruct (stageImage h sc msg b1) as [[b2 prompt] imagePath]; simpl in Hpath.
  rewrite Hs, Htr.
  match goal with |- context [drive ?a ?b ?c ?d ?e ?f] =>
    destruct (drive a b c d e f) as [st1 broke] end.
  match goal with |- context [finish ?a ?b ?c ?d] =>
    destruct (finish a b c d) as [stf outf] end.
  destruct broke.
  - split; [apply cleanup_runningTasks|]. split; [apply cleanup_timers|].
    intros key Hk Hkt. rewrite (Hpath key Hk Hkt).
    apply cleanup_files, stagedPath_truthy.
  - split; [apply cleanup_runningTasks|]. split; [apply cleanup_timers|].
    intros key Hk Hkt. rewrite (Hpath key Hk Hkt).
    apply cleanup_files, stagedPath_truthy.
Qed.

(** When the first card cannot be sent, [executeQuery] returns before the
    [try]: the running task is removed and the timer is cleared, and a
    downloaded image stays on disk. *)
Lemma executeQuery_early_exit now h sc msg b :
  initial_send sc = None ∨ initial_send sc = Some "" →
  let b' := executeQuery now h sc msg b in
  runningTasks b' !! userId msg = None
  ∧ timers b' !! S (fresh b) = None
  ∧ ∀ key, imageKey msg = Some key → Js.truthy_string key = true →
           download sc = Downloaded → stagedPath h key ∈ files b'.
Proof.
  intros Hs b'. subst b'. unfold executeQuery. rewrite registerTask_eq.
  match goal with |- context [stageImage h sc msg ?x] => set (b1 := x) end.
  pose proof (stageImage_downloaded h sc msg b1) as Hfile.
  destruct (stageImage h sc msg b1) as [[b2 prompt] imagePath]; simpl in Hfile.
  assert (Hgoal :
    let b3 := clearTimeout (S (fresh b))
                (set_runningTasks
                   (delete (userId msg)
                      (runningTasks
                         (send (SendCard (chatId msg) (StateCard (initialState msg))) b2)))
                   (send (SendCard (chatId msg) (StateCard (initialState msg))) b2)) in
    runningTasks b3 !! userId msg = None
    ∧ timers b3 !! S (fresh b) = None
    ∧ ∀ key, imageKey msg = Some key → Js.truthy_string key = true →
             download sc = Downloaded → stagedPath h key ∈ files b3).
  { simpl. split; [apply lookup_delete_eq|]. split; [apply lookup_delete_eq|].
    intros key Hk Hkt Hd. by destruct (Hfile key Hk Hkt Hd). }
  destruct Hs as [-> | ->]; exact Hgoal.
Qed.

(** C5 on the code.  A message with an image whose download succeeds,
    while the first card cannot be sent: the running task is removed and
    the timer cleared, but the staged image is still on disk.  With the
    first card sent, the same message leaves no file behind. *)
Theorem early_exit_keeps_staged_image :
  let msg := Examples.incoming "look" (Some "img_1") in
  let failed := executeQuery 0 Examples.host Examples.send_fails msg Examples.bridge0 in
  let served := executeQuery 0 Examples.host Examples.slow_agent msg Examples.bridge0 in
  runningTasks failed !! "u" = None
  ∧ timers failed !! 1%nat = None
  ∧ elements (files failed) = ["/tmp/feishu-claudecode/img_1.png"]
  ∧ runningTasks served !! "u" = None
  ∧ timers served !! 1%nat = None
  ∧ elements (files served) = [].
Proof. repeat split; vm_compute; reflexivity. Qed.

End MessageBridgeFacts.

(** * Further properties *)

(** ** SessionManager: sweep, reset and the working-directory test *)

Module SessionManagerLaws.
Import SessionManager SessionManagerFacts.

Lemma cleanupExpired_lookup t k s sm :
  sessions (cleanupExpired t sm) !! k = Some s ↔
  sessions sm !! k = Some s ∧ t - lastUsed s ≤ SESSION_TTL_MS.
Proof.
  unfold cleanupExpired; simpl. rewrite map_lookup_filter_Some. simpl.
  unfold expired. rewrite Z.ltb_ge. done.
Qed.

(** X1. The sweep run at clock value [t] keeps, unchanged, exactly the
    entries used within the last 24 hours ([t - lastUsed <= SESSION_TTL_MS],
    an entry idle for exactly the limit stays) and removes the others; the
    next access to a removed key starts from a new context: no session
    handle and the default working directory, whatever the key had stored. *)
Theorem sweep_keeps_recent_and_forgets_the_rest
    (t now : Z) (k : string) (sm : SessionManager.t) :
  (∀ k' s', sessions (cleanupExpired t sm) !! k' = Some s' ↔
            sessions sm !! k' = Some s' ∧ t - lastUsed s' ≤ SESSION_TTL_MS)
  ∧ defaultWorkingDirectory (cleanupExpired t sm) = defaultWorkingDirectory sm
  ∧ (∀ s, sessions sm !! k = Some s → SESSION_TTL_MS < t - lastUsed s →
          sessions (cleanupExpired t sm) !! k = None
          ∧ (getSession now k (cleanupExpired t sm)).2
            = mkUserSession None (defaultWorkingDirectory sm) now).
Proof.
  split; [|split].
  - intros k' s'. apply cleanupExpired_lookup.
  - reflexivity.
  - intros s Hs Hold.
    assert (Hnone : sessions (cleanupExpired t sm) !! k = None).
    { by apply (cleanupExpired_evicts t k s). }
    split; [done|]. by rewrite (getSession_absent _ _ _ Hnone).
Qed.

(** A key idle for a day and a millisecond loses its handle and directory;
    a key idle for exactly a day keeps them. *)
Lemma sweep_witness :
  let sm := setSessionId 0 "old" "sess-1"
              (setWorkingDirectory 0 "old" "/proj"
                 (setWorkingDirectory 1 "new" "/other" (create (Some "/w")))) in
  (getSession 90000000 "old" (cleanupExpired (SESSION_TTL_MS + 1) sm)).2
    = mkUserSession None (Some "/w") 90000000
  ∧ sessions (cleanupExpired (SESSION_TTL_MS + 1) sm) !! "new"
    = Some (mkUserSession None (Some "/other") 1).
Proof.
  intros sm.
  assert (Hold : sessions sm !! "old"
                 = Some (mkUserSession (Some "sess-1") (Some "/proj") 0))
    by (vm_compute; reflexivity).
  assert (Hnew : sessions sm !! "new" = Some (mkUserSession None (Some "/other") 1))
    by (vm_compute; reflexivity).
  destruct (sweep_keeps_recent_and_forgets_the_rest
              (SESSION_TTL_MS + 1) 90000000 "old" sm) as (Hchar & _ & Hforget).
  destruct (Hforget _ Hold) as [_ Hfresh]; [simpl; lia|].
  split; [exact Hfresh|].
  apply Hchar. split; [exact Hnew|]. simpl. lia.
Defined.

Lemma with_sessions_eq m sm :
  m = sessions sm → with_sessions m sm = sm.
Proof. intros ->. by destruct sm. Qed.

Lemma hasWorkingDirectory_eq now k sm :
  (hasWorkingDirectory now k sm).2
  = Js.truthy_ostring
      (match sessions sm !! k with
       | Some s => workingDirectory s
       | None => defaultWorkingDirectory sm
       end).
Proof.
  unfold hasWorkingDirectory, getSession; simpl.
  by destruct (sessions sm !! k).
Qed.

Lemma setWorkingDirectory_default now k p sm :
  defaultWorkingDirectory (setWorkingDirectory now k p sm)
  = defaultWorkingDirectory sm.
Proof. reflexivity. Qed.

(** X2. [resetSession k] clears the session handle of [k] and keeps its
    working directory and its time stamp; it changes nothing when [k] has
    no entry, touches no other key, is idempotent, and does not change the
    answer of [hasWorkingDirectory]. *)
Theorem resetSession_clears_only_the_handle
    (now : Z) (k : string) (sm : SessionManager.t) :
  (sessions sm !! k = None → resetSession k sm = sm)
  ∧ (∀ s, sessions sm !! k = Some s →
          sessions (resetSession k sm) !! k
          = Some (mkUserSession None (workingDirectory s) (lastUsed s)))
  ∧ (∀ k', k' ≠ k → sessions (resetSession k sm) !! k' = sessions sm !! k')
  ∧ resetSession k (resetSession k sm) = resetSession k sm
  ∧ (hasWorkingDirectory now k (resetSession k sm)).2
    = (hasWorkingDirectory now k sm).2.
Proof.
  split; [|split; [|split; [|split]]].
  - intros Hn. unfold resetSession. by rewrite Hn.
  - intros s Hs. by rewrite resetSession_lookup, Hs.
  - intros k' Hne. unfold resetSession.
    destruct (sessions sm !! k); simpl; [|done]. by rewrite lookup_insert_ne.
  - unfold resetSession at 1.
    rewrite resetSession_lookup.
    destruct (sessions sm !! k) as [s|] eqn:Hs; simpl; [|done].
    unfold resetSession. rewrite Hs. unfold with_sessions; simpl.
    by rewrite insert_insert_eq.
  - rewrite !hasWorkingDirectory_eq, resetSession_lookup.
    destruct (sessions sm !! k) as [s|] eqn:Hs; simpl; [done|].
    unfold resetSession. by rewrite Hs.
Qed.

(** X3. [hasWorkingDirectory] answers whether the directory the key would
    run in is a non-empty string: for a key without entry that is the
    default directory, for a key with an entry its own directory.  After
    [setWorkingDirectory k p] the answer for [k] is whether [p] is
    non-empty, whatever the default; the answer for another key is
    unchanged. *)
Theorem hasWorkingDirectory_answer
    (now now' : Z) (k p : string) (sm : SessionManager.t) :
  (sessions sm !! k = None →
   (hasWorkingDirectory now k sm).2 = Js.truthy_ostring (defaultWorkingDirectory sm))
  ∧ (∀ s, sessions sm !! k = Some s →
          (hasWorkingDirectory now k sm).2 = Js.truthy_ostring (workingDirectory s))
  ∧ (hasWorkingDirectory now' k (setWorkingDirectory now k p sm)).2
    = Js.truthy_string p
  ∧ (∀ k', k' ≠ k →
           (hasWorkingDirectory now' k' (setWorkingDirectory now k p sm)).2
           = (hasWorkingDirectory now' k' sm).2).
Proof.
  split; [|split; [|split]].
  - intros Hn. by rewrite hasWorkingDirectory_eq, Hn.
  - intros s Hs. by rewrite hasWorkingDirectory_eq, Hs.
  - by rewrite hasWorkingDirectory_eq, setWorkingDirectory_lookup.
  - intros k' Hne. rewrite !hasWorkingDirectory_eq.
    rewrite setWorkingDirectory_other; [|done].
    by rewrite setWorkingDirectory_default.
Qed.

(** A key that was never seen, under a bridge without default directory,
    before and after a [/cd]. *)
Lemma hasWorkingDirectory_witness :
  (hasWorkingDirectory 1 "u" (create None)).2 = false
  ∧ (hasWorkingDirectory 2 "u" (setWorkingDirectory 1 "u" "/proj" (create None))).2
    = true.
Proof.
  destruct (hasWorkingDirectory_answer 1 2 "u" "/proj" (create None))
    as (Habs & _ & Hset & _).
  split; [apply Habs; vm_compute; reflexivity | exact Hset].
Defined.

End SessionManagerLaws.


(** ** Strings as lists of characters *)

Module StringFacts.

Abbreviation chars := String.list_ascii_of_string.

Lemma chars_inj a b : chars a = chars b → a = b.
Proof.
  intros H. rewrite <- (String.string_of_list_ascii_of_string a),
    <- (String.string_of_list_ascii_of_string b). by rewrite H.
Qed.

Lemma chars_app a b : chars (a +:+ b) = chars a ++ chars b.
Proof. induction a as [|c a IH]; simpl; [done|]. by rewrite IH. Qed.

Lemma length_chars s : String.length s = length (chars s).
Proof. induction s as [|c s IH]; simpl; [done|]. by rewrite IH. Qed.


Lemma chars_rev_app a b : chars (String.rev_app a b) = reverse (chars a) ++ chars b.
Proof.
  revert b. induction a as [|c a IH]; intros b; simpl; [done|].
  rewrite IH, reverse_cons. simpl. by rewrite <- app_assoc.
Qed.

Lemma chars_rev s : chars (String.rev s) = reverse (chars s).
Proof. unfold String.rev. rewrite chars_rev_app. simpl. by rewrite app_nil_r. Qed.

Lemma rev_rev s : String.rev (String.rev s) = s.
Proof. apply chars_inj. by rewrite !chars_rev, reverse_involutive. Qed.

Lemma chars_slice0 n s : chars (Js.slice0 n s) = take n (chars s).
Proof.
  unfold Js.slice0. revert n. induction s as [|c s IH]; intros [|n]; simpl; try done.
  by rewrite IH.
Qed.

Lemma substring_drop i m s :
  chars (String.substring i m s) = take m (drop i (chars s)).
Proof.
  revert i m. induction s as [|c s IH]; intros [|i] [|m]; simpl; try done.
  f_equal. apply (IH 0%nat).
Qed.

Lemma chars_slice_from i s : chars (Js.slice_from i s) = drop i (chars s).
Proof.
  unfold Js.slice_from. rewrite substring_drop, length_chars.
  apply take_ge. rewrite length_drop. lia.
Qed.

Lemma chars_drop_str n s : chars (StreamProcessor.drop_str n s) = drop n (chars s).
Proof.
  revert n. induction s as [|c s IH]; intros [|n]; simpl; first [done|apply IH].
Qed.

Lemma chars_toLowerCase s : chars (Js.toLowerCase s) = Js.lower_ascii <$> chars s.
Proof. induction s as [|c s IH]; simpl; [done|]. by rewrite IH. Qed.

Lemma truthy_chars s : Js.truthy_string s = true ↔ chars s ≠ [].
Proof. destruct s; simpl; split; done. Qed.


Lemma length_slice_last n s :
  String.length (Js.slice_last n s) = (n `min` String.length s)%nat.
Proof.
  unfold Js.slice_last. rewrite !length_chars, chars_slice_from, length_drop.
  rewrite <- length_chars. lia.
Qed.

End StringFacts.
(** ** StreamProcessor: session identifier and tool-call list *)

Module StreamProcessorLaws.
Import CardBuilder Sdk StreamProcessor StreamProcessorFacts.

(** *** Folding in two parts *)

Lemma run_split ms1 ms2 : ∀ p,
  run p (ms1 ++ ms2)
  = ((run (run p ms1).1 ms2).1, (run p ms1).2 ++ (run (run p ms1).1 ms2).2).
Proof.
  induction ms1 as [|m ms1 IH]; intros p; simpl.
  - by destruct (run p ms2).
  - destruct (processMessage m p) as [p1 s]. rewrite IH.
    destruct (run p1 ms1) as [p2 ss]; simpl.
    by destruct (run p2 ms2).
Qed.

Lemma run_snoc ms m p :
  (run p (ms ++ [m])).1 = (processMessage m (run p ms).1).1.
Proof.
  rewrite run_split; simpl.
  destruct (processMessage m (run p ms).1). done.
Qed.

Lemma run_snapshots_length ms : ∀ p, length (run p ms).2 = length ms.
Proof.
  induction ms as [|m ms IH]; intros p; simpl; [done|].
  destruct (processMessage m p) as [p1 s]. specialize (IH p1).
  destruct (run p1 ms). simpl in *. by rewrite IH.
Qed.

(** The processor after the first [S i] events is the one that returned
    the [i]-th card state. *)
Lemma run_take_S ms p i m :
  ms !! i = Some m →
  (run p (take (S i) ms)).1 = (processMessage m (run p (take i ms)).1).1.
Proof.
  intros Hm. rewrite (take_S_r _ _ _ Hm). apply run_snoc.
Qed.

(** *** The session identifier *)

Lemma completeCurrentTool_sessionId p :
  sessionId (completeCurrentTool p) = sessionId p.
Proof.
  unfold completeCurrentTool. destruct (currentToolName p) as [nm|]; [|done].
  by destruct (Js.truthy_string nm).
Qed.

Lemma addToolCall_sessionId nm input p :
  sessionId (addToolCall nm input p) = sessionId p.
Proof. unfold addToolCall; simpl. apply completeCurrentTool_sessionId. Qed.

Lemma processBlock_sessionId parent p b :
  sessionId (processBlock parent p b) = sessionId p.
Proof.
  unfold processBlock.
  repeat case_match;
    rewrite ?addToolCall_sessionId, ?completeCurrentTool_sessionId; done.
Qed.

Lemma processAssistantMessage_sessionId m p :
  sessionId (processAssistantMessage m p) = sessionId p.
Proof.
  unfold processAssistantMessage. destruct (content m) as [blocks|]; [|done].
  revert p. induction blocks as [|b blocks IH]; intros p; simpl; [done|].
  by rewrite IH, processBlock_sessionId.
Qed.

Lemma processStreamEvent_sessionId m p :
  sessionId (processStreamEvent m p) = sessionId p.
Proof.
  unfold processStreamEvent.
  repeat case_match; rewrite ?addToolCall_sessionId; done.
Qed.

Lemma processMessage_sessionId m p :
  sessionId (processMessage m p).1 = sessionId (captureSession m p).
Proof.
  unfold processMessage. repeat case_match; simpl;
    rewrite ?processAssistantMessage_sessionId, ?processStreamEvent_sessionId;
    done.
Qed.

Lemma captureSession_kept m p :
  Js.truthy_ostring (sessionId p) = true →
  sessionId (captureSession m p) = sessionId p.
Proof.
  intros Htr. unfold captureSession. rewrite Htr.
  by rewrite andb_false_r.
Qed.

Lemma captureSession_taken m p :
  Js.truthy_ostring (sessionId p) = false →
  Js.truthy_ostring (session_id m) = true →
  sessionId (captureSession m p) = session_id m.
Proof. intros Hf Ht. unfold captureSession. by rewrite Hf, Ht. Qed.

Lemma captureSession_skipped m p :
  Js.truthy_ostring (session_id m) = false →
  sessionId (captureSession m p) = sessionId p.
Proof. intros Hf. unfold captureSession. by rewrite Hf. Qed.

(** X4. The session identifier of a processor is the first non-empty
    [session_id] the events have carried: once captured it is never
    replaced, whatever the later events carry, and events without one leave
    it as it is. *)
Theorem session_id_is_the_first_seen (p : StreamProcessor.t) (ms : list SDKMessage) :
  (Js.truthy_ostring (sessionId p) = true →
   getSessionId (run p ms).1 = sessionId p)
  ∧ (Js.truthy_ostring (sessionId p) = false →
     getSessionId (run p ms).1
     = match List.find (λ m, Js.truthy_ostring (session_id m)) ms with
       | Some m => session_id m
       | None => sessionId p
       end).
Proof.
  unfold getSessionId.
  assert (Hkept : ∀ ms p, Js.truthy_ostring (sessionId p) = true →
                          sessionId (run p ms).1 = sessionId p).
  { clear. induction ms as [|m ms IH]; intros p Htr; simpl; [done|].
    pose proof (processMessage_sessionId m p) as H1.
    rewrite (captureSession_kept m p Htr) in H1.
    destruct (processMessage m p) as [p1 s]; simpl in H1.
    specialize (IH p1). rewrite H1 in IH. specialize (IH Htr).
    by destruct (run p1 ms). }
  split; [apply Hkept|].
  revert p. induction ms as [|m ms IH]; intros p Hf; simpl; [done|].
  pose proof (processMessage_sessionId m p) as H1.
  destruct (Js.truthy_ostring (session_id m)) eqn:Hm.
  - rewrite (captureSession_taken m p Hf Hm) in H1.
    destruct (processMessage m p) as [p1 s]; simpl in H1.
    assert (Htr : Js.truthy_ostring (sessionId p1) = true) by (by rewrite H1).
    pose proof (Hkept ms p1 Htr) as H2.
    destruct (run p1 ms); simpl in *. congruence.
  - rewrite (captureSession_skipped m p Hm) in H1.
    destruct (processMessage m p) as [p1 s]; simpl in H1.
    assert (Hf1 : Js.truthy_ostring (sessionId p1) = false) by (by rewrite H1).
    specialize (IH p1 Hf1). rewrite H1 in IH.
    by destruct (run p1 ms).
Qed.

(** Two events that carry different identifiers: the first one stays. *)
Lemma session_id_witness :
  getSessionId
    (run (create "hi")
       [Examples.base;
        {| type := "assistant"; subtype := None; session_id := Some "sess-2";
           message := None; duration_ms := None; total_cost_usd := None;
           result := None; errors := None; event := None;
           parent_tool_use_id := ParentNull |}]).1 = Some "sess-1".
Proof.
  destruct (session_id_is_the_first_seen (create "hi")
              [Examples.base;
               {| type := "assistant"; subtype := None; session_id := Some "sess-2";
                  message := None; duration_ms := None; total_cost_usd := None;
                  result := None; errors := None; event := None;
                  parent_tool_use_id := ParentNull |}]) as [_ H].
  exact (H eq_refl).
Defined.


(** *** The tool-call list only grows, and entries only close *)

Lemma same_entry_refl a : same_entry a a.
Proof. by repeat split. Qed.

Lemma same_entry_trans a b c : same_entry a b → same_entry b c → same_entry a c.
Proof.
  intros (?&?&?) (?&?&?). repeat split; [congruence..|]. auto.
Qed.

Lemma same_entry_set_done a : same_entry a (set_done a).
Proof. by repeat split. Qed.

Lemma Forall2_same_refl l : Forall2 same_entry l l.
Proof. induction l; constructor; auto using same_entry_refl. Qed.

Lemma continues_refl l : continues l l.
Proof. exists l, []. split; [by rewrite app_nil_r|apply Forall2_same_refl]. Qed.

Lemma continues_trans l1 l2 l3 :
  continues l1 l2 → continues l2 l3 → continues l1 l3.
Proof.
  intros (k1 & m1 & -> & H1) (k2 & m2 & -> & H2).
  apply Forall2_app_inv_l in H2 as (k2a & k2b & Ha & Hb & ->).
  exists k2a, (k2b ++ m2). split; [by rewrite app_assoc|].
  clear Hb. revert k2a Ha. induction H1 as [|a b l1 k1 Hab H1 IH]; intros k2a Ha.
  - inversion Ha. constructor.
  - inversion Ha as [|? c ? k2a' Hbc Hrest]; subst.
    constructor; [by eapply same_entry_trans|]. by apply IH.
Qed.

Lemma continues_same l l' : Forall2 same_entry l l' → continues l l'.
Proof. intros H. exists l', []. by rewrite app_nil_r. Qed.

Lemma continues_app l more : continues l (l ++ more).
Proof. exists l, more. split; [done|apply Forall2_same_refl]. Qed.

Lemma complete_first_same nm l : Forall2 same_entry l (complete_first nm l).
Proof.
  induction l as [|tc l IH]; simpl; [constructor|].
  destruct (String.eqb (name tc) nm && is_running tc).
  - constructor; [apply same_entry_set_done|apply Forall2_same_refl].
  - constructor; [apply same_entry_refl|done].
Qed.

Lemma set_done_all_same l : Forall2 same_entry l (set_done <$> l).
Proof. induction l; simpl; constructor; auto using same_entry_set_done. Qed.

Lemma completeCurrentTool_continues p :
  continues (toolCalls p) (toolCalls (completeCurrentTool p)).
Proof.
  unfold completeCurrentTool. destruct (currentToolName p) as [nm|];
    [|apply continues_refl].
  destruct (Js.truthy_string nm); [|apply continues_refl].
  simpl. apply continues_same, complete_first_same.
Qed.

Lemma addToolCall_continues nm input p :
  continues (toolCalls p) (toolCalls (addToolCall nm input p)).
Proof.
  unfold addToolCall; simpl.
  eapply continues_trans; [apply completeCurrentTool_continues|].
  apply continues_app.
Qed.

Lemma processBlock_continues parent p b :
  continues (toolCalls p) (toolCalls (processBlock parent p b)).
Proof.
  unfold processBlock.
  repeat case_match;
    auto using continues_refl, addToolCall_continues, completeCurrentTool_continues.
Qed.

Lemma processAssistantMessage_continues m p :
  continues (toolCalls p) (toolCalls (processAssistantMessage m p)).
Proof.
  unfold processAssistantMessage.
  destruct (content m) as [blocks|]; [|apply continues_refl].
  revert p. induction blocks as [|b blocks IH]; intros p; simpl;
    [apply continues_refl|].
  eapply continues_trans; [apply processBlock_continues|apply IH].
Qed.

Lemma processStreamEvent_continues m p :
  continues (toolCalls p) (toolCalls (processStreamEvent m p)).
Proof.
  unfold processStreamEvent.
  repeat case_match; auto using continues_refl, addToolCall_continues.
Qed.

Lemma captureSession_toolCalls m p : toolCalls (captureSession m p) = toolCalls p.
Proof. unfold captureSession. by destruct (_ && _). Qed.

Lemma processMessage_continues m p :
  continues (toolCalls p) (toolCalls (processMessage m p).1).
Proof.
  rewrite <- (captureSession_toolCalls m p).
  unfold processMessage. repeat case_match; simpl;
    auto using continues_refl, processAssistantMessage_continues,
      processStreamEvent_continues.
  apply continues_same, set_done_all_same.
Qed.

Lemma run_continues ms : ∀ p, continues (toolCalls p) (toolCalls (run p ms).1).
Proof.
  induction ms as [|m ms IH]; intros p; simpl; [apply continues_refl|].
  pose proof (processMessage_continues m p) as H1.
  destruct (processMessage m p) as [p1 s]; simpl in H1.
  specialize (IH p1). destruct (run p1 ms); simpl in *.
  by eapply continues_trans.
Qed.

(** The tool calls of a returned card state are those of the processor
    that returned it. *)
Lemma processMessage_card_toolCalls m p :
  CardBuilder.toolCalls (processMessage m p).2 = toolCalls (processMessage m p).1.
Proof. unfold processMessage. by repeat case_match. Qed.

Lemma run_card_toolCalls ms p i s :
  (run p ms).2 !! i = Some s →
  CardBuilder.toolCalls s = toolCalls (run p (take (S i) ms)).1.
Proof.
  intros Hs.
  assert (Hi : (i < length ms)%nat).
  { rewrite <- (run_snapshots_length ms p). by eapply lookup_lt_Some. }
  destruct (lookup_lt_is_Some_2 ms i Hi) as [m Hm].
  rewrite (run_lookup ms p i m s Hm Hs), (run_take_S ms p i m Hm).
  apply processMessage_card_toolCalls.
Qed.

(** X5. Over any event sequence the tool-call list of the card states only
    grows at its end: a later card state lists the entries of an earlier
    one first, in the same order, with the same names and details, and an
    entry shown as done is never shown as running again. *)
Theorem tool_call_list_is_stable
    (p : StreamProcessor.t) (ms : list SDKMessage) (i j : nat) (si sj : CardState) :
  (i ≤ j)%nat →
  (run p ms).2 !! i = Some si →
  (run p ms).2 !! j = Some sj →
  continues (toolCalls p) (CardBuilder.toolCalls si)
  ∧ continues (CardBuilder.toolCalls si) (CardBuilder.toolCalls sj).
Proof.
  intros Hij Hi Hj.
  rewrite (run_card_toolCalls ms p i si Hi), (run_card_toolCalls ms p j sj Hj).
  split; [apply run_continues|].
  assert (Hsplit : take (S j) ms = take (S i) ms ++ drop (S i) (take (S j) ms)).
  { rewrite <- (take_drop (S i) (take (S j) ms)) at 1.
    rewrite take_take. by replace (S i `min` S j)%nat with (S i) by lia. }
  rewrite Hsplit, run_split; simpl. apply run_continues.
Qed.

(** A tool opened by a stream event, closed by a tool result, and the
    next tool: the first entry keeps its place and stays done. *)
Lemma tool_call_list_witness :
  let ms :=
    [Examples.block_start ParentNull "tool_use" (Some "Read");
     Examples.assistant ParentNull [Examples.tool_result];
     Examples.block_start ParentNull "tool_use" (Some "Bash")] in
  continues [mkToolCall "Read" "" tool_running]
    [mkToolCall "Read" "" tool_done; mkToolCall "Bash" "" tool_running].
Proof.
  intros ms.
  destruct (tool_call_list_is_stable (create "hi") ms 0 2
              (mkCardState running "hi" "" [mkToolCall "Read" "" tool_running]
                 None None None)
              (mkCardState running "hi" ""
                 [mkToolCall "Read" "" tool_done; mkToolCall "Bash" "" tool_running]
                 None None None)) as [_ H];
    [lia | vm_compute; reflexivity | vm_compute; reflexivity | exact H].
Defined.


(** *** At most one tool call is open *)

Lemma all_done_open_last p : all_done (toolCalls p) → open_last p.
Proof.
  intros Hall i tc Hi Hrun. unfold all_done in Hall.
  rewrite Forall_lookup in Hall. specialize (Hall i tc Hi). congruence.
Qed.

Lemma complete_first_closes nm l :
  (∀ i tc, l !! i = Some tc → is_running tc = true →
           S i = length l ∧ name tc = nm) →
  all_done (complete_first nm l).
Proof.
  induction l as [|tc l IH]; intros Hopen; simpl; [constructor|].
  destruct (String.eqb (name tc) nm && is_running tc) eqn:E.
  - apply andb_true_iff in E as [_ Hrun].
    destruct (Hopen 0%nat tc eq_refl Hrun) as [Hlen _].
    simpl in Hlen. destruct l; [|discriminate].
    constructor; [done|constructor].
  - constructor.
    + destruct (is_running tc) eqn:Hrun; [|done].
      destruct (Hopen 0%nat tc eq_refl Hrun) as [_ Hnm].
      apply String.eqb_eq in Hnm. rewrite Hnm in E. discriminate.
    + apply IH. intros i x Hi Hx.
      destruct (Hopen (S i) x Hi Hx) as [Hlen Hnm]. simpl in Hlen.
      split; [lia|done].
Qed.

Lemma completeCurrentTool_all_done p :
  open_last p → all_done (toolCalls (completeCurrentTool p)).
Proof.
  intros Hopen.
  assert (Hnone : ∀ i tc, toolCalls p !! i = Some tc → is_running tc = true →
                          currentToolName p = Some (name tc)
                          ∧ Js.truthy_string (name tc) = true).
  { intros i tc Hi Hr. by destruct (Hopen i tc Hi Hr) as (_ & ? & ?). }
  unfold completeCurrentTool.
  destruct (currentToolName p) as [nm|] eqn:Hcur.
  - destruct (Js.truthy_string nm) eqn:Htr; simpl.
    + apply complete_first_closes. intros i tc Hi Hr.
      destruct (Hopen i tc Hi Hr) as (Hlen & Hc & _).
      split; [done|congruence].
    + apply Forall_lookup. intros i tc Hi.
      destruct (is_running tc) eqn:Hr; [|done].
      destruct (Hnone i tc Hi Hr) as [Hc Ht]. congruence.
  - apply Forall_lookup. intros i tc Hi.
    destruct (is_running tc) eqn:Hr; [|done].
    destruct (Hnone i tc Hi Hr) as [Hc _]. congruence.
Qed.

Lemma addToolCall_open_last nm input p :
  Js.truthy_string nm = true → open_last p → open_last (addToolCall nm input p).
Proof.
  intros Htr Hopen.
  pose proof (completeCurrentTool_all_done p Hopen) as Hall.
  intros i tc Hi Hr. unfold addToolCall in *; simpl in *.
  unfold all_done in Hall. rewrite Forall_lookup in Hall.
  rewrite length_app; simpl.
  destruct (decide (i < length (toolCalls (completeCurrentTool p)))%nat) as [Hlt|Hge].
  - rewrite lookup_app_l in Hi by done. specialize (Hall i tc Hi). congruence.
  - rewrite lookup_app_r in Hi by lia.
    destruct (i - length (toolCalls (completeCurrentTool p)))%nat eqn:Ed;
      [|by destruct n].
    simpl in Hi. inversion Hi; subst; simpl.
    split; [lia|done].
Qed.

Lemma processBlock_open_last parent p b :
  open_last p → open_last (processBlock parent p b).
Proof.
  intros Hopen. unfold processBlock.
  destruct (String.eqb (block_type b) "text" && Js.truthy_ostring (block_text b)).
  { by destruct (top_level parent). }
  destruct (String.eqb (block_type b) "tool_use"
            && Js.truthy_ostring (block_name b)) eqn:E.
  { apply andb_true_iff in E as [_ E].
    apply addToolCall_open_last; [|done]. by destruct (block_name b). }
  destruct (String.eqb (block_type b) "tool_result"); [|done].
  by apply all_done_open_last, completeCurrentTool_all_done.
Qed.

Lemma processAssistantMessage_open_last m p :
  open_last p → open_last (processAssistantMessage m p).
Proof.
  unfold processAssistantMessage. destruct (content m) as [blocks|]; [|done].
  revert p. induction blocks as [|b blocks IH]; intros p Hopen; simpl; [done|].
  by apply IH, processBlock_open_last.
Qed.

Lemma processStreamEvent_open_last m p :
  open_last p → open_last (processStreamEvent m p).
Proof.
  intros Hopen. unfold processStreamEvent.
  destruct (event m) as [ev|]; [|done].
  destruct (negb (top_level (parent_tool_use_id m))); [done|].
  destruct (String.eqb (event_type ev) "content_block_start").
  { destruct (event_content_block ev) as [b|]; [|done].
    destruct (String.eqb (start_type b) "tool_use"
              && Js.truthy_ostring (start_name b)) eqn:E; [|done].
    apply andb_true_iff in E as [_ E].
    apply addToolCall_open_last; [|done]. by destruct (start_name b). }
  destruct (String.eqb (event_type ev) "content_block_delta"); [|done].
  destruct (event_delta ev) as [d|]; [|done].
  by destruct (_ && _).
Qed.

Lemma captureSession_open_last m p : open_last p → open_last (captureSession m p).
Proof. unfold captureSession. by destruct (_ && _). Qed.

Lemma processMessage_open_last m p :
  open_last p → open_last (processMessage m p).1.
Proof.
  intros Hopen. apply (captureSession_open_last m) in Hopen.
  unfold processMessage. repeat case_match; simpl;
    auto using processAssistantMessage_open_last, processStreamEvent_open_last.
  apply all_done_open_last; simpl. apply Forall_fmap, Forall_true. done.
Qed.

Lemma run_open_last ms : ∀ p, open_last p → open_last (run p ms).1.
Proof.
  induction ms as [|m ms IH]; intros p Hopen; simpl; [done|].
  pose proof (processMessage_open_last m p Hopen) as H1.
  destruct (processMessage m p) as [p1 s]; simpl in H1.
  specialize (IH p1 H1). by destruct (run p1 ms).
Qed.

Lemma create_open_last prompt : open_last (create prompt).
Proof. intros i tc Hi. simpl in Hi. by rewrite lookup_nil in Hi. Qed.

(** X6. In every card state returned while folding any event sequence
    with a new processor, at most one tool call is running, and it is the
    last entry of the list: opening a tool closes the one that was open. *)
Theorem only_the_last_tool_call_runs
    (prompt : string) (ms : list SDKMessage) (i j : nat) (s : CardState)
    (tc : ToolCall) :
  (run (create prompt) ms).2 !! i = Some s →
  CardBuilder.toolCalls s !! j = Some tc →
  is_running tc = true →
  S j = length (CardBuilder.toolCalls s)
  ∧ ∀ j' tc', CardBuilder.toolCalls s !! j' = Some tc' →
              is_running tc' = true → j' = j.
Proof.
  intros Hs Hj Hr.
  rewrite (run_card_toolCalls ms (create prompt) i s Hs) in *.
  pose proof (run_open_last (take (S i) ms) (create prompt)
                (create_open_last prompt)) as Hopen.
  destruct (Hopen j tc Hj Hr) as [Hlen _]. split; [done|].
  intros j' tc' Hj' Hr'. destruct (Hopen j' tc' Hj' Hr') as [Hlen' _]. lia.
Qed.

(** Three tools opened one after the other: only the third is running. *)
Lemma only_the_last_witness :
  let ms :=
    [Examples.block_start ParentNull "tool_use" (Some "Read");
     Examples.block_start ParentNull "tool_use" (Some "Read");
     Examples.assistant ParentNull
       [Examples.tool_use "t3" "Bash" (Js.JObj [("command", Js.JStr "ls")])]] in
  CardBuilder.toolCalls <$> (run (create "hi") ms).2 !! 2%nat
    = Some [mkToolCall "Read" "" tool_done; mkToolCall "Read" "" tool_done;
            mkToolCall "Bash" "`ls`" tool_running]
  ∧ (3 = 3)%nat.
Proof.
  intros ms. split; [vm_compute; reflexivity|].
  destruct (only_the_last_tool_call_runs "hi" ms 2 2
              (mkCardState running "hi" ""
                 [mkToolCall "Read" "" tool_done; mkToolCall "Read" "" tool_done;
                  mkToolCall "Bash" "`ls`" tool_running] None None None)
              (mkToolCall "Bash" "`ls`" tool_running)) as [H _];
    [vm_compute; reflexivity | reflexivity | reflexivity | exact H].
Defined.


(** *** A tool that is streamed and then delivered in full *)

Lemma set_done_id tc : is_running tc = false → set_done tc = tc.
Proof. destruct tc as [n d []]; [discriminate|done]. Qed.

Lemma all_done_set_done l : all_done l → set_done <$> l = l.
Proof.
  induction 1 as [|tc l Htc _ IH]; [done|].
  by rewrite fmap_cons, IH, set_done_id.
Qed.

Lemma complete_first_set_done nm l :
  (∀ i tc, l !! i = Some tc → is_running tc = true →
           S i = length l ∧ name tc = nm) →
  complete_first nm l = set_done <$> l.
Proof.
  induction l as [|tc l IH]; intros Hopen; simpl; [done|].
  destruct (String.eqb (name tc) nm && is_running tc) eqn:E.
  - apply andb_true_iff in E as [_ Hrun].
    destruct (Hopen 0%nat tc eq_refl Hrun) as [Hlen _].
    simpl in Hlen. by destruct l.
  - assert (Hdone : is_running tc = false).
    { destruct (is_running tc) eqn:Hrun; [|done].
      destruct (Hopen 0%nat tc eq_refl Hrun) as [_ Hnm].
      apply String.eqb_eq in Hnm. rewrite Hnm in E. discriminate. }
    rewrite (set_done_id tc Hdone). f_equal. apply IH.
    intros i x Hi Hx. destruct (Hopen (S i) x Hi Hx) as [Hlen Hnm].
    simpl in Hlen. split; [lia|done].
Qed.

Lemma completeCurrentTool_set_done p :
  open_last p → toolCalls (completeCurrentTool p) = set_done <$> toolCalls p.
Proof.
  intros Hopen.
  pose proof (completeCurrentTool_all_done p Hopen) as Hall.
  unfold completeCurrentTool in *.
  destruct (currentToolName p) as [nm|] eqn:Hcur.
  - destruct (Js.truthy_string nm) eqn:Htr; simpl in *.
    + apply complete_first_set_done. intros i tc Hi Hr.
      destruct (Hopen i tc Hi Hr) as (Hlen & Hc & _). split; [done|congruence].
    + by rewrite all_done_set_done.
  - by rewrite all_done_set_done.
Qed.

Lemma addToolCall_toolCalls nm input p :
  Js.truthy_string nm = true → open_last p →
  toolCalls (addToolCall nm input p)
  = (set_done <$> toolCalls p) ++ [mkToolCall nm (formatToolDetail nm input) tool_running].
Proof.
  intros Htr Hopen. unfold addToolCall; simpl.
  by rewrite completeCurrentTool_set_done.
Qed.

(** X7. A tool that is announced by a [content_block_start] stream event
    and then delivered by the full message appears twice in the tool-call
    list: the streamed entry, without detail, is closed, and a second entry
    with the detail of the full invocation is opened after it. *)
Theorem streamed_tool_is_listed_again
    (prompt : string) (ms : list SDKMessage) (m1 m2 : SDKMessage)
    (ev : StreamEvent) (b : StartBlock) (blk : ContentBlock) (nm : string) :
  type m1 = "stream_event" →
  top_level (parent_tool_use_id m1) = true →
  event m1 = Some ev →
  event_type ev = "content_block_start" →
  event_content_block ev = Some b →
  start_type b = "tool_use" →
  start_name b = Some nm →
  Js.truthy_string nm = true →
  type m2 = "assistant" →
  content m2 = Some [blk] →
  block_type blk = "tool_use" →
  block_name blk = Some nm →
  toolCalls (run (create prompt) (ms ++ [m1; m2])).1
  = (set_done <$> toolCalls (run (create prompt) ms).1)
    ++ [mkToolCall nm "" tool_done;
        mkToolCall nm (formatToolDetail nm (block_input blk)) tool_running].
Proof.
  intros Ht1 Htop Hev Hety Hcb Hst Hsn Htr Ht2 Hc Hbt Hbn.
  pose proof (run_open_last ms (create prompt) (create_open_last prompt)) as Hopen.
  change (ms ++ [m1; m2]) with (ms ++ [m1] ++ [m2]).
  rewrite app_assoc, run_snoc, run_snoc.
  set (p := (run (create prompt) ms).1) in *.
  assert (H1 : (processMessage m1 p).1
               = addToolCall nm Js.JUndefined (captureSession m1 p)).
  { unfold processMessage. rewrite Ht1; simpl.
    unfold processStreamEvent. rewrite Hev, Htop, Hety; simpl.
    rewrite Hcb, Hst, Hsn; simpl. by rewrite Htr. }
  assert (Hopen1 : open_last (processMessage m1 p).1).
  { by apply processMessage_open_last. }
  assert (H2 : (processMessage m2 (processMessage m1 p).1).1
               = addToolCall nm (block_input blk)
                   (captureSession m2 (processMessage m1 p).1)).
  { unfold processMessage at 1. rewrite Ht2; simpl.
    unfold processAssistantMessage. rewrite Hc; simpl.
    unfold processBlock. rewrite Hbt, Hbn; simpl. by rewrite Htr. }
  rewrite H2, addToolCall_toolCalls; [|done|by apply captureSession_open_last].
  rewrite captureSession_toolCalls, H1.
  rewrite addToolCall_toolCalls; [|done|by apply captureSession_open_last].
  rewrite captureSession_toolCalls, fmap_app; simpl.
  rewrite <- list_fmap_compose, <- app_assoc. simpl.
  f_equal.
Qed.

(** The [Read] tool, streamed and then delivered with its file path. *)
Lemma streamed_tool_witness :
  toolCalls
    (run (create "hi")
       ([] ++ [Examples.block_start ParentNull "tool_use" (Some "Read");
               Examples.assistant ParentNull
                 [Examples.tool_use "t1" "Read"
                    (Js.JObj [("file_path", Js.JStr "/a/b/c/d.ts")])]])).1
  = [mkToolCall "Read" "" tool_done;
     mkToolCall "Read" "`.../c/d.ts`" tool_running].
Proof.
  exact (streamed_tool_is_listed_again "hi" []
           (Examples.block_start ParentNull "tool_use" (Some "Read"))
           (Examples.assistant ParentNull
              [Examples.tool_use "t1" "Read"
                 (Js.JObj [("file_path", Js.JStr "/a/b/c/d.ts")])])
           _ _ _ "Read"
           eq_refl eq_refl eq_refl eq_refl eq_refl eq_refl eq_refl eq_refl
           eq_refl eq_refl eq_refl eq_refl).
Defined.

(** *** Result events *)

(** X8. A result event closes every tool call of the card; its text
    replaces the accumulated response text in the returned card state when
    it is non-empty and only there: the processor keeps the accumulated
    text, and keeps the cost and duration of the event. *)
Theorem result_event_closes_the_card (m : SDKMessage) (p : StreamProcessor.t) :
  type m = "result" →
  let p' := (processMessage m p).1 in
  let s := (processMessage m p).2 in
  all_done (CardBuilder.toolCalls s)
  ∧ CardBuilder.toolCalls s = set_done <$> toolCalls p
  ∧ CardBuilder.responseText s
    = (if Js.truthy_ostring (result m) then default "" (result m)
       else responseText p)
  ∧ responseText p' = responseText p
  ∧ CardBuilder.costUsd s = total_cost_usd m
  ∧ CardBuilder.durationMs s = duration_ms m
  ∧ costUsd p' = total_cost_usd m
  ∧ durationMs p' = duration_ms m.
Proof.
  intros Hty p' s. subst p' s. rewrite (processMessage_result _ _ Hty).
  unfold processResultMessage; simpl.
  rewrite captureSession_toolCalls, captureSession_text.
  split; [|split; [done|split; [|done]]].
  - apply Forall_fmap, Forall_true. done.
  - unfold Js.or_string. destruct (result m) as [r|]; simpl; [|done].
    by destruct (Js.truthy_string r).
Qed.

(** A result with an empty text after a streamed answer and an open tool. *)
Lemma result_event_closes_witness :
  let p := (run (create "hi")
              [Examples.text_delta ParentNull "Answer";
               Examples.block_start ParentNull "tool_use" (Some "Bash")]).1 in
  let s := (processMessage (Examples.result_event (Some "success") (Some "") None)
              p).2 in
  CardBuilder.toolCalls s = [mkToolCall "Bash" "" tool_done]
  ∧ CardBuilder.responseText s = "Answer".
Proof.
  intros p s.
  destruct (result_event_closes_the_card
              (Examples.result_event (Some "success") (Some "") None) p eq_refl)
    as (_ & Htools & Htext & _).
  split; [exact Htools | exact Htext].
Defined.

(** *** The image paths written by the [Write] tool *)

Lemma mem_string_elem x l : mem_string x l = true ↔ x ∈ l.
Proof.
  unfold mem_string. rewrite existsb_exists. split.
  - intros (y & Hin & Heq). apply String.eqb_eq in Heq. subst.
    by apply list_elem_of_In.
  - intros Hin. exists x. split; [by apply list_elem_of_In|apply String.eqb_refl].
Qed.

Lemma set_add_NoDup x l : NoDup l → NoDup (set_add x l).
Proof.
  intros Hnd. unfold set_add. destruct (mem_string x l) eqn:E; [done|].
  apply NoDup_app. split; [done|]. split; [|apply NoDup_singleton].
  intros y Hy Hx. apply list_elem_of_singleton in Hx. subst.
  apply mem_string_elem in Hy. congruence.
Qed.

Lemma set_add_prefix x l : l `prefix_of` set_add x l.
Proof.
  unfold set_add. destruct (mem_string x l); [done|]. by exists [x].
Qed.

Lemma set_add_Forall (P : string → Prop) x l :
  P x → Forall P l → Forall P (set_add x l).
Proof.
  intros Hx Hl. unfold set_add. destruct (mem_string x l); [done|].
  apply Forall_app. split; [done|]. by constructor.
Qed.

Lemma completeCurrentTool_imagePaths p :
  imagePaths (completeCurrentTool p) = imagePaths p.
Proof.
  unfold completeCurrentTool. destruct (currentToolName p) as [nm|]; [|done].
  by destruct (Js.truthy_string nm).
Qed.

Lemma addToolCall_image_paths nm input p :
  image_paths_ok p →
  image_paths_ok (addToolCall nm input p)
  ∧ imagePaths p `prefix_of` imagePaths (addToolCall nm input p).
Proof.
  intros [Hnd Hall]. unfold image_paths_ok, addToolCall; simpl.
  rewrite completeCurrentTool_imagePaths.
  destruct (String.eqb nm "Write" && Js.truthy input && Js.typeof_object input);
    [|done].
  destruct (Js.truthy (Js.get input "file_path")
            && isImagePath (Js.as_string (Js.get input "file_path"))) eqn:E;
    [|done].
  apply andb_true_iff in E as [_ E].
  split; [split|]; auto using set_add_NoDup, set_add_Forall, set_add_prefix.
Qed.

Lemma completeCurrentTool_image_paths p :
  image_paths_ok p →
  image_paths_ok (completeCurrentTool p)
  ∧ imagePaths p `prefix_of` imagePaths (completeCurrentTool p).
Proof.
  intros Hok. unfold image_paths_ok.
  by rewrite completeCurrentTool_imagePaths.
Qed.

Lemma processBlock_image_paths parent p b :
  image_paths_ok p →
  image_paths_ok (processBlock parent p b)
  ∧ imagePaths p `prefix_of` imagePaths (processBlock parent p b).
Proof.
  intros Hok. unfold processBlock.
  destruct (String.eqb (block_type b) "text" && Js.truthy_ostring (block_text b)).
  { by destruct (top_level parent). }
  destruct (String.eqb (block_type b) "tool_use"
            && Js.truthy_ostring (block_name b)).
  { by apply addToolCall_image_paths. }
  destruct (String.eqb (block_type b) "tool_result"); [|done].
  by apply completeCurrentTool_image_paths.
Qed.

Lemma processAssistantMessage_image_paths m p :
  image_paths_ok p →
  image_paths_ok (processAssistantMessage m p)
  ∧ imagePaths p `prefix_of` imagePaths (processAssistantMessage m p).
Proof.
  unfold processAssistantMessage. destruct (content m) as [blocks|]; [|done].
  revert p. induction blocks as [|b blocks IH]; intros p Hok; simpl; [done|].
  destruct (processBlock_image_paths (parent_tool_use_id m) p b Hok) as [H1 H2].
  destruct (IH _ H1) as [H3 H4]. split; [done|]. by etrans.
Qed.

Lemma processStreamEvent_image_paths m p :
  image_paths_ok p →
  image_paths_ok (processStreamEvent m p)
  ∧ imagePaths p `prefix_of` imagePaths (processStreamEvent m p).
Proof.
  intros Hok. unfold processStreamEvent.
  repeat case_match; try (split; done); by apply addToolCall_image_paths.
Qed.

Lemma captureSession_imagePaths m p :
  imagePaths (captureSession m p) = imagePaths p.
Proof. unfold captureSession. by destruct (_ && _). Qed.

Lemma processMessage_image_paths m p :
  image_paths_ok p →
  image_paths_ok (processMessage m p).1
  ∧ imagePaths p `prefix_of` imagePaths (processMessage m p).1.
Proof.
  intros Hok.
  assert (Hok0 : image_paths_ok (captureSession m p)).
  { unfold image_paths_ok. by rewrite captureSession_imagePaths. }
  rewrite <- (captureSession_imagePaths m p).
  unfold processMessage. repeat case_match; simpl; try (split; done).
  - by apply processAssistantMessage_image_paths.
  - by apply processStreamEvent_image_paths.
Qed.

Lemma run_image_paths ms : ∀ p,
  image_paths_ok p →
  image_paths_ok (run p ms).1 ∧ imagePaths p `prefix_of` imagePaths (run p ms).1.
Proof.
  induction ms as [|m ms IH]; intros p Hok; simpl; [done|].
  destruct (processMessage_image_paths m p Hok) as [H1 H2].
  destruct (processMessage m p) as [p1 s]; simpl in *.
  destruct (IH p1 H1) as [H3 H4]. destruct (run p1 ms); simpl in *.
  split; [done|]. by etrans.
Qed.

(** X9. The image paths tracked by a processor, whatever events it has
    folded, are distinct, all have an image extension, and are kept in the
    order of their first [Write]: folding more events only adds paths at the
    end. *)
Theorem tracked_image_paths (prompt : string) (ms more : list SDKMessage) :
  NoDup (getImagePaths (run (create prompt) ms).1)
  ∧ Forall (λ x, isImagePath x = true) (getImagePaths (run (create prompt) ms).1)
  ∧ getImagePaths (run (create prompt) ms).1
      `prefix_of` getImagePaths (run (create prompt) (ms ++ more)).1.
Proof.
  unfold getImagePaths.
  assert (Hok0 : image_paths_ok (create prompt)).
  { split; [apply NoDup_nil_2|constructor]. }
  destruct (run_image_paths ms (create prompt) Hok0) as [[Hnd Hall] _].
  split; [done|]. split; [done|].
  rewrite run_split; simpl. by apply run_image_paths.
Qed.


(** *** Lengths of the tool details *)






(** *** Image paths: the extension test and the text scan *)

Abbreviation chars := String.list_ascii_of_string.
Abbreviation dot := "."%char.

Lemma lastIndexOf_dot_aux_none i s acc :
  dot ∉ chars s → Js.lastIndexOf_dot_aux i s acc = acc.
Proof.
  revert i acc. induction s as [|c s IH]; intros i acc Hno; simpl; [done|].
  simpl in Hno. apply not_elem_of_cons in Hno as [Hc Hs].
  rewrite IH by done. destruct (Ascii.eqb_spec c dot); [congruence|done].
Qed.

Lemma lastIndexOf_dot_aux_last i a b acc :
  dot ∉ chars b →
  Js.lastIndexOf_dot_aux i (a +:+ String dot b) acc = Some (i + String.length a)%nat.
Proof.
  intros Hno. revert i acc. induction a as [|c a IH]; intros i acc; simpl.
  - rewrite lastIndexOf_dot_aux_none by done. f_equal. lia.
  - rewrite IH. f_equal. lia.
Qed.

Lemma slice_last_dot_suffix a b :
  dot ∉ chars b → Js.slice_last_dot (a +:+ String dot b) = String dot b.
Proof.
  intros Hno. unfold Js.slice_last_dot, Js.lastIndexOf_dot.
  rewrite lastIndexOf_dot_aux_last by done. simpl.
  apply StringFacts.chars_inj.
  rewrite StringFacts.chars_slice_from, StringFacts.chars_app.
  rewrite StringFacts.length_chars. by rewrite drop_app_length.
Qed.

Lemma isImagePath_suffix a b :
  dot ∉ chars b →
  isImagePath (a +:+ String dot b)
  = mem_string (Js.toLowerCase (String dot b)) IMAGE_EXTENSIONS.
Proof. intros Hno. unfold isImagePath. by rewrite slice_last_dot_suffix. Qed.

Lemma lower_ascii_dot c : Js.lower_ascii c = dot → c = dot.
Proof. destruct c as [[] [] [] [] [] [] [] []]; vm_compute; congruence. Qed.

Lemma lower_dot_free x : dot ∉ chars (Js.toLowerCase x) → dot ∉ chars x.
Proof.
  rewrite StringFacts.chars_toLowerCase. intros Hno Hin. apply Hno.
  apply list_elem_of_fmap. exists dot. split; [by vm_compute|done].
Qed.

(** The extensions of the set start with their only dot. *)
Lemma extension_shape e :
  Js.toLowerCase e ∈ IMAGE_EXTENSIONS →
  ∃ x, e = String dot x ∧ dot ∉ chars x.
Proof.
  intros Hin.
  assert (Hshape : ∃ y, Js.toLowerCase e = String dot y ∧ dot ∉ chars y).
  { unfold IMAGE_EXTENSIONS in Hin.
    repeat (apply elem_of_cons in Hin as [->|Hin];
            [eexists; split; [reflexivity|];
             simpl; rewrite !not_elem_of_cons; repeat split;
             try discriminate; apply not_elem_of_nil|]).
    by apply elem_of_nil in Hin. }
  destruct Hshape as (y & Hy & Hno).
  destruct e as [|c x]; simpl in Hy; [discriminate|].
  injection Hy as Hc Hx. exists x.
  split; [by rewrite (lower_ascii_dot c Hc)|].
  apply lower_dot_free. by rewrite Hx.
Qed.

Lemma mem_string_length x :
  mem_string x IMAGE_EXTENSIONS = true → (4 ≤ String.length x)%nat.
Proof.
  intros H. apply mem_string_elem in H. unfold IMAGE_EXTENSIONS in H.
  repeat (apply elem_of_cons in H as [->|H]; [simpl; lia|]).
  by apply elem_of_nil in H.
Qed.

Lemma length_toLowerCase s : String.length (Js.toLowerCase s) = String.length s.
Proof.
  by rewrite !StringFacts.length_chars, StringFacts.chars_toLowerCase, length_fmap.
Qed.

Lemma isImagePath_no_dot s : dot ∉ chars s → isImagePath s = false.
Proof.
  intros Hno. unfold isImagePath, Js.slice_last_dot, Js.lastIndexOf_dot.
  rewrite lastIndexOf_dot_aux_none by done.
  destruct (mem_string _ _) eqn:E; [|done].
  apply mem_string_length in E. rewrite length_toLowerCase in E.
  rewrite StringFacts.length_chars, StringFacts.chars_slice_from, length_drop in E.
  rewrite <- StringFacts.length_chars in E. lia.
Qed.

(** X11. [isImagePath] looks only at the text from the last dot of the
    path on, without regard to letter case: a path that ends with one of
    the eight extensions, in any case, is an image path whatever precedes
    the extension, and a path without a dot never is (the index -1 makes
    the slice its last character). *)
Theorem image_extension_test (stem e s : string) :
  (Js.toLowerCase e ∈ IMAGE_EXTENSIONS → isImagePath (stem +:+ e) = true)
  ∧ (dot ∉ chars e →
     isImagePath (stem +:+ String dot e)
     = mem_string (Js.toLowerCase (String dot e)) IMAGE_EXTENSIONS)
  ∧ (dot ∉ chars s → isImagePath s = false).
Proof.
  split; [|split].
  - intros Hin. destruct (extension_shape e Hin) as (x & -> & Hno).
    rewrite isImagePath_suffix by done. by apply mem_string_elem.
  - apply isImagePath_suffix.
  - apply isImagePath_no_dot.
Qed.

(** An upper-case extension after a dotted directory name, and a file
    without extension. *)
Lemma image_extension_witness :
  isImagePath ("/tmp/v1.2/shot" +:+ ".PNG") = true
  ∧ isImagePath "/tmp/Makefile" = false.
Proof.
  destruct (image_extension_test "/tmp/v1.2/shot" ".PNG" "/tmp/Makefile")
    as (Hyes & _ & Hno).
  split.
  - apply Hyes.
    apply (bool_decide_eq_true_1 (Js.toLowerCase ".PNG" ∈ IMAGE_EXTENSIONS)).
    vm_compute. reflexivity.
  - apply Hno.
    apply (bool_decide_eq_true_1 (dot ∉ chars "/tmp/Makefile")).
    vm_compute. reflexivity.
Defined.


Lemma prefix_ci_take w : ∀ s,
  prefix_ci w s = true →
  Js.lower_ascii <$> take (String.length w) (chars s) = chars w.
Proof.
  induction w as [|a w IH]; intros s H; simpl; [done|].
  destruct s as [|c s]; simpl in *; [discriminate|].
  apply andb_true_iff in H as [Hc Hw]. apply Ascii.eqb_eq in Hc.
  f_equal; [done|]. apply (IH s Hw).
Qed.

Lemma match_extension_Some after e :
  match_extension after = Some e →
  ∃ w, w ∈ EXTENSION_ALTERNATIVES ∧ prefix_ci w after = true
       ∧ e = String.length w.
Proof.
  unfold match_extension. destruct (List.find _ _) as [w|] eqn:E; [|discriminate].
  intros [= <-]. apply find_some in E as [Hin Hp].
  exists w. split; [by apply list_elem_of_In|done].
Qed.

Lemma match_with_Some k rest n :
  match_with k rest = Some n →
  ∃ after w, drop_str k rest = String dot after
             ∧ w ∈ EXTENSION_ALTERNATIVES ∧ prefix_ci w after = true
             ∧ n = (k + 1 + String.length w)%nat.
Proof.
  unfold match_with. destruct (drop_str k rest) as [|c after] eqn:Ed; [discriminate|].
  destruct (Ascii.eqb_spec c dot) as [->|]; [|discriminate].
  destruct (match_extension after) as [e|] eqn:Ee; [|discriminate].
  intros [= <-]. apply match_extension_Some in Ee as (w & Hin & Hp & ->).
  by exists after, w.
Qed.

Lemma match_down_Some k rest n :
  match_down k rest = Some n → ∃ k', match_with k' rest = Some n.
Proof.
  induction k as [|k IH]; simpl; [discriminate|].
  destruct (match_with (S k) rest) as [n'|] eqn:E.
  - intros [= <-]. by exists (S k).
  - apply IH.
Qed.

Lemma alternative_is_extension w :
  w ∈ EXTENSION_ALTERNATIVES → String dot w ∈ IMAGE_EXTENSIONS.
Proof.
  unfold EXTENSION_ALTERNATIVES, IMAGE_EXTENSIONS. intros Hin.
  repeat (apply elem_of_cons in Hin as [->|Hin];
          [apply (bool_decide_eq_true_1 _); vm_compute; reflexivity|]).
  by apply elem_of_nil in Hin.
Qed.

(** A match of the pattern is an image path. *)
Lemma matched_path_is_image rest n :
  match_after_slash rest = Some n →
  isImagePath (String "/"%char (Js.slice0 n rest)) = true.
Proof.
  unfold match_after_slash. intros H.
  apply match_down_Some in H as (k & H).
  apply match_with_Some in H as (after & w & Hd & Hin & Hp & ->).
  assert (Hdrop : drop k (chars rest) = dot :: chars after).
  { by rewrite <- StringFacts.chars_drop_str, Hd. }
  assert (Hsplit : String "/"%char (Js.slice0 (k + 1 + String.length w) rest)
                   = String "/"%char (Js.slice0 k rest)
                     +:+ String dot (Js.slice0 (String.length w) after)).
  { apply StringFacts.chars_inj. simpl.
    rewrite StringFacts.chars_app; simpl.
    rewrite !StringFacts.chars_slice0. f_equal.
    rewrite <- Nat.add_assoc, <- take_take_drop, Hdrop. done. }
  rewrite Hsplit.
  assert (Hlow : Js.toLowerCase (String dot (Js.slice0 (String.length w) after))
                 = String dot w).
  { apply StringFacts.chars_inj. rewrite StringFacts.chars_toLowerCase.
    change (chars (String dot (Js.slice0 (String.length w) after)))
      with (dot :: chars (Js.slice0 (String.length w) after)).
    rewrite fmap_cons, StringFacts.chars_slice0, (prefix_ci_take w after Hp).
    done. }
  assert (Hext : Js.toLowerCase (String dot (Js.slice0 (String.length w) after))
                 ∈ IMAGE_EXTENSIONS).
  { rewrite Hlow. by apply alternative_is_extension. }
  destruct (extension_shape _ Hext) as (x & Hx & Hno).
  rewrite Hx, isImagePath_suffix by done. rewrite <- Hx.
  by apply mem_string_elem.
Qed.

Lemma scan_elems fuel : ∀ s x,
  x ∈ scan fuel s →
  isImagePath x = true ∧ Js.starts_with_char "/"%char x = true.
Proof.
  induction fuel as [|fuel IH]; intros s x Hin; simpl in Hin;
    [by apply elem_of_nil in Hin|].
  destruct s as [|c rest]; [by apply elem_of_nil in Hin|].
  destruct (Ascii.eqb_spec c "/"%char) as [->|]; [|by eapply IH].
  destruct (match_after_slash rest) as [n|] eqn:E; [|by eapply IH].
  apply elem_of_cons in Hin as [->|Hin]; [|by eapply IH].
  split; [by apply matched_path_is_image|done].
Qed.

Lemma scan_no_slash fuel : ∀ s, "/"%char ∉ chars s → scan fuel s = [].
Proof.
  induction fuel as [|fuel IH]; intros s Hno; simpl; [done|].
  destruct s as [|c rest]; [done|]. simpl in Hno.
  apply not_elem_of_cons in Hno as [Hc Hrest].
  destruct (Ascii.eqb_spec c "/"%char); [congruence|]. by apply IH.
Qed.

Lemma foldl_set_add l : ∀ acc,
  NoDup acc →
  NoDup (foldl (λ acc x, set_add x acc) acc l)
  ∧ ∀ x, x ∈ foldl (λ acc x, set_add x acc) acc l ↔ x ∈ acc ∨ x ∈ l.
Proof.
  induction l as [|y l IH]; intros acc Hnd; simpl.
  - split; [done|]. intros x. rewrite elem_of_nil. tauto.
  - destruct (IH (set_add y acc) (set_add_NoDup y acc Hnd)) as [H1 H2].
    split; [done|]. intros x. rewrite H2, elem_of_cons.
    unfold set_add. destruct (mem_string y acc) eqn:E.
    + apply mem_string_elem in E. split; [tauto|].
      intros [?|[->|?]]; auto.
    + rewrite elem_of_app, list_elem_of_singleton. tauto.
Qed.

(** X12. The paths [extractImagePaths] finds in a text are distinct, start
    with a slash, and all pass [isImagePath], the test applied to the paths
    written by the [Write] tool; a text without a slash yields none. *)
Theorem extracted_paths_are_image_paths (text : string) :
  NoDup (extractImagePaths text)
  ∧ Forall (λ x, isImagePath x = true ∧ Js.starts_with_char "/"%char x = true)
      (extractImagePaths text)
  ∧ ("/"%char ∉ chars text → extractImagePaths text = []).
Proof.
  unfold extractImagePaths.
  destruct (foldl_set_add (scan (S (String.length text)) text) []
              (NoDup_nil_2 (A := string))) as [Hnd Hin].
  split; [done|]. split.
  - apply Forall_forall. intros x Hx. apply Hin in Hx as [Hx|Hx];
      [by apply elem_of_nil in Hx|]. by eapply scan_elems.
  - intros Hno. by rewrite scan_no_slash.
Qed.

(** The paths of the test-suite, one of them mentioned twice. *)
Lemma extracted_paths_witness :
  extractImagePaths "see /tmp/a.PNG, /tmp/a.PNG and /home/u/b.jpeg?"
    = ["/tmp/a.PNG"; "/home/u/b.jpeg"]
  ∧ extractImagePaths "no images here" = [].
Proof.
  split; [vm_compute; reflexivity|].
  destruct (extracted_paths_are_image_paths "no images here") as (_ & _ & H).
  apply H. apply (bool_decide_eq_true_1 ("/"%char ∉ chars "no images here")).
  vm_compute. reflexivity.
Defined.

End StreamProcessorLaws.

(** ** AsyncQueue *)

Module AsyncQueueFacts.
Import AsyncQueue.

Section Facts.
Context {T : Type}.
Implicit Types (q : AsyncQueue.t T) (acts : list (AsyncQueue.action T)).

Lemma run_conserves acts : ∀ q,
  (run acts q).2 ++ queue (run acts q).1 = queue q ++ offered acts q.
Proof.
  unfold offered.
  induction acts as [|a acts IH]; intros q; simpl.
  - destruct (finished q); by rewrite app_nil_r.
  - destruct a as [x| |]; simpl.
    + rewrite IH. unfold enqueue. destruct (finished q) eqn:Hf; simpl;
        rewrite ?Hf; [done|]. by rewrite <- app_assoc.
    + rewrite IH. simpl. by destruct (finished q).
    + unfold next. destruct (queue q) as [|x rest] eqn:Hq.
      * destruct (finished q) eqn:Hf.
        -- rewrite IH, Hq, Hf. done.
        -- rewrite IH. simpl. done.
      * specialize (IH {| queue := rest; resolve := resolve q;
                          finished := finished q |}).
        destruct (run acts _) as [q2 got]; simpl in *. by rewrite IH.
Qed.

Lemma pull_drains n : ∀ q,
  finished q = true → (length (queue q) ≤ n)%nat →
  (pull n q).1 = (Item <$> queue q) ++ replicate (n - length (queue q)) Done
  ∧ queue (pull n q).2 = [] ∧ finished (pull n q).2 = true.
Proof.
  induction n as [|n IH]; intros q Hf Hlen; simpl.
  - destruct (queue q); simpl in *; [done|lia].
  - unfold next. destruct (queue q) as [|x rest] eqn:Hq; simpl in *.
    + rewrite Hf. specialize (IH q Hf). rewrite Hq in IH. simpl in IH.
      destruct (IH ltac:(lia)) as (H1 & H2 & H3).
      destruct (pull n q) as [ss q2]; simpl in *.
      rewrite H1, Nat.sub_0_r. done.
    + specialize (IH {| queue := rest; resolve := resolve q;
                        finished := finished q |} Hf).
      simpl in IH. destruct (IH ltac:(lia)) as (H1 & H2 & H3).
      destruct (pull n _) as [ss q2]; simpl in *. by rewrite H1.
Qed.

(** X13. Whatever the interleaving of producers and consumer, starting
    from a new queue, the elements the consumer has received followed by
    the elements still buffered are exactly the elements enqueued before the
    first [finish()], in the order of their [enqueue]: nothing is lost,
    duplicated or reordered, and what is enqueued after [finish()] is
    dropped. *)
Theorem queue_delivers_in_order acts :
  (run acts (create (T := T))).2 ++ queue (run acts create).1 = accepted acts.
Proof. by rewrite run_conserves. Qed.

(** X14. Once a queue is finished, the consumer receives the buffered
    elements in order and then the end of the iteration, again and again if
    it asks; it is never suspended, and later [enqueue] calls change
    nothing. *)
Theorem finished_queue_drains (q : AsyncQueue.t T) (x : T) (n : nat) :
  finished q = true →
  (length (queue q) ≤ n)%nat →
  (pull n q).1 = (Item <$> queue q) ++ replicate (n - length (queue q)) Done
  ∧ next (pull n q).2 = (Done, (pull n q).2)
  ∧ enqueue x q = q.
Proof.
  intros Hf Hlen. destruct (pull_drains n q Hf Hlen) as (H1 & H2 & H3).
  split; [done|]. split.
  - unfold next. by rewrite H2, H3.
  - unfold enqueue. by rewrite Hf.
Qed.

End Facts.

(** Two elements, [finish()], a late element; the consumer asks before,
    in between and after. *)
Lemma queue_delivers_witness :
  (run [Next; Enqueue "a"; Enqueue "b"; Next; Finish; Enqueue "late"; Next; Next]
     create).2 = ["a"; "b"].
Proof.
  pose proof (queue_delivers_in_order
                [Next; Enqueue "a"; Enqueue "b"; Next; Finish; Enqueue "late";
                 Next; Next]) as H.
  simpl in H. rewrite ?app_nil_r in H. exact H.
Defined.

Lemma finished_queue_witness :
  (pull 4 (finish (enqueue "b" (enqueue "a" create)))).1
  = [Item "a"; Item "b"; Done; Done].
Proof.
  destruct (finished_queue_drains
              (finish (enqueue "b" (enqueue "a" create))) "late" 4 eq_refl)
    as (H & _); [simpl; lia|]. exact H.
Defined.

End AsyncQueueFacts.

(** ** The bots configuration file *)

Module BotsConfigFacts.
Import BotsConfig.

Implicit Types (l : list BotEntry) (nm : string) (file : Parsed).

Lemma eqb_name_false (a b : string) : a ≠ b → String.eqb a b = false.
Proof. intros H. by apply String.eqb_neq. Qed.

Lemma find_absent nm l :
  List.find (λ b, String.eqb (name b) nm) l = None ↔ nm ∉ name <$> l.
Proof.
  induction l as [|b l IH]; simpl.
  - split; [intros _; apply not_elem_of_nil|done].
  - destruct (String.eqb (name b) nm) eqn:E.
    + apply String.eqb_eq in E. split; [done|]. intros H. exfalso. apply H.
      rewrite E. apply list_elem_of_here.
    + apply String.eqb_neq in E. rewrite IH, not_elem_of_cons.
      split; [intros H; split; [congruence|done]|by intros [_ H]].
Qed.

Lemma find_snoc nm l e :
  List.find (λ b, String.eqb (name b) nm) (l ++ [e])
  = match List.find (λ b, String.eqb (name b) nm) l with
    | Some b => Some b
    | None => if String.eqb (name e) nm then Some e else None
    end.
Proof.
  induction l as [|b l IH]; simpl; [done|].
  by destruct (String.eqb (name b) nm).
Qed.

Lemma findIndex_find nm l :
  findIndex nm l = None ↔ List.find (λ b, String.eqb (name b) nm) l = None.
Proof.
  induction l as [|b l IH]; simpl; [done|].
  destruct (String.eqb (name b) nm); [done|].
  destruct (findIndex nm l); simpl; [|done].
  split; [done|]. intros H. apply IH in H. done.
Qed.

Lemma findIndex_bound nm l i : findIndex nm l = Some i → (i < length l)%nat.
Proof.
  revert i. induction l as [|b l IH]; intros i; simpl; [done|].
  destruct (String.eqb (name b) nm).
  - intros [= <-]. lia.
  - destruct (findIndex nm l) as [j|]; simpl; [|done].
    intros [= <-]. specialize (IH j eq_refl). lia.
Qed.

Lemma find_delete_other nm nm' l i :
  findIndex nm l = Some i → nm' ≠ nm →
  List.find (λ b, String.eqb (name b) nm') (delete i l)
  = List.find (λ b, String.eqb (name b) nm') l.
Proof.
  revert i. induction l as [|b l IH]; intros i; simpl; [done|].
  destruct (String.eqb (name b) nm) eqn:E.
  - intros [= <-] Hne. simpl. apply String.eqb_eq in E.
    rewrite E, eqb_name_false; [done|congruence].
  - destruct (findIndex nm l) as [j|]; simpl; [|done].
    intros [= <-] Hne. simpl. rewrite (IH j eq_refl Hne). done.
Qed.

Lemma find_delete_same nm l i :
  findIndex nm l = Some i → NoDup (name <$> l) →
  List.find (λ b, String.eqb (name b) nm) (delete i l) = None.
Proof.
  revert i. induction l as [|b l IH]; intros i; simpl; [done|].
  rewrite NoDup_cons.
  destruct (String.eqb (name b) nm) eqn:E.
  - intros [= <-] [Hnotin _]. simpl. apply String.eqb_eq in E.
    apply find_absent. by rewrite <- E.
  - destruct (findIndex nm l) as [j|]; simpl; [|done].
    intros [= <-] [_ Hnd]. simpl. rewrite E. by apply IH.
Qed.

Lemma names_delete nm l i :
  findIndex nm l = Some i → ∃ ns1 ns2 : list string,
    name <$> l = ns1 ++ nm :: ns2 ∧ name <$> delete i l = ns1 ++ ns2.
Proof.
  revert i. induction l as [|b l IH]; intros i; simpl; [done|].
  destruct (String.eqb (name b) nm) eqn:E.
  - intros [= <-]. apply String.eqb_eq in E. exists [], (name <$> l).
    by rewrite E.
  - destruct (findIndex nm l) as [j|]; simpl; [|done].
    intros [= <-]. destruct (IH j eq_refl) as (ns1 & ns2 & H1 & H2).
    exists (name b :: ns1), ns2. unfold fmap in *. simpl. by rewrite H1, H2.
Qed.

Lemma getBotEntry_None nm file :
  getBotEntry nm file = None ↔ nm ∉ names file.
Proof.
  unfold getBotEntry, names, allNames. rewrite not_elem_of_app.
  destruct (feishuBots (readBotsConfig file)) as [lf|],
           (telegramBots (readBotsConfig file)) as [lt|]; simpl.
  - rewrite <- !find_absent.
    destruct (List.find _ lf), (List.find _ lt); intuition congruence.
  - rewrite <- !find_absent.
    destruct (List.find _ lf); simpl; [intuition congruence|].
    split; [|done]. intros _. split; [done|apply not_elem_of_nil].
  - rewrite <- !find_absent.
    destruct (List.find _ lt); simpl; [intuition congruence|].
    split; [|done]. intros _. split; [apply not_elem_of_nil|done].
  - split; [|done]. intros _. split; apply not_elem_of_nil.
Qed.

Lemma existsb_names nm ns :
  existsb (String.eqb nm) ns = true ↔ nm ∈ ns.
Proof.
  rewrite existsb_exists. split.
  - intros (x & Hin & E). apply String.eqb_eq in E. subst.
    by apply list_elem_of_In.
  - intros H. exists nm. split; [by apply list_elem_of_In|apply String.eqb_refl].
Qed.

Lemma NoDup_middle (x : string) (a b : list string) :
  NoDup (a ++ x :: b) → x ∉ a ++ b.
Proof. rewrite <- Permutation_middle, NoDup_cons. by intros [H _]. Qed.

Lemma NoDup_snoc_mid (x : string) (a b : list string) :
  x ∉ a ++ b → NoDup (a ++ b) → NoDup (a ++ x :: b).
Proof. intros H1 H2. rewrite <- Permutation_middle, NoDup_cons. done. Qed.

Lemma getBotEntry_is_Some nm file :
  is_Some (getBotEntry nm file) ↔ nm ∈ names file.
Proof.
  rewrite <- not_eq_None_Some, getBotEntry_None.
  destruct (decide (nm ∈ names file)); tauto.
Qed.

(** X15. A bot that [addBot] accepts is found again by [getBotEntry] under
    its name, on the platform it was added to and with the entry given; the
    answer of [getBotEntry] for any other name is unchanged, the file holds
    one bot more, and names that were pairwise distinct stay so. *)
Theorem added_bot_is_found (p : Platform) (e : BotEntry) file file' :
  addBot p e file = inr file' →
  getBotEntry (name e) file' = Some (p, e)
  ∧ (∀ nm, nm ≠ name e → getBotEntry nm file' = getBotEntry nm file)
  ∧ total file' = S (total file)
  ∧ (NoDup (names file) → NoDup (names file')).
Proof.
  unfold addBot. destruct (existsb _ _) eqn:Hex; [done|].
  assert (Hnew : name e ∉ names file).
  { intros Hin. apply existsb_names in Hin. unfold names in Hin. congruence. }
  pose proof Hnew as Habs. apply getBotEntry_None in Habs.
  unfold getBotEntry in Habs. unfold names, allNames in Hnew.
  apply not_elem_of_app in Hnew as [Hf Ht].
  unfold total, names, allNames, getBotEntry, writeBotsConfig.
  destruct (readBotsConfig file) as [lf lt]; simpl in *.
  destruct p; intros [= <-]; simpl.
  - apply find_absent in Hf. split; [|split; [|split]].
    + rewrite find_snoc.
      replace (List.find _ (bots lf)) with (@None BotEntry).
      by rewrite String.eqb_refl.
    + intros nm Hne. rewrite find_snoc.
      rewrite (eqb_name_false (name e) nm) by congruence.
      destruct lf as [lf|]; simpl; [|done].
      by destruct (List.find _ lf).
    + rewrite length_app. simpl. lia.
    + rewrite fmap_app. simpl. rewrite <- app_assoc. simpl.
      intros Hnd. apply NoDup_snoc_mid; [|done].
      apply not_elem_of_app. split; [by apply find_absent|done].
  - apply find_absent in Ht. split; [|split; [|split]].
    + destruct lf as [lf|]; simpl in *.
      * destruct (List.find _ lf) eqn:E; [done|].
        rewrite find_snoc.
        replace (List.find _ (bots lt)) with (@None BotEntry).
        by rewrite String.eqb_refl.
      * rewrite find_snoc.
        replace (List.find _ (bots lt)) with (@None BotEntry).
        by rewrite String.eqb_refl.
    + intros nm Hne. rewrite find_snoc.
      rewrite (eqb_name_false (name e) nm) by congruence.
      destruct lt as [lt|]; simpl; [|done].
      by destruct (List.find _ lt).
    + rewrite length_app. simpl. lia.
    + rewrite fmap_app. simpl. intros Hnd.
      rewrite app_assoc. rewrite <- (app_nil_r (_ ++ [name e])).
      rewrite <- app_assoc. simpl. apply NoDup_snoc_mid; rewrite app_nil_r.
      * apply not_elem_of_app. split; [done|by apply find_absent].
      * done.
Qed.

(** X16. [addBot] throws exactly when [getBotEntry] finds a bot of that
    name, on either platform; the platform asked for plays no part. *)
Theorem used_name_is_refused (p : Platform) (e : BotEntry) file :
  (∃ message, addBot p e file = inl message)
  ↔ is_Some (getBotEntry (name e) file).
Proof.
  rewrite getBotEntry_is_Some, <- existsb_names. unfold addBot, names.
  destruct (existsb _ _).
  - split; [done|]. intros _. by eexists.
  - split; [|done]. intros [m H]. by destruct p.
Qed.

Lemma findIndex_found nm l i :
  findIndex nm l = Some i → nm ∈ name <$> l.
Proof.
  intros H. destruct (decide (nm ∈ name <$> l)) as [|Hn]; [done|].
  apply find_absent, findIndex_find in Hn. congruence.
Qed.

Lemma findIndex_None nm l : findIndex nm l = None → nm ∉ name <$> l.
Proof. intros H. by apply find_absent, findIndex_find. Qed.

Lemma length_delete_found nm l i :
  findIndex nm l = Some i → length (delete i l) = (length l - 1)%nat.
Proof.
  intros H. apply length_delete, lookup_lt_is_Some. by eapply findIndex_bound.
Qed.

Lemma removeBot_cases nm file :
  match removeBot nm file with
  | NotFound => nm ∉ names file
  | Thrown _ => nm ∈ names file ∧ (total file ≤ 1)%nat
  | Removed file' =>
      nm ∈ names file
      ∧ total file' = (total file - 1)%nat
      ∧ (1 ≤ total file')%nat
      ∧ (∀ nm', nm' ≠ nm → getBotEntry nm' file' = getBotEntry nm' file)
      ∧ (NoDup (names file) → nm ∉ names file')
  end.
Proof.
  unfold removeBot.
  unfold total, names, allNames, getBotEntry, writeBotsConfig.
  destruct (readBotsConfig file) as [lf lt]; simpl.
  assert (Htel :
    match
      match lt with
      | Some l =>
          match findIndex nm l with
          | Some idx =>
              if (length (bots lf) + length (bots lt) <=? 1)%nat
              then Thrown "Cannot remove the last bot"
              else Removed (NewFormat {| feishuBots := lf;
                                         telegramBots := Some (delete idx l) |})
          | None => NotFound
          end
      | None => NotFound
      end
    with
    | NotFound => nm ∉ name <$> bots lt
    | _ => nm ∈ name <$> bots lt
    end).
  { destruct lt as [l|]; simpl; [|apply not_elem_of_nil].
    destruct (findIndex nm l) as [i|] eqn:E.
    - apply findIndex_found in E. by destruct (_ <=? _)%nat.
    - by apply findIndex_None. }
  destruct lf as [l|]; simpl in *.
  - destruct (findIndex nm l) as [i|] eqn:E.
    + pose proof (findIndex_found _ _ _ E) as Hin.
      destruct (_ <=? _)%nat eqn:Hle.
      * apply Nat.leb_le in Hle. split; [|done].
        apply elem_of_app. by left.
      * apply Nat.leb_gt in Hle. simpl.
        rewrite (length_delete_found _ _ _ E).
        pose proof (findIndex_bound _ _ _ E).
        split; [apply elem_of_app; by left|].
        split; [lia|]. split; [lia|]. split.
        -- intros nm' Hne. by rewrite (find_delete_other nm nm' l i E Hne).
        -- destruct (names_delete _ _ _ E) as (ns1 & ns2 & H1 & H2).
           rewrite H1, H2, <- !app_assoc. simpl. apply NoDup_middle.
    + apply findIndex_None in E.
      destruct lt as [l'|]; simpl in *.
      * destruct (findIndex nm l') as [i|] eqn:E'.
        -- destruct (_ <=? _)%nat eqn:Hle.
           ++ apply Nat.leb_le in Hle. split; [|done].
              apply elem_of_app. by right.
           ++ apply Nat.leb_gt in Hle. simpl.
              rewrite (length_delete_found _ _ _ E').
              pose proof (findIndex_bound _ _ _ E').
              split; [apply elem_of_app; by right|].
              split; [lia|]. split; [lia|]. split.
              ** intros nm' Hne.
                 by rewrite (find_delete_other nm nm' l' i E' Hne).
              ** destruct (names_delete _ _ _ E') as (ns1 & ns2 & H1 & H2).
                 rewrite H1, H2, !app_assoc. apply NoDup_middle.
        -- apply not_elem_of_app. done.
      * apply not_elem_of_app. done.
  - destruct lt as [l'|]; simpl in *.
    + destruct (findIndex nm l') as [i|] eqn:E'.
      * destruct (_ <=? _)%nat eqn:Hle.
        -- apply Nat.leb_le in Hle. done.
        -- apply Nat.leb_gt in Hle. simpl.
           rewrite (length_delete_found _ _ _ E').
           pose proof (findIndex_bound _ _ _ E').
           split; [done|]. split; [lia|]. split; [lia|]. split.
           ++ intros nm' Hne.
              by rewrite (find_delete_other nm nm' l' i E' Hne).
           ++ destruct (names_delete _ _ _ E') as (ns1 & ns2 & H1 & H2).
              rewrite H1, H2. apply NoDup_middle.
      * done.
    + apply not_elem_of_nil.
Qed.

(** X17. [removeBot] returns false, leaving the file alone, exactly when
    [getBotEntry] finds no bot of that name; it throws when the bot exists
    and is the only one of the file; otherwise it rewrites the file with one
    bot less and at least one left, the answer of [getBotEntry] for every
    other name being unchanged, and (names being pairwise distinct) the
    name removed is no longer found. *)
Theorem removeBot_outcome nm file :
  match removeBot nm file with
  | NotFound => getBotEntry nm file = None
  | Thrown _ => is_Some (getBotEntry nm file) ∧ (total file ≤ 1)%nat
  | Removed file' => removed_from nm file file'
  end.
Proof.
  pose proof (removeBot_cases nm file) as H.
  destruct (removeBot nm file) as [m|file'|].
  - by rewrite getBotEntry_is_Some.
  - unfold removed_from. rewrite getBotEntry_is_Some.
    destruct H as (H1 & H2 & H3 & H4 & H5).
    repeat (split; [done|]). intros Hnd. by apply getBotEntry_None, H5.
  - by apply getBotEntry_None.
Qed.

(** A file in the old array format with one feishu bot; a telegram bot is
    added. *)
Lemma added_bot_witness :
  ∃ file',
    addBot telegram (mkBot "beta" (Js.JObj [("botToken", Js.JStr "t")]))
      (OldArray [mkBot "alpha" (Js.JObj [("feishuAppId", Js.JStr "cli_a")])])
    = inr file'
    ∧ getBotEntry "beta" file'
      = Some (telegram, mkBot "beta" (Js.JObj [("botToken", Js.JStr "t")]))
    ∧ total file' = 2%nat.
Proof.
  eexists. split; [reflexivity|].
  destruct (added_bot_is_found telegram
              (mkBot "beta" (Js.JObj [("botToken", Js.JStr "t")]))
              (OldArray [mkBot "alpha" (Js.JObj [("feishuAppId", Js.JStr "cli_a")])])
              _ eq_refl) as (H1 & _ & H3 & _).
  split; [exact H1|exact H3].
Defined.

End BotsConfigFacts.

(** ** The content of a card *)

Module CardContentFacts.
Import CardContent StringFacts.

Lemma half_value : half = 13950%N.
Proof. reflexivity. Qed.

Lemma mark_length : String.length TRUNCATED_MARK = 31%nat.
Proof. reflexivity. Qed.

Lemma truncateContent_long text :
  (MAX_CONTENT_LENGTH < N.of_nat (String.length text))%N →
  chars (truncateContent text)
  = take (N.to_nat half) (chars text) ++ chars TRUNCATED_MARK
      ++ drop (String.length text - N.to_nat half) (chars text).
Proof.
  intros H. unfold truncateContent.
  destruct (N.leb_spec (N.of_nat (String.length text)) MAX_CONTENT_LENGTH);
    [lia|].
  unfold Js.slice_last.
  by rewrite !chars_app, chars_slice0, chars_slice_from.
Qed.

(** X18. The text [truncateContent] returns never exceeds
    [MAX_CONTENT_LENGTH] = 28000 characters. A text within the limit is
    returned as it is; a longer one is cut to 27931 characters, which begin
    with the first 13950 characters of the text and end with its last
    13950. *)
Theorem truncated_content_fits (text : string) :
  (N.of_nat (String.length (truncateContent text)) ≤ MAX_CONTENT_LENGTH)%N
  ∧ ((N.of_nat (String.length text) ≤ MAX_CONTENT_LENGTH)%N →
     truncateContent text = text)
  ∧ ((MAX_CONTENT_LENGTH < N.of_nat (String.length text))%N →
     N.of_nat (String.length (truncateContent text)) = 27931%N
     ∧ Js.slice0 (N.to_nat half) (truncateContent text)
       = Js.slice0 (N.to_nat half) text
     ∧ Js.slice_last (N.to_nat half) (truncateContent text)
       = Js.slice_last (N.to_nat half) text).
Proof.
  pose proof half_value as Hh. pose proof mark_length as Hm.
  assert (Hmax : MAX_CONTENT_LENGTH = 28000%N) by reflexivity.
  assert (Hfit : (N.of_nat (String.length text) ≤ MAX_CONTENT_LENGTH)%N →
                 truncateContent text = text).
  { intros H. unfold truncateContent.
    by destruct (N.leb_spec (N.of_nat (String.length text)) MAX_CONTENT_LENGTH);
      [|lia]. }
  assert (Hlong : (MAX_CONTENT_LENGTH < N.of_nat (String.length text))%N →
     N.of_nat (String.length (truncateContent text)) = 27931%N
     ∧ Js.slice0 (N.to_nat half) (truncateContent text)
       = Js.slice0 (N.to_nat half) text
     ∧ Js.slice_last (N.to_nat half) (truncateContent text)
       = Js.slice_last (N.to_nat half) text).
  { intros H. pose proof (truncateContent_long text H) as Hc.
    assert (Hlen : String.length (truncateContent text)
                   = (N.to_nat half + 31 + N.to_nat half)%nat).
    { rewrite (length_chars (truncateContent text)), Hc, !length_app.
      rewrite length_take, length_drop, <- !length_chars, Hm. lia. }
    split; [lia|]. split.
    - apply chars_inj. rewrite !chars_slice0, Hc.
      rewrite take_app_le by (rewrite length_take, <- length_chars; lia).
      by rewrite take_take, Nat.min_id.
    - apply chars_inj. unfold Js.slice_last.
      rewrite !chars_slice_from, Hlen, Hc, app_assoc.
      rewrite drop_app_length'; [done|].
      rewrite length_app, length_take, <- !length_chars, Hm. lia. }
  split; [|done].
  destruct (N.leb_spec (N.of_nat (String.length text)) MAX_CONTENT_LENGTH) as [H|H].
  - by rewrite Hfit.
  - destruct (Hlong H) as [-> _]. lia.
Qed.

End CardContentFacts.

(** ** Splitting, joining and trimming strings *)

Module SplitFacts.
Import StringFacts.

Implicit Types (sep c : ascii) (s cur : string).

Lemma rev_cons_app c cur s :
  String.rev (String c cur) +:+ s = String.rev cur +:+ String c s.
Proof.
  apply chars_inj. rewrite !chars_app, !chars_rev. simpl.
  by rewrite reverse_cons, <- app_assoc.
Qed.

Lemma append_empty_r s : s +:+ "" = s.
Proof. apply chars_inj. rewrite chars_app. simpl. apply app_nil_r. Qed.

Lemma split_slash_on cur s :
  Js.split_slash_aux cur s = Js.split_on_aux "/"%char cur s.
Proof.
  revert cur. induction s as [|c s IH]; intros cur; simpl; [done|].
  rewrite !IH. done.
Qed.

Lemma split_on_aux_nonempty sep cur s : Js.split_on_aux sep cur s ≠ [].
Proof.
  revert cur. induction s as [|c s IH]; intros cur; simpl; [done|].
  destruct (Ascii.eqb c sep); [done|apply IH].
Qed.

(** A string without the separator is one piece. *)
Lemma split_on_aux_free sep cur s :
  sep ∉ chars s → Js.split_on_aux sep cur s = [String.rev cur +:+ s].
Proof.
  revert cur. induction s as [|c s IH]; intros cur; simpl.
  - intros _. by rewrite append_empty_r.
  - rewrite not_elem_of_cons. intros [Hne Hs].
    destruct (Ascii.eqb_spec c sep) as [->|_]; [done|].
    by rewrite IH, rev_cons_app.
Qed.

(** The first separator ends the first piece. *)
Lemma split_on_aux_app sep cur a b :
  sep ∉ chars a →
  Js.split_on_aux sep cur (a +:+ String sep b)
  = (String.rev cur +:+ a) :: Js.split_on sep b.
Proof.
  revert cur. induction a as [|c a IH]; intros cur; simpl.
  - intros _. by rewrite Ascii.eqb_refl, append_empty_r.
  - rewrite not_elem_of_cons. intros [Hne Hs].
    destruct (Ascii.eqb_spec c sep) as [->|_]; [done|].
    by rewrite IH, rev_cons_app.
Qed.

(** No piece holds the separator. *)
Lemma split_on_aux_pieces sep cur s :
  sep ∉ chars cur →
  Forall (λ x, sep ∉ chars x) (Js.split_on_aux sep cur s).
Proof.
  revert cur. induction s as [|c s IH]; intros cur Hcur; simpl.
  - apply Forall_singleton. by rewrite chars_rev, elem_of_reverse.
  - destruct (Ascii.eqb_spec c sep) as [->|Hne].
    + apply Forall_cons. split; [by rewrite chars_rev, elem_of_reverse|].
      apply IH. simpl. apply not_elem_of_nil.
    + apply IH. simpl. rewrite not_elem_of_cons. split; [congruence|done].
Qed.

Lemma split_on_pieces sep s : Forall (λ x, sep ∉ chars x) (Js.split_on sep s).
Proof. apply split_on_aux_pieces. simpl. apply not_elem_of_nil. Qed.

Lemma join_cons sepstr p ps :
  ps ≠ [] → Js.join sepstr (p :: ps) = p +:+ sepstr +:+ Js.join sepstr ps.
Proof. by destruct ps. Qed.

(** Joining the pieces with the separator gives the string back. *)
Lemma join_split_on_aux sep cur s :
  Js.join (String sep "") (Js.split_on_aux sep cur s) = String.rev cur +:+ s.
Proof.
  revert cur. induction s as [|c s IH]; intros cur; simpl Js.split_on_aux.
  - simpl. by rewrite append_empty_r.
  - destruct (Ascii.eqb_spec c sep) as [->|Hne].
    + rewrite join_cons by apply split_on_aux_nonempty. rewrite IH. done.
    + by rewrite IH, rev_cons_app.
Qed.

(** Splitting a joined list of pieces without separator gives the
    pieces. *)
Lemma split_on_join sep (l : list string) :
  l ≠ [] → Forall (λ x, sep ∉ chars x) l →
  Js.split_on sep (Js.join (String sep "") l) = l.
Proof.
  induction l as [|p ps IH]; [done|]. intros _ Hall.
  apply Forall_cons in Hall as [Hp Hps].
  destruct ps as [|q ps].
  - simpl. unfold Js.split_on. by rewrite split_on_aux_free.
  - rewrite join_cons by done.
    change (String sep "" +:+ ?x) with (String sep x).
    unfold Js.split_on at 1. rewrite split_on_aux_app by done.
    simpl String.rev. f_equal. by apply IH.
Qed.

End SplitFacts.

(** ** Shortened paths *)

Module PathLaws.
Import StreamProcessor StringFacts SplitFacts.

Lemma last_two_long {A} (l : list A) :
  (2 ≤ length l)%nat →
  ∃ a b, Js.last_two l = [a; b] ∧ list.last l = Some b ∧ a ∈ l ∧ b ∈ l.
Proof.
  intros Hlen. unfold Js.last_two.
  pose proof (take_drop (length l - 2) l) as Htd.
  pose proof (length_drop l (length l - 2)) as Hd.
  destruct (drop (length l - 2) l) as [|a [|b [|c r]]] eqn:E;
    simpl in Hd; try lia.
  exists a, b. split; [done|]. rewrite <- Htd.
  split; [by rewrite last_app|].
  split; apply elem_of_app; right.
  - apply list_elem_of_here.
  - apply list_elem_of_further, list_elem_of_here.
Qed.

Lemma split_slash_three a b :
  "/"%char ∉ chars a → "/"%char ∉ chars b →
  Js.split_slash (".../" +:+ Js.join "/" [a; b]) = ["..."; a; b].
Proof.
  intros Ha Hb. unfold Js.split_slash. rewrite split_slash_on.
  change (".../" +:+ Js.join "/" [a; b])
    with ("..." +:+ String "/"%char (a +:+ String "/"%char b)).
  rewrite split_on_aux_app.
  - simpl String.rev. f_equal. unfold Js.split_on.
    rewrite split_on_aux_app by done. f_equal.
    unfold Js.split_on. by rewrite split_on_aux_free.
  - apply (bool_decide_eq_true_1 ("/"%char ∉ chars "...")). reflexivity.
Qed.

(** X19. [shortenPath] returns a path of at most three segments, which
    ends with the last segment (the file name) of the path given; a path of
    at most three segments is returned as it is, and shortening twice is
    shortening once. *)
Theorem shortened_path_keeps_file_name (filePath : string) :
  (length (Js.split_slash (shortenPath filePath)) ≤ 3)%nat
  ∧ list.last (Js.split_slash (shortenPath filePath))
    = list.last (Js.split_slash filePath)
  ∧ shortenPath (shortenPath filePath) = shortenPath filePath
  ∧ ((length (Js.split_slash filePath) ≤ 3)%nat → shortenPath filePath = filePath).
Proof.
  assert (Hid : ∀ p, (length (Js.split_slash p) ≤ 3)%nat → shortenPath p = p).
  { intros p H. unfold shortenPath.
    by destruct (Nat.leb_spec (length (Js.split_slash p)) 3); [|lia]. }
  destruct (Nat.leb_spec (length (Js.split_slash filePath)) 3) as [Hle|Hgt].
  - rewrite !(Hid filePath Hle). done.
  - assert (Hsh : ∃ a b, shortenPath filePath = ".../" +:+ Js.join "/" [a; b]
                         ∧ list.last (Js.split_slash filePath) = Some b
                         ∧ ("/"%char ∉ chars a) ∧ ("/"%char ∉ chars b)).
    { destruct (last_two_long (Js.split_slash filePath)) as (a & b & H2 & Hl & Ha & Hb);
        [lia|].
      exists a, b. unfold shortenPath.
      destruct (Nat.leb_spec (length (Js.split_slash filePath)) 3); [lia|].
      rewrite H2. split; [done|]. split; [done|].
      pose proof (split_on_pieces "/"%char filePath) as Hall.
      unfold Js.split_on in Hall. rewrite <- split_slash_on in Hall.
      rewrite Forall_forall in Hall. split; by apply Hall. }
    destruct Hsh as (a & b & -> & Hl & Ha & Hb).
    pose proof (split_slash_three a b Ha Hb) as H3.
    split; [rewrite H3; simpl; lia|].
    split; [by rewrite H3, Hl|].
    split; [|lia]. apply Hid. rewrite H3. simpl. lia.
Qed.

End PathLaws.

(** ** Configuration from the environment *)

Module ConfigFacts.
Import Config StringFacts SplitFacts.

Implicit Types (s : string) (c : ascii).

Abbreviation space := (λ c, Js.is_space c = true).

Lemma trim_start_split s :
  ∃ pre, chars s = pre ++ chars (Js.trim_start s) ∧ Forall space pre.
Proof.
  induction s as [|c s (pre & IH & Hpre)]; simpl.
  - by exists [].
  - destruct (Js.is_space c) eqn:E.
    + exists (c :: pre). simpl. rewrite <- IH. split; [done|].
      by apply Forall_cons.
    + by exists [].
Qed.

Lemma trim_start_head s c :
  head (chars (Js.trim_start s)) = Some c → Js.is_space c = false.
Proof.
  induction s as [|c' s IH]; simpl; [done|].
  destruct (Js.is_space c') eqn:E; [done|]. simpl. by intros [= <-].
Qed.

Lemma trim_start_id s :
  (∀ c, head (chars s) = Some c → Js.is_space c = false) → Js.trim_start s = s.
Proof.
  destruct s as [|c s]; simpl; [done|]. intros H. by rewrite (H c eq_refl).
Qed.

Lemma trim_start_blank s : Js.trim_start s = "" ↔ blank s.
Proof.
  unfold blank. induction s as [|c s IH]; simpl.
  - split; [by constructor|done].
  - destruct (Js.is_space c) eqn:E.
    + rewrite IH, Forall_cons. tauto.
    + split; [done|]. rewrite Forall_cons. intros [H _]. congruence.
Qed.

(** [s.trim()] is [s] without a run of white space at each end. *)
Lemma trim_split s :
  ∃ pre post, chars s = pre ++ chars (Js.trim s) ++ post
              ∧ Forall space pre ∧ Forall space post.
Proof.
  unfold Js.trim.
  destruct (trim_start_split s) as (pre & H1 & Hpre).
  destruct (trim_start_split (String.rev (Js.trim_start s))) as (q & H2 & Hq).
  exists pre, (reverse q). rewrite chars_rev in H2 |- *.
  split; [|split; [done|by apply Forall_reverse]].
  rewrite H1. f_equal. rewrite <- reverse_app, <- H2.
  by rewrite reverse_involutive.
Qed.

Lemma trim_head s c : head (chars (Js.trim s)) = Some c → Js.is_space c = false.
Proof.
  unfold Js.trim. rewrite chars_rev, head_reverse.
  set (u := Js.trim_start s).
  destruct (trim_start_split (String.rev u)) as (q & H2 & Hq).
  intros Hlast.
  assert (Hl : list.last (chars (String.rev u)) = Some c).
  { rewrite H2, last_app, Hlast. done. }
  rewrite chars_rev, last_reverse in Hl. by apply (trim_start_head s).
Qed.

Lemma trim_last s c :
  list.last (chars (Js.trim s)) = Some c → Js.is_space c = false.
Proof.
  unfold Js.trim. rewrite chars_rev, last_reverse. apply trim_start_head.
Qed.

Lemma trim_id s :
  (∀ c, head (chars s) = Some c → Js.is_space c = false) →
  (∀ c, list.last (chars s) = Some c → Js.is_space c = false) →
  Js.trim s = s.
Proof.
  intros Hh Hl. unfold Js.trim. rewrite (trim_start_id s Hh).
  rewrite trim_start_id; [apply rev_rev|].
  intros c. rewrite chars_rev, head_reverse. apply Hl.
Qed.

Lemma trim_blank s : Js.trim s = "" ↔ blank s.
Proof.
  split.
  - intros H. destruct (trim_split s) as (pre & post & Hs & Hpre & Hpost).
    unfold blank. rewrite Hs, H. simpl. by apply Forall_app.
  - intros H. unfold Js.trim. apply trim_start_blank in H. by rewrite H.
Qed.

Lemma comma_not_space : Js.is_space ","%char = false.
Proof. reflexivity. Qed.

Lemma blank_no_comma s : blank s → ","%char ∉ chars s.
Proof.
  unfold blank. rewrite Forall_forall. intros H Hin.
  apply H in Hin. by rewrite comma_not_space in Hin.
Qed.

(** The guard of [commaSplit] is an early exit: the pipeline gives the
    same on the values it catches. *)
Lemma commaSplit_pipeline s :
  commaSplit (Some s)
  = List.filter Js.truthy_string (Js.trim <$> Js.split_on ","%char s).
Proof.
  unfold commaSplit.
  destruct (negb (Js.truthy_string s) || String.eqb (Js.trim s) "") eqn:G; [|done].
  assert (Hb : blank s).
  { apply orb_true_iff in G as [G|G].
    - destruct s; [by constructor|done].
    - apply String.eqb_eq in G. by apply trim_blank. }
  unfold Js.split_on. rewrite split_on_aux_free by by apply blank_no_comma.
  rewrite list_fmap_singleton. change (String.rev "" +:+ s) with s.
  apply trim_blank in Hb. rewrite Hb. done.
Qed.

Lemma entry_truthy e : entry e → Js.truthy_string e = true.
Proof. intros [H _]. by destruct e. Qed.

Lemma entry_trim e : entry e → Js.trim e = e.
Proof. intros (_ & _ & Hh & Hl). by apply trim_id. Qed.

Lemma trim_no_comma s : ","%char ∉ chars s → ","%char ∉ chars (Js.trim s).
Proof.
  destruct (trim_split s) as (pre & post & Hs & _). rewrite Hs.
  rewrite !not_elem_of_app. tauto.
Qed.

Lemma commaSplit_Forall_entry (value : option string) :
  Forall entry (commaSplit value).
Proof.
  destruct value as [s|]; [|by constructor].
  rewrite commaSplit_pipeline. apply Forall_forall. intros e He.
  apply list_elem_of_In, filter_In in He as [He Ht].
  apply list_elem_of_In, list_elem_of_fmap in He as (x & -> & Hx).
  pose proof (split_on_pieces ","%char s) as Hall.
  rewrite Forall_forall in Hall. apply Hall in Hx.
  split; [|split; [|split]].
  - intros E. by rewrite E in Ht.
  - by apply trim_no_comma.
  - apply trim_head.
  - apply trim_last.
Qed.

(** X20. Every element of the list [commaSplit] returns is a proper
    entry: not empty, without comma and without white space at its ends. An
    unset variable and a value of white space only (the empty value
    included) give the empty list. *)
Theorem commaSplit_entries (value : option string) :
  Forall entry (commaSplit value)
  ∧ (value = None → commaSplit value = [])
  ∧ (∀ s, value = Some s → blank s → commaSplit value = []).
Proof.
  split; [apply commaSplit_Forall_entry|split].
  - by intros ->.
  - intros s -> Hb. unfold commaSplit. apply trim_blank in Hb. rewrite Hb.
    by rewrite orb_true_r.
Qed.

Lemma filter_entries (l : list string) :
  Forall entry l → List.filter Js.truthy_string (Js.trim <$> l) = l.
Proof.
  induction 1 as [|e l He Hl IH]; [done|].
  rewrite fmap_cons. simpl. rewrite (entry_trim e He), (entry_truthy e He).
  by rewrite IH.
Qed.

(** X21. [commaSplit] reads back a list written with commas: the value
    [l.join(',')] of a list [l] of proper entries is split into [l] again;
    more generally the pieces between the commas are trimmed and the empty
    ones dropped. *)
Theorem commaSplit_reads_a_joined_list (l : list string) :
  Forall (λ x, ","%char ∉ chars x) l →
  commaSplit (Some (Js.join "," l))
  = List.filter Js.truthy_string (Js.trim <$> l)
  ∧ (Forall entry l → commaSplit (Some (Js.join "," l)) = l).
Proof.
  intros Hall.
  assert (H : commaSplit (Some (Js.join "," l))
              = List.filter Js.truthy_string (Js.trim <$> l)).
  { destruct l as [|x l]; [done|].
    rewrite commaSplit_pipeline, split_on_join; done. }
  split; [done|]. intros He. by rewrite H, filter_entries.
Qed.

Lemma commaSplit_reads_witness :
  commaSplit (Some "ou_1, ou_2 ,,ou_3") = ["ou_1"; "ou_2"; "ou_3"].
Proof.
  destruct (commaSplit_reads_a_joined_list ["ou_1"; " ou_2 "; ""; "ou_3"])
    as [H _]; [|exact H].
  apply (bool_decide_eq_true_1
           (Forall (λ x, ","%char ∉ chars x) ["ou_1"; " ou_2 "; ""; "ou_3"])).
  vm_compute. reflexivity.
Defined.


Lemma required_inr name env v :
  required name env = inr v ↔ env !! name = Some v ∧ v ≠ "".
Proof.
  unfold required. destruct (env !! name) as [x|]; [|split; [done|by intros [? _]]].
  destruct x as [|c x]; simpl.
  - split; [done|]. intros [[= <-] H]. done.
  - split; [by intros [= <-]|]. by intros [[= <-] _].
Qed.

Lemma required_inl name env e :
  required name env = inl e →
  env_or_undefined name env = None
  ∧ e = "Missing required environment variable: " +:+ name.
Proof.
  unfold required, env_or_undefined. destruct (env !! name) as [x|].
  - destruct (Js.truthy_string x); [done|]. by intros [= <-].
  - by intros [= <-].
Qed.

Lemma env_or_undefined_Some name env v :
  env_or_undefined name env = Some v → env !! name = Some v ∧ v ≠ "".
Proof.
  unfold env_or_undefined. destruct (env !! name) as [x|]; [|done].
  destruct x; simpl; [done|]. by intros [= <-].
Qed.

Lemma or_string_default name env d :
  env_or_undefined name env = None → Js.or_string (env !! name) d = d.
Proof.
  unfold env_or_undefined, Js.or_string. destruct (env !! name) as [x|]; [|done].
  by destruct (Js.truthy_string x).
Qed.

(** X22. [loadConfig] throws when FEISHU_APP_ID or FEISHU_APP_SECRET is
    unset or empty, and the message names the first of the two that is
    missing. Otherwise the configuration holds the two values, lists made of
    proper entries, 50 turns and the level info when CLAUDE_MAX_TURNS and
    LOG_LEVEL are unset or empty, and no empty model or directory. The
    list of allowed tools is what [commaSplit] returns: when
    CLAUDE_ALLOWED_TOOLS is unset it is empty, the default list after [||]
    is never taken. *)
Theorem loadConfig_outcome (parseFloat : string → CardBuilder.number) (env : Env) :
  match loadConfig parseFloat env with
  | inl message =>
      (env_or_undefined "FEISHU_APP_ID" env = None
       ∧ message = "Missing required environment variable: FEISHU_APP_ID")
      ∨ (env_or_undefined "FEISHU_APP_ID" env ≠ None
         ∧ env_or_undefined "FEISHU_APP_SECRET" env = None
         ∧ message = "Missing required environment variable: FEISHU_APP_SECRET")
  | inr cfg =>
      (env !! "FEISHU_APP_ID" = Some (feishu_appId cfg) ∧ feishu_appId cfg ≠ "")
      ∧ (env !! "FEISHU_APP_SECRET" = Some (feishu_appSecret cfg)
         ∧ feishu_appSecret cfg ≠ "")
      ∧ Forall entry (auth_authorizedUserIds cfg)
      ∧ Forall entry (auth_authorizedChatIds cfg)
      ∧ Forall entry (claude_allowedTools cfg)
      ∧ (env !! "CLAUDE_ALLOWED_TOOLS" = None → claude_allowedTools cfg = [])
      ∧ (env_or_undefined "CLAUDE_MAX_TURNS" env = None →
         claude_maxTurns cfg = Some 50)
      ∧ (env_or_undefined "LOG_LEVEL" env = None → log_level cfg = "info")
      ∧ claude_model cfg ≠ Some ""
      ∧ claude_defaultWorkingDirectory cfg ≠ Some ""
  end.
Proof.
  unfold loadConfig.
  destruct (required "FEISHU_APP_ID" env) as [e|appId] eqn:Hid.
  { left. by apply required_inl in Hid. }
  apply required_inr in Hid.
  destruct (required "FEISHU_APP_SECRET" env) as [e|appSecret] eqn:Hsec.
  { right. apply required_inl in Hsec as [H1 H2]. split; [|done].
    unfold env_or_undefined. destruct Hid as [-> Hne]. by destruct appId. }
  apply required_inr in Hsec. cbn [feishu_appId feishu_appSecret
    auth_authorizedUserIds auth_authorizedChatIds claude_allowedTools
    claude_maxTurns log_level claude_model claude_defaultWorkingDirectory].
  unfold Js.or_array.
  split; [done|]. split; [done|].
  split; [apply commaSplit_Forall_entry|].
  split; [apply commaSplit_Forall_entry|].
  split; [apply commaSplit_Forall_entry|].
  split; [by intros ->|].
  split; [intros H; by rewrite or_string_default|].
  split; [intros H; by rewrite or_string_default|].
  split.
  - intros H. by apply env_or_undefined_Some in H as [_ H].
  - intros H. by apply env_or_undefined_Some in H as [_ H].
Qed.

End ConfigFacts.

(** ** The bridge: commands, the stream loop and shutdown *)

Module MessageBridgeLaws.
Import CardBuilder MessageBridge MessageBridgeFacts.

Implicit Types (b : MessageBridge.t) (msg : IncomingMessage) (st : Loop).

Lemma sendAll_outbox os : ∀ b, outbox (sendAll os b) = outbox b ++ os.
Proof.
  induction os as [|o os IH]; intros b; simpl; [by rewrite app_nil_r|].
  unfold sendAll in *. simpl. rewrite IH. simpl. by rewrite <- app_assoc.
Qed.

Lemma resetSession_other k k' sm :
  k ≠ k' →
  SessionManager.sessions (SessionManager.resetSession k sm) !! k'
  = SessionManager.sessions sm !! k'.
Proof.
  intros Hne. unfold SessionManager.resetSession.
  destruct (SessionManager.sessions sm !! k); [|done]. simpl.
  by rewrite lookup_insert_ne.
Qed.

Lemma send_command_frame msg c b : command_frame msg b (send (SendCard (chatId msg) c) b).
Proof.
  unfold command_frame; simpl. split; [by eexists|].
  repeat (split; [done|]). split; [by left|done].
Qed.

Lemma handleCommand_frame now h msg b :
  command_frame msg b (handleCommand now h msg b).
Proof.
  unfold handleCommand.
  repeat match goal with
  | |- context [if String.eqb ?a ?b then _ else _] => destruct (String.eqb a b)
  end; try apply send_command_frame.
  - destruct (negb _); [apply send_command_frame|].
    destruct (statSync h _); try apply send_command_frame.
    unfold command_frame; simpl. split; [by eexists|].
    repeat (split; [done|]). split; [by left|].
    intros u Hu. by apply SessionManagerFacts.setWorkingDirectory_other.
  - unfold command_frame; simpl. split; [by eexists|].
    repeat (split; [done|]). split; [by left|].
    intros u Hu. by apply resetSession_other.
  - destruct (runningTasks b !! userId msg) as [task|] eqn:E;
      [|apply send_command_frame].
    unfold command_frame; simpl. split; [by eexists|].
    repeat (split; [done|]). split; [apply union_subseteq_r|].
    split; [|done]. intros u. destruct (decide (u = userId msg)) as [->|Hne].
    + right. split; [done|]. apply lookup_delete_eq.
    + left. apply lookup_delete_ne. congruence.
  - pose proof (λ u, SessionManagerFacts.getSession_other now (userId msg) u
                       (sessionManager b)) as Ho.
    destruct (SessionManager.getSession now (userId msg) (sessionManager b))
      as [sm session].
    unfold command_frame; simpl. split; [by eexists|].
    repeat (split; [done|]). split; [by left|].
    intros u Hu. apply Ho. congruence.
Qed.

(** X23. Every command, known or not, is answered by exactly one card,
    sent to the chat of the message. It starts and clears no timer, touches
    no file and raises no abort signal back; the running task of another
    user and the session of another user are never changed, and the only
    change to the running-task map is that the entry of the user may be
    removed. *)
Theorem command_is_answered_by_one_card
    (now : Z) (h : Host) (msg : IncomingMessage) (b : MessageBridge.t) :
  let b' := handleCommand now h msg b in
  (∃ c, outbox b' = outbox b ++ [SendCard (chatId msg) c])
  ∧ timers b' = timers b
  ∧ files b' = files b
  ∧ fresh b' = fresh b
  ∧ aborted b ⊆ aborted b'
  ∧ (∀ u, runningTasks b' !! u = runningTasks b !! u
          ∨ (u = userId msg ∧ runningTasks b' !! u = None))
  ∧ (∀ u, u ≠ userId msg →
          SessionManager.sessions (sessionManager b') !! u
          = SessionManager.sessions (sessionManager b) !! u).
Proof. exact (handleCommand_frame now h msg b). Qed.

(** *** The loop *)

Lemma render_frame mid p ran b :
  runningTasks (render mid p ran b) = runningTasks b
  ∧ timers (render mid p ran b) = timers b
  ∧ aborted (render mid p ran b) = aborted b
  ∧ files (render mid p ran b) = files b
  ∧ sessionManager (render mid p ran b) = sessionManager b.
Proof. unfold render. apply sendAll_frame. Qed.

Lemma render_outbox mid p ran b :
  ∃ ups, outbox (render mid p ran b) = outbox b ++ ups
         ∧ Forall (in_progress mid) ups.
Proof.
  unfold render. rewrite sendAll_outbox. eexists. split; [done|].
  apply Forall_fmap, Forall_forall. intros r _. done.
Qed.

Lemma fire_due_mono now b : aborted b ⊆ aborted (fire_due now b).
Proof. unfold fire_due; simpl. apply union_subseteq_r. Qed.

(** What the passing of time leaves alone. *)
Lemma tick_frame now mid st :
  processor (tick now mid st) = processor st
  ∧ lastState (tick now mid st) = lastState st
  ∧ runningTasks (bridge (tick now mid st)) = runningTasks (bridge st)
  ∧ sessionManager (bridge (tick now mid st)) = sessionManager (bridge st)
  ∧ files (bridge (tick now mid st)) = files (bridge st)
  ∧ aborted (bridge st) ⊆ aborted (bridge (tick now mid st))
  ∧ ∃ ups, outbox (bridge (tick now mid st)) = outbox (bridge st) ++ ups
           ∧ Forall (in_progress mid) ups.
Proof.
  unfold tick. destruct (RateLimiter.advance now (limiter st)) as [rl ran]; simpl.
  destruct (render_frame mid (processor st) ran (fire_due now (bridge st)))
    as (-> & _ & -> & -> & ->).
  repeat (split; [done|]). split; [apply fire_due_mono|].
  apply (render_outbox mid (processor st) ran (fire_due now (bridge st))).
Qed.

Lemma store_sid_frame user now p b :
  runningTasks (store_sid user now p b) = runningTasks b
  ∧ timers (store_sid user now p b) = timers b
  ∧ aborted (store_sid user now p b) = aborted b
  ∧ files (store_sid user now p b) = files b
  ∧ outbox (store_sid user now p b) = outbox b.
Proof.
  unfold store_sid. destruct (StreamProcessor.getSessionId p) as [new|]; [|done].
  by destruct (_ && _).
Qed.

Lemma consume_eq user mid now m st :
  consume user mid now m st =
  let p := (StreamProcessor.processMessage m (processor st)).1 in
  let state := (StreamProcessor.processMessage m (processor st)).2 in
  let b1 := store_sid user now p (bridge st) in
  if is_final (card_status state) then
    {| bridge := b1; processor := p; lastState := state;
       limiter := limiter st; clock := now |}
  else
    {| bridge := render mid p (RateLimiter.schedule now state (limiter st)).2 b1;
       processor := p; lastState := state;
       limiter := (RateLimiter.schedule now state (limiter st)).1; clock := now |}.
Proof.
  unfold consume, store_sid.
  destruct (StreamProcessor.processMessage m (processor st)) as [p state]; simpl.
  destruct (is_final (card_status state)); [done|].
  by destruct (RateLimiter.schedule now state (limiter st)).
Qed.

Lemma sid_differs_false new cur : sid_differs new cur = false → cur = Some new.
Proof.
  destruct cur as [c|]; simpl; [|done].
  rewrite negb_false_iff, String.eqb_eq. by intros ->.
Qed.

Lemma store_sid_stores user now p b sid :
  StreamProcessor.getSessionId p = Some sid → sid ≠ "" →
  current_sessionId user (store_sid user now p b) = Some sid.
Proof.
  intros Hp Hne. unfold store_sid. rewrite Hp.
  assert (Htr : Js.truthy_string sid = true) by by destruct sid.
  rewrite Htr. simpl.
  destruct (sid_differs sid (current_sessionId user b)) eqn:E.
  - unfold current_sessionId. cbn [sessionManager set_sessionManager].
    by rewrite SessionManagerFacts.setSessionId_lookup.
  - by apply sid_differs_false.
Qed.

Lemma store_sid_other user now p b u :
  u ≠ user →
  SessionManager.sessions (sessionManager (store_sid user now p b)) !! u
  = SessionManager.sessions (sessionManager b) !! u.
Proof.
  intros Hne. unfold store_sid.
  destruct (StreamProcessor.getSessionId p) as [new|]; [|done].
  destruct (_ && _); [|done]. simpl.
  apply SessionManagerFacts.setSessionId_other. congruence.
Qed.

Lemma store_sid_none user now p b :
  StreamProcessor.getSessionId p = None → store_sid user now p b = b.
Proof. intros H. unfold store_sid. by rewrite H. Qed.

(** What the processing of one event leaves alone. *)
Lemma consume_frame user mid now m st :
  processor (consume user mid now m st)
    = (StreamProcessor.processMessage m (processor st)).1
  ∧ lastState (consume user mid now m st)
    = (StreamProcessor.processMessage m (processor st)).2
  ∧ sessionManager (bridge (consume user mid now m st))
    = sessionManager (store_sid user now
                        (StreamProcessor.processMessage m (processor st)).1 (bridge st))
  ∧ runningTasks (bridge (consume user mid now m st)) = runningTasks (bridge st)
  ∧ timers (bridge (consume user mid now m st)) = timers (bridge st)
  ∧ aborted (bridge (consume user mid now m st)) = aborted (bridge st)
  ∧ files (bridge (consume user mid now m st)) = files (bridge st)
  ∧ ∃ ups, outbox (bridge (consume user mid now m st)) = outbox (bridge st) ++ ups
           ∧ Forall (in_progress mid) ups.
Proof.
  rewrite consume_eq. cbv zeta.
  set (p := (StreamProcessor.processMessage m (processor st)).1).
  set (state := (StreamProcessor.processMessage m (processor st)).2).
  destruct (store_sid_frame user now p (bridge st)) as (Hr & Ht & Ha & Hf & Ho).
  destruct (is_final (card_status state)); simpl.
  - repeat (split; [done|]). exists []. by rewrite app_nil_r.
  - set (ran := (RateLimiter.schedule now state (limiter st)).2).
    destruct (render_frame mid p ran (store_sid user now p (bridge st)))
      as (-> & -> & -> & -> & ->).
    repeat (split; [done|]). rewrite <- Ho. apply render_outbox.
Qed.

(** X24. After an event of the stream has been processed, the session of
    the user holds the session identifier the processor has captured (when
    it has captured a non-empty one): it is stored on the event that
    reveals it, and stored again by the next event if a [/reset] or [/cd]
    has cleared it in between. The sessions of the other users are not
    touched, and without an identifier no session is. *)
Theorem processed_event_stores_session_id
    (user mid : string) (now : Z) (m : Sdk.SDKMessage) (st : Loop) :
  let st' := consume user mid now m st in
  (∀ sid, StreamProcessor.getSessionId (processor st') = Some sid → sid ≠ "" →
          current_sessionId user (bridge st') = Some sid)
  ∧ (∀ u, u ≠ user →
          SessionManager.sessions (sessionManager (bridge st')) !! u
          = SessionManager.sessions (sessionManager (bridge st)) !! u)
  ∧ (StreamProcessor.getSessionId (processor st') = None →
     sessionManager (bridge st') = sessionManager (bridge st)).
Proof.
  intros st'. subst st'.
  destruct (consume_frame user mid now m st) as (Hp & _ & Hsm & _).
  rewrite Hp. unfold current_sessionId. rewrite Hsm.
  split; [|split].
  - intros sid Hsid Hne. by apply (store_sid_stores user now _ (bridge st) sid).
  - intros u Hu. by apply store_sid_other.
  - intros Hn. by rewrite store_sid_none.
Qed.

Lemma handleCommand_stop now h msg b task :
  command msg = "/stop" → runningTasks b !! userId msg = Some task →
  handleCommand now h msg b
  = send (SendCard (chatId msg)
            (TextCard "🛑 Stopped" "Current task has been aborted." "orange"))
      (set_runningTasks (delete (userId msg) (runningTasks b))
         (abort (abortController task) b)).
Proof.
  intros Hcmd Htask. unfold handleCommand. cbv zeta. fold (command msg).
  rewrite Hcmd. cbn [String.eqb Ascii.eqb Bool.eqb]. rewrite Htask. done.
Qed.

(** Once the signal of the loop is raised, the loop processes nothing
    more. *)
Lemma drive_after_abort h user mid c ss : ∀ st,
  c ∈ aborted (bridge st) →
  processor (drive h user mid c ss st).1 = processor st
  ∧ lastState (drive h user mid c ss st).1 = lastState st
  ∧ c ∈ aborted (bridge (drive h user mid c ss st).1)
  ∧ (∀ u, runningTasks (bridge st) !! u = None →
          runningTasks (bridge (drive h user mid c ss st).1) !! u = None).
Proof.
  induction ss as [|[at_ m|at_ msg] ss IH]; intros st Hab; [done| |].
  - cbn [drive].
    destruct (tick_frame at_ mid st) as (Hp & Hl & Hr & _ & _ & Hmono & _).
    unfold is_aborted. rewrite bool_decide_eq_true_2 by by apply Hmono.
    simpl. rewrite Hp, Hl, Hr. split; [done|]. split; [done|].
    split; [by apply Hmono|done].
  - cbn [drive].
    destruct (tick_frame at_ mid st) as (Hp & Hl & Hr & _ & _ & Hmono & _).
    destruct (handleCommand_frame at_ h msg (bridge (tick at_ mid st)))
      as (_ & _ & _ & _ & Hmono2 & Hrun & _).
    match goal with |- context [drive h user mid c ss ?x] => set (st2 := x) end.
    destruct (IH st2) as (H1 & H2 & H3 & H4).
    { simpl. by apply Hmono2, Hmono. }
    simpl in H1, H2. rewrite H1, H2, Hp, Hl.
    split; [done|]. split; [done|]. split; [done|].
    intros u Hu. apply H4. simpl.
    destruct (Hrun u) as [->|[_ ->]]; [by rewrite Hr|done].
Qed.

(** X25. A [/stop] of a user while their task is running ends the
    stream loop of that task: the abort signal of the task is raised and its
    entry leaves the running-task map; whatever the stream yields
    afterwards is not processed (the processor and the last card state are
    those of the moment of the command), whatever commands follow. *)
Theorem stop_ends_the_stream
    (h : Host) (mid : string) (now : Z) (msg : IncomingMessage)
    (rest : list Step) (st : Loop) (task : RunningTask) :
  command msg = "/stop" →
  runningTasks (bridge st) !! userId msg = Some task →
  let r := drive h (userId msg) mid (abortController task)
             (Command now msg :: rest) st in
  processor r.1 = processor st
  ∧ lastState r.1 = lastState st
  ∧ is_aborted (abortController task) (bridge r.1) = true
  ∧ runningTasks (bridge r.1) !! userId msg = None.
Proof.
  intros Hcmd Htask r. subst r. cbn [drive].
  destruct (tick_frame now mid st) as (Hp & Hl & Hr & _).
  rewrite (handleCommand_stop now h msg (bridge (tick now mid st)) task Hcmd)
    by by rewrite Hr.
  match goal with |- context [drive _ _ _ _ rest ?x] => set (st2 := x) end.
  destruct (drive_after_abort h (userId msg) mid (abortController task) rest st2)
    as (H1 & H2 & H3 & H4).
  { simpl. apply elem_of_union_l, elem_of_singleton. done. }
  simpl in H1, H2. rewrite H1, H2, Hp, Hl.
  split; [done|]. split; [done|].
  split; [by apply bool_decide_eq_true_2|].
  apply H4. simpl. apply lookup_delete_eq.
Qed.

(** The user stops their task before the first delta arrives. *)
Lemma stop_witness :
  processor
    (drive Examples.host "u" "om_card" 0
       [Command 500 (Examples.incoming "/stop" None);
        Yield 1000 (Examples.text_delta Sdk.ParentNull "Hi")] Examples.loop0).1
  = StreamProcessor.create "hi"
  ∧ runningTasks
      (bridge
         (drive Examples.host "u" "om_card" 0
            [Command 500 (Examples.incoming "/stop" None);
             Yield 1000 (Examples.text_delta Sdk.ParentNull "Hi")] Examples.loop0).1)
      !! "u" = None.
Proof.
  assert (H1 : command (Examples.incoming "/stop" None) = "/stop")
    by (vm_compute; reflexivity).
  assert (H2 : runningTasks (bridge Examples.loop0)
                 !! userId (Examples.incoming "/stop" None) = Some (mkTask 0 0))
    by (vm_compute; reflexivity).
  destruct (stop_ends_the_stream Examples.host "om_card" 500
              (Examples.incoming "/stop" None)
              [Yield 1000 (Examples.text_delta Sdk.ParentNull "Hi")]
              Examples.loop0 (mkTask 0 0) H1 H2) as (Hp & _ & _ & Hr).
  split; [exact Hp|exact Hr].
Defined.

(** What the loop leaves alone, whatever the stream yields and whatever
    commands arrive. *)
Lemma drive_frame h user mid c ss : ∀ st,
  aborted (bridge st) ⊆ aborted (bridge (drive h user mid c ss st).1)
  ∧ files (bridge (drive h user mid c ss st).1) = files (bridge st)
  ∧ ((drive h user mid c ss st).2 = true →
     c ∈ aborted (bridge (drive h user mid c ss st).1))
  ∧ (StreamProcessor.image_paths_ok (processor st) →
     StreamProcessor.image_paths_ok (processor (drive h user mid c ss st).1))
  ∧ ∃ ups, outbox (bridge (drive h user mid c ss st).1) = outbox (bridge st) ++ ups
           ∧ Forall (in_progress mid) ups.
Proof.
  induction ss as [|[at_ m|at_ msg] ss IH]; intros st.
  - simpl. repeat (split; [done|]). exists []. by rewrite app_nil_r.
  - cbn [drive].
    destruct (tick_frame at_ mid st)
      as (Hp & _ & _ & _ & Hf & Hmono & ups & Hups & Hall).
    destruct (is_aborted c (bridge (tick at_ mid st))) eqn:Hab.
    + simpl. rewrite Hp. split; [done|]. split; [done|].
      split; [intros _; by apply bool_decide_eq_true_1 in Hab|].
      split; [done|]. by exists ups.
    + destruct (consume_frame user mid at_ m (tick at_ mid st))
        as (Hp2 & _ & _ & _ & _ & Ha2 & Hf2 & ups2 & Hups2 & Hall2).
      destruct (IH (consume user mid at_ m (tick at_ mid st)))
        as (I1 & I2 & I3 & I4 & ups3 & Hups3 & Hall3).
      split; [by rewrite <- I1, Ha2|].
      split; [by rewrite I2, Hf2|].
      split; [done|]. split.
      * intros Hok. apply I4. rewrite Hp2, Hp.
        by apply StreamProcessorLaws.processMessage_image_paths.
      * exists (ups ++ ups2 ++ ups3).
        rewrite Hups3, Hups2, Hups, <- !app_assoc. split; [done|].
        by rewrite !Forall_app.
  - cbn [drive].
    destruct (tick_frame at_ mid st)
      as (Hp & _ & _ & _ & Hf & Hmono & ups & Hups & Hall).
    destruct (handleCommand_frame at_ h msg (bridge (tick at_ mid st)))
      as ([card Hc] & _ & Hf2 & _ & Hmono2 & _).
    match goal with |- context [drive h user mid c ss ?x] => set (st2 := x) end.
    destruct (IH st2) as (I1 & I2 & I3 & I4 & ups3 & Hups3 & Hall3).
    simpl in I1, I2, I4, Hups3.
    split; [by rewrite <- I1, <- Hmono2|].
    split; [by rewrite I2, Hf2|].
    split; [done|]. split; [by rewrite <- Hp|].
    exists (ups ++ [SendCard (chatId msg) card] ++ ups3).
    rewrite Hups3, Hc, Hups, <- !app_assoc. split; [done|].
    rewrite !Forall_app. split; [done|]. split; [|done].
    by apply Forall_singleton.
Qed.

Lemma finish_frame mid c e st :
  aborted (bridge st) ⊆ aborted (bridge (finish mid c e st).1)
  ∧ processor (finish mid c e st).1 = processor st
  ∧ lastState (finish mid c e st).1 = lastState st
  ∧ files (bridge (finish mid c e st).1) = files (bridge st)
  ∧ ∃ ups, outbox (bridge (finish mid c e st).1) = outbox (bridge st) ++ ups
           ∧ Forall (in_progress mid) ups.
Proof.
  destruct e as [at_|at_ name message]; simpl.
  - destruct (tick_frame at_ mid st) as (Hp & Hl & _ & _ & Hf & Hmono & Hups).
    done.
  - destruct (tick_frame at_ mid st) as (Hp & Hl & _ & _ & Hf & Hmono & Hups).
    by destruct (_ || _).
Qed.

Lemma finalRender_frame mid state st :
  aborted (finalRender mid state st) = aborted (bridge st)
  ∧ files (finalRender mid state st) = files (bridge st)
  ∧ ∃ ups, outbox (finalRender mid state st)
           = outbox (bridge st) ++ ups ++ [UpdateCard mid (StateCard state)]
           ∧ Forall (in_progress mid) ups.
Proof.
  unfold finalRender.
  destruct (RateLimiter.flush (clock st) (limiter st)) as [rl ran]; simpl.
  destruct (render_frame mid (processor st) ran (bridge st))
    as (_ & _ & -> & -> & _).
  split; [done|]. split; [done|].
  destruct (render_outbox mid (processor st) ran (bridge st)) as (ups & -> & Hall).
  exists ups. by rewrite <- app_assoc.
Qed.

Lemma sendOutputImages_frame sc chat p state b :
  NoDup (StreamProcessor.getImagePaths p) →
  aborted (sendOutputImages sc chat p state b) = aborted b
  ∧ files (sendOutputImages sc chat p state b) = files b
  ∧ ∃ images, outbox (sendOutputImages sc chat p state b)
              = outbox b ++ (SendImageFile chat <$> images)
              ∧ NoDup images
              ∧ Forall (λ x, deliverable sc x = true) images.
Proof.
  intros Hnd. unfold sendOutputImages.
  match goal with |- context [filter ?P ?l] => set (all := l) end.
  destruct (sendAll_frame
              (SendImageFile chat <$> filter (λ x, deliverable sc x = true) all) b)
    as (_ & _ & -> & -> & _).
  split; [done|]. split; [done|].
  exists (filter (λ x, deliverable sc x = true) all).
  rewrite sendAll_outbox. split; [done|]. split.
  - apply NoDup_filter. subst all.
    destruct (Js.truthy_string (responseText state)); [|done].
    by apply StreamProcessorLaws.foldl_set_add.
  - apply Forall_forall. intros x Hx. by apply list_elem_of_filter in Hx as [? _].
Qed.

Lemma cleanup_frame user tid ip b :
  aborted (cleanup user tid ip b) = aborted b
  ∧ outbox (cleanup user tid ip b) = outbox b.
Proof.
  unfold cleanup. destruct ip as [path|]; [|done].
  by destruct (Js.truthy_string path).
Qed.

Lemma stageImage_frame h sc msg b :
  outbox (stageImage h sc msg b).1.1 = outbox b
  ∧ aborted (stageImage h sc msg b).1.1 = aborted b.
Proof.
  unfold stageImage. destruct (imageKey msg) as [key|]; [|done].
  destruct (Js.truthy_string key); [|done].
  by destruct (download sc) as [|[]].
Qed.

Lemma getSession_sessionId now user b :
  SessionManager.sessionId
    (SessionManager.getSession now user (sessionManager b)).2
  = current_sessionId user b.
Proof.
  unfold current_sessionId, SessionManager.getSession; simpl.
  by destruct (SessionManager.sessions (sessionManager b) !! user).
Qed.

(** The calls of a task whose first card has been sent, from the state
    [st2] in which the stream loop is left with [outcome]. *)
Lemma task_end_outbox sc msg mid st2 outcome tid ip :
  NoDup (StreamProcessor.getImagePaths (processor st2)) →
  let b4 :=
    match outcome with
    | Finished =>
        sendOutputImages sc (chatId msg) (processor st2) (lastState st2)
          (finalRender mid (lastState st2) st2)
    | Raised message =>
        finalRender mid
          {| card_status := error; userPrompt := displayPrompt msg;
             responseText := responseText (lastState st2);
             toolCalls := toolCalls (lastState st2);
             costUsd := None; durationMs := None;
             errorMessage := Some (Js.or_string message "Unknown error") |} st2
    end in
  aborted (cleanup (userId msg) tid ip b4) = aborted (bridge st2)
  ∧ ∃ ups final images,
      outbox (cleanup (userId msg) tid ip b4)
      = outbox (bridge st2) ++ ups ++ [UpdateCard mid (StateCard final)]
          ++ (SendImageFile (chatId msg) <$> images)
      ∧ Forall (in_progress mid) ups
      ∧ NoDup images
      ∧ Forall (λ x, deliverable sc x = true) images
      ∧ match outcome with
        | Finished => final = lastState st2
        | Raised message =>
            images = [] ∧ card_status final = error
            ∧ errorMessage final = Some (Js.or_string message "Unknown error")
            ∧ responseText final = responseText (lastState st2)
            ∧ toolCalls final = toolCalls (lastState st2)
        end.
Proof.
  intros Hnd b4. subst b4.
  destruct (cleanup_frame (userId msg) tid ip
              match outcome with
              | Finished =>
                  sendOutputImages sc (chatId msg) (processor st2) (lastState st2)
                    (finalRender mid (lastState st2) st2)
              | Raised message =>
                  finalRender mid
                    {| card_status := error; userPrompt := displayPrompt msg;
                       responseText := responseText (lastState st2);
                       toolCalls := toolCalls (lastState st2);
                       costUsd := None; durationMs := None;
                       errorMessage := Some (Js.or_string message "Unknown error") |}
                    st2
              end) as [-> ->].
  destruct outcome as [|message].
  - destruct (finalRender_frame mid (lastState st2) st2)
      as (Ha & _ & ups & Ho & Hall).
    destruct (sendOutputImages_frame sc (chatId msg) (processor st2) (lastState st2)
                (finalRender mid (lastState st2) st2) Hnd)
      as (-> & _ & images & -> & Hnd2 & Hdel).
    split; [done|]. exists ups, (lastState st2), images.
    rewrite Ho, <- !app_assoc. done.
  - match goal with |- context [finalRender mid ?s st2] => set (final := s) end.
    destruct (finalRender_frame mid final st2) as (-> & _ & ups & -> & Hall).
    split; [done|]. exists ups, final, [].
    rewrite fmap_nil, app_nil_r.
    split; [done|]. split; [done|]. split; [apply NoDup_nil_2|].
    split; [by constructor|done].
Qed.

(** [executeQuery] once the first card has been sent: the loop is driven
    from a state [st0] in which the stream has just been opened, and the
    way it is left decides the final card. *)
Lemma executeQuery_served now h sc msg b mid :
  initial_send sc = Some mid → Js.truthy_string mid = true →
  ∃ st0 ip prompt cwd,
    outbox (bridge st0)
    = outbox b ++ [SendCard (chatId msg) (StateCard (initialState msg));
                   Execute prompt cwd (current_sessionId (userId msg) b) (fresh b)]
    ∧ aborted (bridge st0) = aborted b
    ∧ processor st0 = StreamProcessor.create (displayPrompt msg)
    ∧ executeQuery now h sc msg b
      = let r := drive h (userId msg) mid (fresh b) (steps sc) st0 in
        let r2 := if r.2 then (r.1, Finished)
                  else finish mid (fresh b) (ending sc) r.1 in
        cleanup (userId msg) (S (fresh b)) ip
          match r2.2 with
          | Finished =>
              sendOutputImages sc (chatId msg) (processor r2.1) (lastState r2.1)
                (finalRender mid (lastState r2.1) r2.1)
          | Raised message =>
              finalRender mid
                {| card_status := error; userPrompt := displayPrompt msg;
                   responseText := responseText (lastState r2.1);
                   toolCalls := toolCalls (lastState r2.1);
                   costUsd := None; durationMs := None;
                   errorMessage := Some (Js.or_string message "Unknown error") |}
                r2.1
          end.
Proof.
  intros Hs Htr. unfold executeQuery. rewrite registerTask_eq.
  match goal with |- context [stageImage h sc msg ?x] => set (b1 := x) end.
  destruct (stageImage_frame h sc msg b1) as [Ho Ha].
  destruct (stageImage h sc msg b1) as [[b2 prompt] imagePath]; simpl in Ho, Ha.
  rewrite Hs, Htr.
  match goal with |- context [drive _ _ _ _ _ ?x] => exists x end.
  exists imagePath, prompt.
  eexists. split; [|split; [|split]].
  - simpl. rewrite Ho, <- app_assoc, <- (getSession_sessionId now). done.
  - simpl. by rewrite Ha.
  - done.
  - cbv zeta.
    match goal with |- context [drive ?a ?b ?c ?d ?e ?f] =>
      destruct (drive a b c d e f) as [st1 broke] end.
    destruct broke; simpl; [done|].
    by destruct (finish mid (fresh b) (ending sc) st1) as [st2 outcome].
Qed.

Lemma create_image_paths prompt :
  StreamProcessor.image_paths_ok (StreamProcessor.create prompt).
Proof. split; [apply NoDup_nil_2|constructor]. Qed.

(** X26. A task whose first card has been sent makes its calls in this
    order: the first card; the opening of one agent stream, resumed from the
    session identifier stored for the user, with a new abort controller;
    then only updates of its own card and answers to commands; then the
    final update of the card; then the output images, each deliverable path
    once. Nothing is sent after the images, and no update of the card
    follows the final one. *)
Theorem task_calls_in_order
    (now : Z) (h : Host) (sc : Scenario) (msg : IncomingMessage)
    (b : MessageBridge.t) (mid : string) :
  initial_send sc = Some mid → Js.truthy_string mid = true →
  ∃ prompt cwd updates final images,
    outbox (executeQuery now h sc msg b)
    = outbox b
        ++ [SendCard (chatId msg) (StateCard (initialState msg));
            Execute prompt cwd (current_sessionId (userId msg) b) (fresh b)]
        ++ updates ++ [UpdateCard mid (StateCard final)]
        ++ (SendImageFile (chatId msg) <$> images)
    ∧ Forall (in_progress mid) updates
    ∧ NoDup images
    ∧ Forall (λ x, deliverable sc x = true) images.
Proof.
  intros Hs Htr.
  destruct (executeQuery_served now h sc msg b mid Hs Htr)
    as (st0 & ip & prompt & cwd & Ho & _ & Hp & ->).
  cbv zeta.
  destruct (drive_frame h (userId msg) mid (fresh b) (steps sc) st0)
    as (_ & _ & _ & Hok & ups1 & Ho1 & Hall1).
  rewrite Hp in Hok. specialize (Hok (create_image_paths _)).
  destruct (drive h (userId msg) mid (fresh b) (steps sc) st0) as [st1 broke].
  simpl in Hok, Ho1.
  assert (Hr2 : ∃ st2 outcome ups2,
    (if broke then (st1, Finished)
     else finish mid (fresh b) (ending sc) st1) = (st2, outcome)
    ∧ processor st2 = processor st1
    ∧ outbox (bridge st2) = outbox (bridge st1) ++ ups2
    ∧ Forall (in_progress mid) ups2).
  { destruct broke.
    - exists st1, Finished, []. by rewrite app_nil_r.
    - destruct (finish_frame mid (fresh b) (ending sc) st1)
        as (_ & Hp2 & _ & _ & ups2 & Ho2 & Hall2).
      destruct (finish mid (fresh b) (ending sc) st1) as [st2 outcome].
      by exists st2, outcome, ups2. }
  destruct Hr2 as (st2 & outcome & ups2 & Heq & Hp2 & Ho2 & Hall2).
  simpl. rewrite Heq. simpl.
  assert (Hnd : NoDup (StreamProcessor.getImagePaths (processor st2))).
  { rewrite Hp2. apply Hok. }
  destruct (task_end_outbox sc msg mid st2 outcome (S (fresh b)) ip Hnd)
    as (_ & ups3 & final & images & Hout & Hall3 & Hnd3 & Hdel & _).
  exists prompt, cwd, (ups1 ++ ups2 ++ ups3), final, images.
  split; [|split; [|done]].
  - rewrite Hout, Ho2, Ho1, Ho, <- !app_assoc. done.
  - by rewrite !Forall_app.
Qed.

Lemma task_calls_witness :
  ∃ prompt cwd updates final images,
    outbox (executeQuery 0 Examples.host Examples.slow_agent
              (Examples.incoming "hi" None) Examples.bridge0)
    = outbox Examples.bridge0
        ++ [SendCard "c" (StateCard (initialState (Examples.incoming "hi" None)));
            Execute prompt cwd None 0]
        ++ updates ++ [UpdateCard "om_card" (StateCard final)]
        ++ (SendImageFile "c" <$> images)
    ∧ Forall (in_progress "om_card") updates
    ∧ NoDup images
    ∧ Forall (λ x, deliverable Examples.slow_agent x = true) images.
Proof.
  apply (task_calls_in_order 0 Examples.host Examples.slow_agent
           (Examples.incoming "hi" None) Examples.bridge0 "om_card");
    reflexivity.
Defined.

(** X27. When the stream of the agent raises an error that is not an
    [AbortError], and the task has not been aborted (no timeout, no
    [/stop]), the last call of the task is the final update of its card with
    status error and the message of the error, or Unknown error when the
    error has no message; the text and the tool calls shown are those of the
    last processed event, and no image is sent. *)
Theorem stream_error_is_reported
    (now : Z) (h : Host) (sc : Scenario) (msg : IncomingMessage)
    (b : MessageBridge.t) (mid : string)
    (at_ : Z) (name : string) (message : option string) :
  initial_send sc = Some mid → Js.truthy_string mid = true →
  ending sc = Throws at_ name message → name ≠ "AbortError" →
  fresh b ∉ aborted (executeQuery now h sc msg b) →
  ∃ final,
    list.last (outbox (executeQuery now h sc msg b))
    = Some (UpdateCard mid (StateCard final))
    ∧ card_status final = error
    ∧ errorMessage final = Some (Js.or_string message "Unknown error")
    ∧ userPrompt final = displayPrompt msg.
Proof.
  intros Hs Htr Hend Hname.
  destruct (executeQuery_served now h sc msg b mid Hs Htr)
    as (st0 & ip & prompt & cwd & _ & _ & Hp & ->).
  cbv zeta.
  destruct (drive_frame h (userId msg) mid (fresh b) (steps sc) st0)
    as (_ & _ & Hbroke & Hok & _).
  rewrite Hp in Hok. specialize (Hok (create_image_paths _)).
  destruct (drive h (userId msg) mid (fresh b) (steps sc) st0) as [st1 broke].
  simpl in Hok, Hbroke. simpl fst. simpl snd.
  destruct broke.
  - simpl. intros Hna. exfalso. apply Hna.
    destruct (task_end_outbox sc msg mid st1 Finished (S (fresh b)) ip (proj1 Hok))
      as (-> & _).
    by apply Hbroke.
  - rewrite Hend. simpl.
    destruct (tick_frame at_ mid st1) as (Hp1 & _).
    apply String.eqb_neq in Hname. rewrite Hname. simpl.
    assert (Hnd : NoDup (StreamProcessor.getImagePaths (processor (tick at_ mid st1)))).
    { rewrite Hp1. apply Hok. }
    destruct (is_aborted (fresh b) (bridge (tick at_ mid st1))) eqn:Hab; simpl.
    + intros Hna. exfalso. apply Hna.
      destruct (task_end_outbox sc msg mid (tick at_ mid st1) Finished
                  (S (fresh b)) ip Hnd) as (-> & _).
      by apply bool_decide_eq_true_1 in Hab.
    + intros _.
      destruct (task_end_outbox sc msg mid (tick at_ mid st1) (Raised message)
                  (S (fresh b)) ip Hnd)
        as (_ & ups & final & images & Hout & _ & _ & _ & -> & Hst & Herr & _).
      simpl in Hout.
      match goal with |- context [finalRender mid ?s _] => set (shown := s) in * end.
      destruct (finalRender_frame mid shown (tick at_ mid st1))
        as (_ & _ & ups' & Hout' & _).
      destruct (cleanup_frame (userId msg) (S (fresh b)) ip
                  (finalRender mid shown (tick at_ mid st1))) as [_ Hc].
      exists shown. rewrite Hc, Hout', !app_assoc, last_snoc. done.
Qed.

Lemma stream_error_witness :
  ∃ final,
    list.last (outbox (executeQuery 0 Examples.host Examples.failing_agent
                         (Examples.incoming "hi" None) Examples.bridge0))
    = Some (UpdateCard "om_card" (StateCard final))
    ∧ card_status final = error
    ∧ errorMessage final = Some "boom"
    ∧ userPrompt final = "hi".
Proof.
  apply (stream_error_is_reported 0 Examples.host Examples.failing_agent
           (Examples.incoming "hi" None) Examples.bridge0 "om_card"
           2000 "Error" (Some "boom")); try reflexivity.
  - discriminate.
  - apply (bool_decide_eq_true_1
             (fresh Examples.bridge0
              ∉ aborted (executeQuery 0 Examples.host Examples.failing_agent
                           (Examples.incoming "hi" None) Examples.bridge0))).
    vm_compute. reflexivity.
Defined.

(** *** Shutdown *)

Lemma destroy_aborted b c :
  c ∈ aborted (destroy b) ↔
  c ∈ aborted b ∨ ∃ u task, runningTasks b !! u = Some task ∧ abortController task = c.
Proof.
  unfold destroy; simpl. rewrite elem_of_union, elem_of_list_to_set.
  rewrite list_elem_of_fmap. split.
  - intros [(task & -> & Hin)|?]; [|by left]. right.
    apply list_elem_of_fmap in Hin as ([u task'] & -> & Hin).
    apply elem_of_map_to_list in Hin. by exists u, task'.
  - intros [?|(u & task & Hl & <-)]; [by right|]. left.
    exists task. split; [done|]. apply list_elem_of_fmap. exists (u, task).
    split; [done|]. by apply elem_of_map_to_list.
Qed.

(** X28. [destroy] empties the running-task map and raises the abort
    signal of every task that was running, and of no other controller: the
    loop of each of these tasks stops at the next event of its stream,
    without processing it. The timeout timers are left pending and no card
    is sent. *)
Theorem destroy_aborts_every_task (b : MessageBridge.t) :
  runningTasks (destroy b) = ∅
  ∧ (∀ c, c ∈ aborted (destroy b) ↔
          c ∈ aborted b
          ∨ ∃ u task, runningTasks b !! u = Some task ∧ abortController task = c)
  ∧ timers (destroy b) = timers b
  ∧ outbox (destroy b) = outbox b
  ∧ (∀ u task h user mid at_ m rest st,
       runningTasks b !! u = Some task →
       aborted (destroy b) ⊆ aborted (bridge st) →
       (drive h user mid (abortController task) (Yield at_ m :: rest) st).2 = true
       ∧ processor (drive h user mid (abortController task)
                      (Yield at_ m :: rest) st).1 = processor st).
Proof.
  split; [done|]. split; [apply destroy_aborted|].
  split; [done|]. split; [done|].
  intros u task h user mid at_ m rest st Hrun Hsub. cbn [drive].
  destruct (tick_frame at_ mid st) as (Hp & _ & _ & _ & _ & Hmono & _).
  unfold is_aborted. rewrite bool_decide_eq_true_2; [done|].
  apply Hmono, Hsub, destroy_aborted. right. by exists u, task.
Qed.

(** *** [/cd] *)

Lemma handleCommand_cd now h msg b :
  command msg = "/cd" →
  handleCommand now h msg b
  = if negb (Js.truthy_string (argument msg)) then
      send (SendCard (chatId msg)
              (TextCard "⚠️ Usage" "`/cd /path/to/project`" "orange")) b
    else
      match statSync h (path_resolve h (expand_home h (argument msg))) with
      | NotDirectory =>
          send (SendCard (chatId msg)
                  (TextCard "❌ Error"
                     ("Not a directory: `"
                        +:+ path_resolve h (expand_home h (argument msg)) +:+ "`")
                     "red")) b
      | Missing =>
          send (SendCard (chatId msg)
                  (TextCard "❌ Error"
                     ("Directory not found: `"
                        +:+ path_resolve h (expand_home h (argument msg)) +:+ "`")
                     "red")) b
      | IsDirectory =>
          send (SendCard (chatId msg)
                  (TextCard "✅ Working Directory Set"
                     ("`" +:+ path_resolve h (expand_home h (argument msg)) +:+ "`")
                     "green"))
            (set_sessionManager
               (SessionManager.setWorkingDirectory now (userId msg)
                  (path_resolve h (expand_home h (argument msg)))
                  (sessionManager b)) b)
      end.
Proof.
  intros Hcmd. unfold handleCommand. cbv zeta.
  fold (command msg). fold (argument msg). rewrite Hcmd.
  cbn [String.eqb Ascii.eqb Bool.eqb]. done.
Qed.

(** X29. [/cd] changes the working directory only after the host has
    confirmed the resolved path as a directory: without argument, or when
    the path is missing or is not a directory, the session store is left as
    it was -- no session is created, none is touched -- and the answer is a
    usage or error card. On success the session of the user holds the
    resolved path. In both cases a running task of the user keeps
    running. *)
Theorem cd_validates_the_directory
    (now : Z) (h : Host) (msg : IncomingMessage) (b : MessageBridge.t) :
  command msg = "/cd" →
  let resolved := path_resolve h (expand_home h (argument msg)) in
  let b' := handleCommand now h msg b in
  runningTasks b' = runningTasks b
  ∧ aborted b' = aborted b
  ∧ (argument msg = "" ∨ statSync h resolved ≠ IsDirectory →
     sessionManager b' = sessionManager b
     ∧ ∃ title content color,
         outbox b' = outbox b ++ [SendCard (chatId msg) (TextCard title content color)]
         ∧ color ≠ "green")
  ∧ (argument msg ≠ "" → statSync h resolved = IsDirectory →
     SessionManager.workingDirectory
       <$> SessionManager.sessions (sessionManager b') !! userId msg
     = Some (Some resolved)).
Proof.
  intros Hcmd resolved b'. subst resolved b'.
  rewrite (handleCommand_cd now h msg b Hcmd).
  destruct (argument msg) as [|c arg] eqn:Harg; simpl negb; cbv iota.
  - simpl. split; [done|]. split; [done|]. split; [|done].
    intros _. split; [done|]. by eexists _, _, _.
  - destruct (statSync h _) eqn:Hstat.
    + split; [done|]. split; [done|]. split; [by intros [?|?]|].
      intros _ _. cbn [sessionManager send set_sessionManager].
      by rewrite SessionManagerFacts.setWorkingDirectory_lookup.
    + split; [done|]. split; [done|]. split; [|done].
      intros _. split; [done|]. by eexists _, _, _.
    + split; [done|]. split; [done|]. split; [|done].
      intros _. split; [done|]. by eexists _, _, _.
Qed.

(** The command word is compared without regard to case, and the tilde is
    expanded. *)
Lemma cd_witness :
  SessionManager.workingDirectory
    <$> SessionManager.sessions
          (sessionManager
             (handleCommand 5 Examples.host (Examples.incoming "/CD  ~/proj" None)
                Examples.bridge0)) !! "u"
  = Some (Some "/home/bot/proj").
Proof.
  assert (Hc : command (Examples.incoming "/CD  ~/proj" None) = "/cd")
    by (vm_compute; reflexivity).
  destruct (cd_validates_the_directory 5 Examples.host
              (Examples.incoming "/CD  ~/proj" None) Examples.bridge0 Hc)
    as (_ & _ & _ & H).
  apply H; [|reflexivity]. intros E. vm_compute in E. discriminate.
Defined.

(** *** Other users *)

Lemma same_for_refl u b : same_for u b b.
Proof. done. Qed.

Lemma same_for_trans u b1 b2 b3 :
  same_for u b1 b2 → same_for u b2 b3 → same_for u b1 b3.
Proof. intros [H1 H2] [H3 H4]. split; congruence. Qed.

Lemma same_for_fields u b b' :
  runningTasks b' = runningTasks b → sessionManager b' = sessionManager b →
  same_for u b b'.
Proof. intros H1 H2. unfold same_for. by rewrite H1, H2. Qed.

Lemma tick_same_for u now mid st : same_for u (bridge st) (bridge (tick now mid st)).
Proof.
  destruct (tick_frame now mid st) as (_ & _ & Hr & Hs & _).
  by apply same_for_fields.
Qed.

Lemma consume_same_for u user mid now m st :
  u ≠ user → same_for u (bridge st) (bridge (consume user mid now m st)).
Proof.
  intros Hne.
  destruct (consume_frame user mid now m st) as (_ & _ & Hs & Hr & _).
  split; [by rewrite Hr|]. rewrite Hs. by apply store_sid_other.
Qed.

Lemma handleCommand_same_for u now h msg b :
  userId msg ≠ u → same_for u b (handleCommand now h msg b).
Proof.
  intros Hne.
  destruct (handleCommand_frame now h msg b) as (_ & _ & _ & _ & _ & Hr & Hs).
  split; [|apply Hs; congruence].
  destruct (Hr u) as [?|[? _]]; [done|congruence].
Qed.

Lemma drive_same_for u h user mid c ss : ∀ st,
  u ≠ user →
  (∀ at_ m, Command at_ m ∈ ss → userId m ≠ u) →
  same_for u (bridge st) (bridge (drive h user mid c ss st).1).
Proof.
  induction ss as [|[at_ m|at_ msg] ss IH]; intros st Hne Hcmds; [done| |].
  - cbn [drive].
    assert (Hrest : ∀ at' m', Command at' m' ∈ ss → userId m' ≠ u).
    { intros at' m' Hin. apply (Hcmds at' m'). by apply list_elem_of_further. }
    destruct (is_aborted c (bridge (tick at_ mid st))); simpl.
    + apply tick_same_for.
    + eapply same_for_trans; [apply (tick_same_for u at_ mid st)|].
      eapply same_for_trans; [by apply (consume_same_for u user mid at_ m)|].
      by apply IH.
  - cbn [drive].
    assert (Hrest : ∀ at' m', Command at' m' ∈ ss → userId m' ≠ u).
    { intros at' m' Hin. apply (Hcmds at' m'). by apply list_elem_of_further. }
    assert (Hmsg : userId msg ≠ u).
    { apply (Hcmds at_ msg). apply list_elem_of_here. }
    eapply same_for_trans; [apply (tick_same_for u at_ mid st)|].
    eapply same_for_trans;
      [apply (handleCommand_same_for u at_ h msg (bridge (tick at_ mid st)) Hmsg)|].
    match goal with |- context [drive h user mid c ss ?x] => set (st2 := x) end.
    by apply (IH st2).
Qed.

Lemma finish_same_for u mid c e st :
  same_for u (bridge st) (bridge (finish mid c e st).1).
Proof.
  destruct e as [at_|at_ name message]; simpl.
  - apply tick_same_for.
  - destruct (_ || _); apply tick_same_for.
Qed.

Lemma finalRender_same_for u mid state st :
  same_for u (bridge st) (finalRender mid state st).
Proof.
  unfold finalRender.
  destruct (RateLimiter.flush (clock st) (limiter st)) as [rl ran]; simpl.
  destruct (render_frame mid (processor st) ran (bridge st))
    as (Hr & _ & _ & _ & Hs).
  by apply same_for_fields.
Qed.

Lemma sendOutputImages_same_for u sc chat p state b :
  same_for u b (sendOutputImages sc chat p state b).
Proof.
  unfold sendOutputImages.
  match goal with |- context [sendAll ?os b] =>
    destruct (sendAll_frame os b) as (Hr & _ & _ & _ & Hs) end.
  by apply same_for_fields.
Qed.

Lemma cleanup_same_for u user tid ip b :
  u ≠ user → same_for u b (cleanup user tid ip b).
Proof.
  intros Hne. unfold cleanup.
  assert (H : same_for u b
                (set_runningTasks (delete user (runningTasks (clearTimeout tid b)))
                   (clearTimeout tid b))).
  { split; [|done]. simpl. apply lookup_delete_ne. congruence. }
  destruct ip as [path|]; [|done]. by destruct (Js.truthy_string path).
Qed.

Lemma stageImage_same_for u h sc msg b :
  same_for u b (stageImage h sc msg b).1.1.
Proof.
  unfold stageImage. destruct (imageKey msg) as [key|]; [|done].
  destruct (Js.truthy_string key); [|done].
  by destruct (download sc) as [|[]].
Qed.

(** X30. A task changes nothing for the other users: whatever the stream
    yields and however the task ends, a user other than the one of the task,
    who sends no command meanwhile, has the same running task (or none) and
    the same session (or none) after the task as before. *)
Theorem task_leaves_other_users_alone
    (now : Z) (h : Host) (sc : Scenario) (msg : IncomingMessage)
    (b : MessageBridge.t) (u : string) :
  u ≠ userId msg →
  (∀ at_ m, Command at_ m ∈ steps sc → userId m ≠ u) →
  runningTasks (executeQuery now h sc msg b) !! u = runningTasks b !! u
  ∧ SessionManager.sessions (sessionManager (executeQuery now h sc msg b)) !! u
    = SessionManager.sessions (sessionManager b) !! u.
Proof.
  intros Hne Hcmds. change (same_for u b (executeQuery now h sc msg b)).
  unfold executeQuery. rewrite registerTask_eq.
  match goal with |- context [stageImage h sc msg ?x] => set (b1 := x) end.
  assert (H1 : same_for u b b1).
  { subst b1. split; simpl.
    - apply lookup_insert_ne. congruence.
    - apply SessionManagerFacts.getSession_other. congruence. }
  pose proof (stageImage_same_for u h sc msg b1) as H2.
  destruct (stageImage h sc msg b1) as [[b2 prompt] imagePath]; simpl in H2.
  assert (H12 : same_for u b b2) by by eapply same_for_trans.
  assert (Hearly : same_for u b
            (clearTimeout (S (fresh b))
               (set_runningTasks
                  (delete (userId msg)
                     (runningTasks
                        (send (SendCard (chatId msg) (StateCard (initialState msg))) b2)))
                  (send (SendCard (chatId msg) (StateCard (initialState msg))) b2)))).
  { eapply same_for_trans; [exact H12|].
    split; [|done]. simpl. apply lookup_delete_ne. congruence. }
  destruct (initial_send sc) as [mid|]; [|exact Hearly].
  destruct (Js.truthy_string mid); [|exact Hearly].
  match goal with |- context [drive ?a ?b ?c ?d ?e ?f] =>
    pose proof (drive_same_for u a b c d e f Hne Hcmds) as H3;
    destruct (drive a b c d e f) as [st1 broke] end.
  simpl in H3.
  assert (H13 : same_for u b (bridge st1)).
  { eapply same_for_trans; [exact H12|]. exact H3. }
  assert (Hend : ∀ st2 outcome,
    same_for u b (bridge st2) →
    same_for u b
      (cleanup (userId msg) (S (fresh b)) imagePath
         match outcome with
         | Finished =>
             sendOutputImages sc (chatId msg) (processor st2) (lastState st2)
               (finalRender mid (lastState st2) st2)
         | Raised message =>
             finalRender mid
               {| card_status := error; userPrompt := displayPrompt msg;
                  responseText := responseText (lastState st2);
                  toolCalls := toolCalls (lastState st2);
                  costUsd := None; durationMs := None;
                  errorMessage := Some (Js.or_string message "Unknown error") |}
               st2
         end)).
  { intros st2 outcome H4.
    eapply same_for_trans; [|by apply cleanup_same_for].
    eapply same_for_trans; [exact H4|].
    destruct outcome.
    - eapply same_for_trans; [apply finalRender_same_for|].
      apply sendOutputImages_same_for.
    - apply finalRender_same_for. }
  destruct broke.
  - exact (Hend st1 Finished H13).
  - pose proof (finish_same_for u mid (fresh b) (ending sc) st1) as H4.
    destruct (finish mid (fresh b) (ending sc) st1) as [st2 outcome].
    apply (Hend st2 outcome). by eapply same_for_trans.
Qed.

(** The task of user [u] leaves user [v] alone. *)
Lemma other_users_witness :
  runningTasks (executeQuery 0 Examples.host Examples.failing_agent
                  (Examples.incoming "hi" None) Examples.bridge0) !! "v"
  = runningTasks Examples.bridge0 !! "v".
Proof.
  destruct (task_leaves_other_users_alone 0 Examples.host Examples.failing_agent
              (Examples.incoming "hi" None) Examples.bridge0 "v") as [H _].
  - discriminate.
  - intros at_ m Hin. simpl in Hin.
    apply list_elem_of_singleton in Hin. discriminate.
  - exact H.
Defined.

End MessageBridgeLaws.
